(** * DayZ-Market-Tool: archive reader, model sampler and class correlator

    A shallow embedding of [src/parsers/pbo_parser.py],
    [src/parsers/p3d_parser.py] and [src/parsers/config_parser.py],
    followed by the properties of the specification that concern them.

    Conventions of the embedding
    - a Python [bytes] value is a [list byte]; a Python [str] is a
      [list ascii] holding the UTF-8 encoding of the text (the only
      characters the code inspects are ASCII, and UTF-8 never reuses an
      ASCII byte inside a multi-byte sequence);
    - Python integers are [Z]; stream positions are [nat];
    - an open binary file is [pyfile]: its content and a cursor;
    - exceptions are the [Raised] branch of [outcome]; loops that Python
      writes as [while] take a fuel argument and answer [OutOfFuel] when
      it is exhausted (the theorems show it never is). *)

From Stdlib Require Import ZArith Lia Bool.
From Stdlib Require Import Strings.Byte Strings.Ascii Strings.String.
From stdpp Require Import base option list gmap strings.

Local Open Scope Z_scope.

(** ** Python values shared by the three parsers *)

Definition str := list ascii.

#[global] Instance byte_eq_decision : EqDecision byte := Byte.byte_eq_dec.

Definition lit (s : string) : str := list_ascii_of_string s.

Inductive exn :=
| StructError        (* struct.error *)
| TypeError
| OSError.           (* FileNotFoundError, IsADirectoryError, ... *)

Inductive outcome (A : Type) :=
| Returned (a : A)
| Raised (e : exn)
| OutOfFuel.
Arguments Returned {A} a.
Arguments Raised {A} e.
Arguments OutOfFuel {A}.

(** [bytes.decode('utf-8')] succeeds exactly on well-formed UTF-8
    (Unicode table 3-7: no overlong forms, no surrogates, nothing above
    U+10FFFF). *)
Definition byte_in (lo hi : N) (b : byte) : bool :=
  ((lo <=? Byte.to_N b) && (Byte.to_N b <=? hi))%N.

Definition is_cont : byte -> bool := byte_in 128 191.

Fixpoint utf8_valid_fuel (fuel : nat) (bs : list byte) : bool :=
  match fuel with
  | O => false
  | S k =>
    match bs with
    | [] => true
    | b0 :: r0 =>
      if byte_in 0 127 b0 then utf8_valid_fuel k r0
      else if byte_in 194 223 b0 then
        match r0 with
        | b1 :: r1 => is_cont b1 && utf8_valid_fuel k r1
        | _ => false
        end
      else if byte_in 224 239 b0 then
        match r0 with
        | b1 :: b2 :: r2 =>
          (if byte_in 224 224 b0 then byte_in 160 191 b1
           else if byte_in 237 237 b0 then byte_in 128 159 b1
           else is_cont b1)
          && is_cont b2 && utf8_valid_fuel k r2
        | _ => false
        end
      else if byte_in 240 244 b0 then
        match r0 with
        | b1 :: b2 :: b3 :: r3 =>
          (if byte_in 240 240 b0 then byte_in 144 191 b1
           else if byte_in 244 244 b0 then byte_in 128 143 b1
           else is_cont b1)
          && is_cont b2 && is_cont b3 && utf8_valid_fuel k r3
        | _ => false
        end
      else false
    end
  end.

Definition utf8_valid (bs : list byte) : bool :=
  utf8_valid_fuel (S (length bs)) bs.

(** What [read_asciiz] hands back: text when the bytes decode, the raw
    bytes otherwise. *)
Inductive pystr :=
| PyStr (s : str)
| PyBytes (b : list byte).

Definition decode_or_raw (raw : list byte) : pystr :=
  if utf8_valid raw then PyStr (map ascii_of_byte raw) else PyBytes raw.

(** ** Binary files *)

Record pyfile := { f_data : list byte; f_pos : nat }.

Definition io (A : Type) := pyfile -> outcome (A * pyfile).

Definition raise {A} (e : exn) : io A := fun _ => Raised e.

#[global] Instance io_ret : MRet io := fun A a f => Returned (a, f).

#[global] Instance io_bind : MBind io := fun A B k m f =>
  match m f with
  | Returned (a, f') => k a f'
  | Raised e => Raised e
  | OutOfFuel => OutOfFuel
  end.

Definition ret {A} (a : A) : io A := mret a.

(** [f.read(n)]: at most [n] bytes, fewer at the end of the file. *)
Definition f_read (n : nat) : io (list byte) :=
  fun f =>
    let chunk := take n (drop (f_pos f) (f_data f)) in
    Returned (chunk, {| f_data := f_data f; f_pos := f_pos f + length chunk |}).

Definition f_seek (p : nat) : io unit :=
  fun f => Returned (tt, {| f_data := f_data f; f_pos := p |}).

Definition f_tell : io nat := fun f => Returned (f_pos f, f).

(** What is left to read, and the file after [k] more bytes. *)
Definition remaining (f : pyfile) : list byte := drop (f_pos f) (f_data f).

Definition advance (f : pyfile) (k : nat) : pyfile :=
  {| f_data := f_data f; f_pos := f_pos f + k |}.

(** [struct.unpack('<L', data)] and [struct.unpack('<I', data)]. *)
Definition le_uint (data : list byte) : Z :=
  fold_right (fun b acc => Z.of_N (Byte.to_N b) + 256 * acc) 0 data.

Definition unpack_u32 (data : list byte) : outcome Z :=
  if decide (length data = 4%nat) then Returned (le_uint data) else Raised StructError.

Definition unpack_u16 (data : list byte) : outcome Z :=
  if decide (length data = 2%nat) then Returned (le_uint data) else Raised StructError.

Definition lift {A} (o : outcome A) : io A :=
  fun f =>
    match o with
    | Returned a => Returned (a, f)
    | Raised e => Raised e
    | OutOfFuel => OutOfFuel
    end.

(** ** pbo_parser.py *)

(** The iterator of [read_asciiz] pulls one byte at a time and
    [takewhile] swallows the first NUL it meets: the result is the run
    before the NUL and the number of bytes taken from the stream. *)
Fixpoint takewhile_not_nul (bs : list byte) : list byte * nat :=
  match bs with
  | [] => ([], O)
  | b :: bs' =>
    if Byte.eqb b x00 then ([], 1%nat)
    else let '(run, k) := takewhile_not_nul bs' in (b :: run, S k)
  end.

Definition read_asciiz : io pystr :=
  fun f =>
    let '(bytestring, k) := takewhile_not_nul (drop (f_pos f) (f_data f)) in
    Returned (decode_or_raw bytestring,
              {| f_data := f_data f; f_pos := f_pos f + k |}).

Definition read_ulong : io Z :=
  data ← f_read 4; lift (unpack_u32 data).

Module PBOHeaderEntry.

Record t := mk {
  filename : pystr;
  packing_method : Z;
  original_size : Z;
  reserved : Z;
  timestamp : Z;
  data_size : Z;
  data_offset : Z
}.

(** [__init__] leaves [data_offset] at 0. *)
Definition init (filename : pystr) (pm os rs ts ds : Z) : t :=
  mk filename pm os rs ts ds 0.

(** [self.filename == '']; a [bytes] name never equals a [str]. *)
Definition is_boundary (e : t) : bool :=
  match filename e with
  | PyStr [] => true
  | _ => false
  end.

Definition parse_from_file : io t :=
  filename ← read_asciiz;
  packing_method ← read_ulong;
  original_size ← read_ulong;
  reserved ← read_ulong;
  timestamp ← read_ulong;
  data_size ← read_ulong;
  ret (init filename packing_method original_size reserved timestamp data_size).

Definition set_data_offset (e : t) (off : Z) : t :=
  mk (filename e) (packing_method e) (original_size e) (reserved e)
     (timestamp e) (data_size e) off.

End PBOHeaderEntry.

Module PBOHeaderExtension.

Record t := mk {
  strings : list pystr;
  pbo_header_entry : PBOHeaderEntry.t
}.

Definition is_empty_str (s : pystr) : bool :=
  match s with
  | PyStr [] => true
  | _ => false
  end.

(** [while s != '': strings.append(s); s = read_asciiz(f)] *)
Fixpoint while_loop (fuel : nat) (strings : list pystr) (s : pystr) : io (list pystr) :=
  if is_empty_str s then ret strings
  else
    match fuel with
    | O => fun _ => OutOfFuel
    | S fuel' =>
      s' ← read_asciiz;
      while_loop fuel' (strings ++ [s]) s'
    end.

Definition parse_from_file (pbo_header_entry : PBOHeaderEntry.t) : io t :=
  fun f =>
    (s ← read_asciiz;
     strings ← while_loop (S (length (f_data f))) [] s;
     ret (mk strings pbo_header_entry)) f.

End PBOHeaderExtension.

Module PBOHeader.

Record t := mk {
  header_extension : option PBOHeaderExtension.t;
  pbo_entries : list PBOHeaderEntry.t;
  eoh_boundary : option PBOHeaderEntry.t
}.

(** The [while True] loop of [parse_from_file]; one record per turn. *)
Fixpoint while_loop (fuel : nat) (header_entries : list PBOHeaderEntry.t)
    (header_extension : option PBOHeaderExtension.t) (first_entry : bool) : io t :=
  match fuel with
  | O => fun _ => OutOfFuel
  | S fuel' =>
    pbo_header_entry ← PBOHeaderEntry.parse_from_file;
    if negb (PBOHeaderEntry.is_boundary pbo_header_entry) then
      while_loop fuel' (header_entries ++ [pbo_header_entry]) header_extension false
    else if first_entry then
      ext ← PBOHeaderExtension.parse_from_file pbo_header_entry;
      while_loop fuel' header_entries (Some ext) false
    else
      ret (mk header_extension header_entries (Some pbo_header_entry))
  end.

Definition parse_from_file : io t :=
  fun f => while_loop (S (length (f_data f))) [] None true f.

End PBOHeader.

(** ** The host: [os.path] (POSIX flavour) and a file tree

    Paths are resolved lexically, the way [os.path.normpath] does: empty
    and [.] components vanish, [..] cancels the component before it.  A
    resolved path is its list of components; an absolute one starts with
    the component [/].  The tree has no symbolic links.  Besides the
    tree, the world keeps the log of the files written so far.

    The host follows a path step by step instead, and refuses some
    paths this resolution accepts: a [..] that comes after a missing
    name or a regular file, a trailing separator on a file, a name
    beyond the length the host allows.  Whatever the host accepts
    resolves here to the same place, so an operation that succeeds on
    the host succeeds here with the same effect.  The properties below
    are therefore stated for a call that has answered, or for paths
    without a [..] component, where they depend on it. *)

Module os.

Definition sep : ascii := "/"%char.

Definition startswith_sep (p : str) : bool :=
  match p with
  | c :: _ => bool_decide (c = sep)
  | [] => false
  end.

Definition endswith_sep (p : str) : bool :=
  match last p with
  | Some c => bool_decide (c = sep)
  | None => false
  end.

(** [posixpath.join(a, b)] *)
Definition path_join (a b : str) : str :=
  if startswith_sep b then b
  else if bool_decide (a = []) || endswith_sep a then a ++ b
  else a ++ [sep] ++ b.

Fixpoint drop_while {A} (p : A -> bool) (l : list A) : list A :=
  match l with
  | [] => []
  | x :: l' => if p x then drop_while p l' else l
  end.

Definition is_sep (c : ascii) : bool := bool_decide (c = sep).

(** [posixpath.dirname(p)]: the text up to the last separator, with
    trailing separators stripped unless it consists of separators only. *)
Definition path_dirname (p : str) : str :=
  let head := rev (drop_while (fun c => negb (is_sep c)) (rev p)) in
  if forallb is_sep head then head
  else rev (drop_while is_sep (rev head)).

(** [p.split('/')] *)
Fixpoint split_sep (p : str) : list str :=
  match p with
  | [] => [[]]
  | c :: p' =>
    if is_sep c then [] :: split_sep p'
    else
      match split_sep p' with
      | h :: t => (c :: h) :: t
      | [] => [[c]]
      end
  end.

Definition root : str := [sep].
Definition dotdot : str := lit "..".
Definition dot : str := lit ".".

(** One component pushed on the (reversed) stack of resolved components. *)
Definition push (stack : list str) (c : str) : list str :=
  if bool_decide (c = []) || bool_decide (c = dot) then stack
  else if bool_decide (c = dotdot) then
    match stack with
    | [] => [dotdot]
    | top :: below =>
      if bool_decide (top = dotdot) then dotdot :: stack
      else if bool_decide (top = root) then stack
      else below
    end
  else c :: stack.

Definition stack_of (p : str) : list str :=
  fold_left push (split_sep p) (if startswith_sep p then [root] else []).

Definition resolve (p : str) : list str := rev (stack_of p).

Inductive node :=
| Dir
| File (content : list byte).

Record world := mk_world {
  tree : gmap (list str) node;
  written : list (list str * list byte)
}.

(** The working directory, its ancestors and [/] always exist. *)
Definition is_anchor (p : list str) : bool :=
  forallb (fun c => bool_decide (c = dotdot) || bool_decide (c = root)) p.

Definition isdir (w : world) (p : list str) : bool :=
  is_anchor p ||
  match tree w !! p with
  | Some Dir => true
  | _ => false
  end.

(** Directories are created outermost first; those made before a
    failure stay. *)
Fixpoint mkdir_chain (prefixes : list (list str)) (w : world) : outcome unit * world :=
  match prefixes with
  | [] => (Returned tt, w)
  | q :: rest =>
    if is_anchor q then mkdir_chain rest w
    else
      match tree w !! q with
      | Some Dir => mkdir_chain rest w
      | Some (File _) => (Raised OSError, w)
      | None => mkdir_chain rest (mk_world (<[q := Dir]> (tree w)) (written w))
      end
  end.

Definition prefixes_of (p : list str) : list (list str) :=
  map (fun n => take n p) (seq 1 (length p)).

(** [os.makedirs(name, exist_ok=True)] *)
Definition makedirs (name : str) (w : world) : outcome unit * world :=
  if bool_decide (name = []) then (Raised OSError, w)
  else mkdir_chain (prefixes_of (resolve name)) w.

(** [with open(path, 'wb') as out_f: out_f.write(data)] *)
Definition write_file (path : str) (data : list byte) (w : world) : outcome world :=
  let p := resolve path in
  if isdir w p then Raised OSError
  else if negb (isdir w (removelast p)) then Raised OSError
  else Returned (mk_world (<[p := File data]> (tree w)) (written w ++ [(p, data)])).

(** [open(path, 'rb')] followed by reads of the content *)
Definition open_rb (path : str) (w : world) : outcome (list byte) :=
  match tree w !! resolve path with
  | Some (File content) => Returned content
  | _ => Raised OSError
  end.

(** A name a directory can list: not empty, neither [.] nor [..], and
    without separator. *)
Definition is_name (name : str) : bool :=
  negb (bool_decide (name = [])) && negb (bool_decide (name = dot))
  && negb (bool_decide (name = dotdot)) && forallb (fun c => negb (is_sep c)) name.

(** The entry of the directory [p] that a node of the tree is, if it is
    one. *)
Definition entry_at (p : list str) (x : list str * node) : option (str * node) :=
  match last (fst x) with
  | Some name =>
    if bool_decide (removelast (fst x) = p) && is_name name then Some (name, snd x)
    else None
  | None => None
  end.

Definition children (w : world) (p : list str) : list (str * node) :=
  omap (entry_at p) (map_to_list (tree w)).

(** The order in which the host lists a directory is not specified: a
    [listing] stands for it, and the properties hold for every one that
    only permutes the entries. *)
Definition listing := list (str * node) -> list (str * node).

(** [os.scandir(top)] *)
Definition scandir (order : listing) (w : world) (top : str) : outcome (list (str * node)) :=
  if bool_decide (top = []) then Raised OSError
  else if isdir w (resolve top) then Returned (order (children w (resolve top)))
  else Raised OSError.

Definition is_dir (x : str * node) : bool :=
  match snd x with
  | Dir => true
  | File _ => false
  end.

Definition subdirs (entries : list (str * node)) : list str :=
  map fst (filter (fun x => is_dir x = true) entries).

Definition nondirs (entries : list (str * node)) : list str :=
  map fst (filter (fun x => is_dir x = false) entries).

(** What [os.walk] yields at each step: [(root, dirs, files)]. *)
Definition step := (str * list str * list str)%type.

(** The walks of the subdirectories, one after the other. *)
Fixpoint walk_each (walk : str -> outcome (list step)) (tops : list str)
    : outcome (list step) :=
  match tops with
  | [] => Returned []
  | top :: rest =>
    match walk top with
    | Returned here =>
      match walk_each walk rest with
      | Returned there => Returned (here ++ there)
      | other => other
      end
    | other => other
    end
  end.

(** [os.walk(top)], top-down, on a tree that does not change meanwhile:
    a directory that cannot be listed is passed over in silence
    ([onerror] is [None]). *)
Fixpoint walk_from (order : listing) (fuel : nat) (w : world) (top : str)
    : outcome (list step) :=
  match fuel with
  | O => OutOfFuel
  | S fuel' =>
    match scandir order w top with
    | Returned entries =>
      let dirs := subdirs entries in
      match walk_each (walk_from order fuel' w) (map (path_join top) dirs) with
      | Returned below => Returned ((top, dirs, nondirs entries) :: below)
      | other => other
      end
    | _ => Returned []
    end
  end.

(** The longest path of the tree bounds the depth of a walk. *)
Definition depth (w : world) : nat :=
  list_max (map (fun x => length (fst x)) (map_to_list (tree w))).

Definition walk (order : listing) (w : world) (top : str) : outcome (list step) :=
  walk_from order (S (depth w)) w top.

(** A path without a [..] component.  On such a path, resolving
    lexically and following the path on the host come to the same
    place: the two differ when [..] comes after a name that is missing
    or is a regular file. *)
Definition no_dotdot (p : str) : Prop := dotdot ∉ split_sep p.

End os.

(** [str.replace(old, new)] for one-character arguments *)
Definition str_replace (old new : ascii) (s : str) : str :=
  map (fun c => if bool_decide (c = old) then new else c) s.

Definition backslash : ascii := "\"%char.

(** [str.replace(old, '')] *)
Definition str_remove (old : ascii) (s : str) : str :=
  filter (fun c => c ≠ old) s.

(** [str.lower()] on the ASCII range. *)
Definition lower_char (c : ascii) : ascii :=
  let n := nat_of_ascii c in
  if (65 <=? n)%nat && (n <=? 90)%nat then ascii_of_nat (n + 32) else c.

Definition lower (s : str) : str := map lower_char s.

(** The texts whose code points are all below 128.  On them
    [str.lower], the character classes and the case folding of [re],
    and slicing by position are what this development takes them to
    be; on other texts Python follows the Unicode tables. *)
Definition is_ascii (c : ascii) : bool := (nat_of_ascii c <? 128)%nat.

Definition ascii_text (s : str) : Prop := forallb is_ascii s = true.

Definition ascii_texts (l : list str) : Prop := forallb (forallb is_ascii) l = true.

Fixpoint is_prefix (a b : str) : bool :=
  match a, b with
  | [], _ => true
  | x :: a', y :: b' => bool_decide (x = y) && is_prefix a' b'
  | _ :: _, [] => false
  end.

(** [a in b] for strings *)
Fixpoint contains (a b : str) : bool :=
  is_prefix a b ||
  match b with
  | [] => false
  | _ :: b' => contains a b'
  end.

(** [s[a:b]] for non-negative bounds *)
Definition slice (a b : nat) (s : str) : str := take (b - a) (drop a s).

(** [s[-n:]] *)
Definition last_n (n : nat) (s : str) : str := drop (length s - n) s.

(** [PurePosixPath(p).name]: the last component, [.] and empty
    components set aside. *)
Definition path_name (p : str) : str :=
  default [] (last (filter (fun c => c ≠ [] ∧ c ≠ os.dot) (os.split_sep p))).

Fixpoint rfind_from (c : ascii) (s : str) (i : nat) (found : option nat) : option nat :=
  match s with
  | [] => found
  | x :: s' => rfind_from c s' (S i) (if bool_decide (x = c) then Some i else found)
  end.

(** [PurePath.stem]: the name without its last suffix; a dot in first
    or last position starts no suffix. *)
Definition path_stem (p : str) : str :=
  let name := path_name p in
  match rfind_from "."%char name 0 None with
  | Some i => if (0 <? i)%nat && (i <? length name - 1)%nat then take i name else name
  | None => name
  end.

(** [s.endswith(suffix)] *)
Definition endswith (s suffix : str) : bool := is_prefix (rev suffix) (rev s).

(** The loops [for root, dirs, files in os.walk(...): for file in
    files: if keep(file): found.append(os.path.join(root, file))]. *)
Definition collect_files (keep : str -> bool) (root : str) (files found : list str)
    : list str :=
  fold_left (fun found file => if keep file then found ++ [os.path_join root file] else found)
            files found.

Definition collect (keep : str -> bool) (steps : list os.step) : list str :=
  fold_left (fun found s => collect_files keep (fst (fst s)) (snd s) found) steps [].

Module PBOParser.

Record t := mk {
  header : option PBOHeader.t;
  entries : list PBOHeaderEntry.t
}.

Definition init : t := mk None [].

(** The offset loop of [parse_pbo]. *)
Fixpoint assign_offsets (es : list PBOHeaderEntry.t) (current_pos : Z)
    : list PBOHeaderEntry.t :=
  match es with
  | [] => []
  | entry :: rest =>
    if negb (PBOHeaderEntry.is_boundary entry) then
      PBOHeaderEntry.set_data_offset entry current_pos
        :: assign_offsets rest (current_pos + PBOHeaderEntry.data_size entry)
    else entry :: assign_offsets rest current_pos
  end.

Definition not_boundary (e : PBOHeaderEntry.t) : Prop :=
  PBOHeaderEntry.is_boundary e = false.

(** The sum of [data_size] over a run of entries. *)
Definition total_size (es : list PBOHeaderEntry.t) : Z :=
  fold_right (fun e acc => PBOHeaderEntry.data_size e + acc) 0 es.

(** [parse_pbo]: every exception ends in [return False], and the fields
    of [self] are assigned only once the header is complete. *)
Definition parse_pbo (self : t) (w : os.world) (pbo_path : str) : outcome (bool * t) :=
  match os.open_rb pbo_path w with
  | Returned data =>
    match PBOHeader.parse_from_file {| f_data := data; f_pos := 0 |} with
    | Returned (hdr, f) =>
      let current_pos := Z.of_nat (f_pos f) in
      let es := assign_offsets (PBOHeader.pbo_entries hdr) current_pos in
      let hdr' := PBOHeader.mk (PBOHeader.header_extension hdr) es
                               (PBOHeader.eoh_boundary hdr) in
      Returned (true,
                mk (Some hdr')
                   (filter (fun e => negb (PBOHeaderEntry.is_boundary e)) es))
    | Raised _ => Returned (false, self)
    | OutOfFuel => OutOfFuel
    end
  | Raised _ => Returned (false, self)
  | OutOfFuel => OutOfFuel
  end.

(** Truth value of [entry.filename]. *)
Definition truthy (s : pystr) : bool :=
  match s with
  | PyStr [] | PyBytes [] => false
  | _ => true
  end.

(** [entry.filename.replace('\\', os.sep)]: a [bytes] name given [str]
    arguments raises [TypeError]. *)
Definition replace_sep (s : pystr) : outcome str :=
  match s with
  | PyStr s => Returned (str_replace backslash os.sep s)
  | PyBytes _ => Raised TypeError
  end.

(** One turn of the [for entry in self.entries] loop; the answer is
    [None] when an exception left the loop.  The reader hands out the
    content the archive had when it was opened: an archive that is one
    of its own destinations is outside the embedding. *)
Definition extract_entry (output_dir : str) (entry : PBOHeaderEntry.t)
    (f : pyfile) (w : os.world) : option pyfile * os.world :=
  if truthy (PBOHeaderEntry.filename entry) && (0 <? PBOHeaderEntry.data_size entry) then
    match replace_sep (PBOHeaderEntry.filename entry) with
    | Returned name =>
      let output_path := os.path_join output_dir name in
      match os.makedirs (os.path_dirname output_path) w with
      | (Returned _, w1) =>
        match (_ ← f_seek (Z.to_nat (PBOHeaderEntry.data_offset entry));
               f_read (Z.to_nat (PBOHeaderEntry.data_size entry))) f with
        | Returned (data, f') =>
          match os.write_file output_path data w1 with
          | Returned w2 => (Some f', w2)
          | _ => (None, w1)
          end
        | _ => (None, w1)
        end
      | (_, w1) => (None, w1)
      end
    | _ => (None, w)
    end
  else (Some f, w).

Fixpoint extract_loop (output_dir : str) (es : list PBOHeaderEntry.t)
    (f : pyfile) (w : os.world) : bool * os.world :=
  match es with
  | [] => (true, w)
  | entry :: rest =>
    match extract_entry output_dir entry f w with
    | (Some f', w') => extract_loop output_dir rest f' w'
    | (None, w') => (false, w')
    end
  end.

Definition extract_to_directory (self : t) (w : os.world) (pbo_path output_dir : str)
    : outcome (bool * t * os.world) :=
  match parse_pbo self w pbo_path with
  | Returned (false, self') => Returned (false, self', w)
  | Returned (true, self') =>
    match os.makedirs output_dir w with
    | (Returned _, w1) =>
      match os.open_rb pbo_path w1 with
      | Returned data =>
        let '(ok, w2) := extract_loop output_dir (entries self')
                           {| f_data := data; f_pos := 0 |} w1 in
        Returned (ok, self', w2)
      | _ => Returned (false, self', w1)
      end
    | (_, w1) => Returned (false, self', w1)
    end
  | Raised e => Raised e
  | OutOfFuel => OutOfFuel
  end.

(** The comprehension of [find_files_by_extension]: [bytes.endswith]
    given a [str] raises [TypeError], and the exception leaves the
    comprehension. *)
Fixpoint find_files_loop (extension : str) (es : list PBOHeaderEntry.t)
    (found : list str) : outcome (list str) :=
  match es with
  | [] => Returned found
  | entry :: rest =>
    match PBOHeaderEntry.filename entry with
    | PyStr s =>
      find_files_loop extension rest
        (if endswith (lower s) (lower extension) then found ++ [s] else found)
    | PyBytes _ => Raised TypeError
    end
  end.

Definition find_files_by_extension (self : t) (extension : str) : outcome (list str) :=
  find_files_loop extension (entries self) [].

(** [entry.filename == filename] for a [str] argument. *)
Definition named (filename : str) (entry : PBOHeaderEntry.t) : bool :=
  match PBOHeaderEntry.filename entry with
  | PyStr s => bool_decide (s = filename)
  | PyBytes _ => false
  end.

(** The [for entry in self.entries] loop of [extract_file]: the first
    entry that bears the name decides the answer.  The slice is read
    before the output is opened, so the output may be the archive
    itself. *)
Fixpoint extract_file_loop (es : list PBOHeaderEntry.t) (w : os.world)
    (pbo_path filename output_path : str) : bool * os.world :=
  match es with
  | [] => (false, w)
  | entry :: rest =>
    if named filename entry then
      match os.open_rb pbo_path w with
      | Returned content =>
        match (_ ← f_seek (Z.to_nat (PBOHeaderEntry.data_offset entry));
               f_read (Z.to_nat (PBOHeaderEntry.data_size entry)))
                {| f_data := content; f_pos := 0 |} with
        | Returned (data, _) =>
          match os.write_file output_path data w with
          | Returned w' => (true, w')
          | _ => (false, w)
          end
        | _ => (false, w)
        end
      | _ => (false, w)
      end
    else extract_file_loop rest w pbo_path filename output_path
  end.

Definition extract_file (self : t) (w : os.world) (pbo_path filename output_path : str)
    : outcome (bool * t * os.world) :=
  match parse_pbo self w pbo_path with
  | Returned (false, self') => Returned (false, self', w)
  | Returned (true, self') =>
    let '(ok, w') := extract_file_loop (entries self') w pbo_path filename output_path in
    Returned (ok, self', w')
  | Raised e => Raised e
  | OutOfFuel => OutOfFuel
  end.

End PBOParser.

(** ** p3d_parser.py *)

(** [try: body except Exception: handler] *)
Definition try_except {A} (body : outcome A) (handler : exn -> outcome A) : outcome A :=
  match body with
  | Raised e => handler e
  | other => other
  end.

(** A Python float read with [struct.unpack('<f', ...)]: the exact value
    of an IEEE-754 binary32 word, [(-1)^neg * m * 2^e] when finite. *)
Inductive pyfloat :=
| FNan
| FInf (neg : bool)
| FFin (neg : bool) (m : Z) (e : Z).

Definition float_of_bits (w : Z) : pyfloat :=
  let neg := Z.testbit w 31 in
  let E := Z.land (Z.shiftr w 23) 255 in
  let M := Z.land w (2 ^ 23 - 1) in
  if E =? 255 then (if M =? 0 then FInf neg else FNan)
  else if E =? 0 then FFin neg M (-149)
  else FFin neg (M + 2 ^ 23) (E - 150).

(** [abs(x) < n] and [abs(x) > n] for a positive integer [n]; both are
    false on NaN. *)
Definition abs_lt (x : pyfloat) (n : Z) : bool :=
  match x with
  | FNan | FInf _ => false
  | FFin _ m e => if 0 <=? e then m * 2 ^ e <? n else m <? n * 2 ^ (- e)
  end.

Definition abs_gt (x : pyfloat) (n : Z) : bool :=
  match x with
  | FNan => false
  | FInf _ => true
  | FFin _ m e => if 0 <=? e then n <? m * 2 ^ e else n * 2 ^ (- e) <? m
  end.

Definition unpack_f32 (data : list byte) : outcome pyfloat :=
  if decide (length data = 4%nat) then Returned (float_of_bits (le_uint data))
  else Raised StructError.

Definition read_float : io pyfloat := data ← f_read 4; lift (unpack_f32 data).
Definition read_uint : io Z := data ← f_read 4; lift (unpack_u32 data).
Definition read_ushort : io Z := data ← f_read 2; lift (unpack_u16 data).

Definition vertex := (pyfloat * pyfloat * pyfloat)%type.
Definition face := (Z * Z * Z)%type.

Definition MLOD : list byte := ["M"; "L"; "O"; "D"]%byte.
Definition ODOL : list byte := ["O"; "D"; "O"; "L"]%byte.

Inductive format := FmtMLOD | FmtODOL.

Module P3DModel.

Record t := mk {
  path : str;
  vertices : list vertex;
  faces : list face;
  format_type : option format;    (* the empty string until a parser sets it *)
  is_valid : bool;
  geometry_loaded : bool
}.

Definition get_vertex_count (m : t) : nat := length (vertices m).
Definition get_face_count (m : t) : nat := length (faces m).

End P3DModel.

Module P3DParser.

Definition within (v : vertex) : bool :=
  let '(x, y, z) := v in abs_lt x 1000 && abs_lt y 1000 && abs_lt z 1000.

Definition read_vertex : io vertex :=
  x ← read_float; y ← read_float; z ← read_float; ret (x, y, z).

(** [for i in range(n)] over the vertex candidates, inside
    [try ... except struct.error: pass]. *)
Fixpoint vertex_loop (n : nat) (vertices : list vertex) (f : pyfile) : list vertex :=
  match n with
  | O => vertices
  | S n' =>
    match read_vertex f with
    | Returned (v, f') =>
      if within v then vertex_loop n' (vertices ++ [v]) f' else vertices
    | _ => vertices
    end
  end.

Definition read_face : io face :=
  idx1 ← read_ushort; idx2 ← read_ushort; idx3 ← read_ushort; ret (idx1, idx2, idx3).

Definition in_range (nv : nat) (t : face) : bool :=
  let '(idx1, idx2, idx3) := t in
  (idx1 <? Z.of_nat nv) && (idx2 <? Z.of_nat nv) && (idx3 <? Z.of_nat nv).

(** [for i in range(face_count)]; both the failed read and the
    out-of-range triple leave the loop. *)
Fixpoint face_loop (n : nat) (nv : nat) (faces : list face) (f : pyfile) : list face :=
  match n with
  | O => faces
  | S n' =>
    match read_face f with
    | Returned (t, f') =>
      if in_range nv t then face_loop n' nv (faces ++ [t]) f' else faces
    | _ => faces
    end
  end.

Definition seek_to (p : nat) (data : list byte) : pyfile := {| f_data := data; f_pos := p |}.

Definition finish (path : str) (fmt : format) (vs : list vertex) (fs : list face) : P3DModel.t :=
  let valid := bool_decide (0 < length vs)%nat in
  P3DModel.mk path vs fs (Some fmt) valid valid.

Definition parse_mlod_geometry (w : os.world) (file_path : str) : outcome (option P3DModel.t) :=
  try_except
    (match os.open_rb file_path w with
     | Returned data =>
       match read_uint (seek_to 8 data) with
       | Returned (lod_count, _) =>
         let vertices :=
           if 0 <? lod_count then vertex_loop (Nat.min 100 1000) [] (seek_to 100 data)
           else [] in
         let face_count := Nat.min (length vertices / 3) 200 in
         let faces := face_loop face_count (length vertices) [] (seek_to 300 data) in
         Returned (Some (finish file_path FmtMLOD vertices faces))
       | Raised e => Raised e
       | OutOfFuel => OutOfFuel
       end
     | Raised e => Raised e
     | OutOfFuel => OutOfFuel
     end)
    (fun _ => Returned None).

Definition parse_odol_geometry (w : os.world) (file_path : str) : outcome (option P3DModel.t) :=
  try_except
    (match os.open_rb file_path w with
     | Returned data =>
       let vertices := vertex_loop (Nat.min 50 500) [] (seek_to 200 data) in
       let face_count := Nat.min (length vertices / 3) 150 in
       let faces := face_loop face_count (length vertices) [] (seek_to 400 data) in
       Returned (Some (finish file_path FmtODOL vertices faces))
     | Raised e => Raised e
     | OutOfFuel => OutOfFuel
     end)
    (fun _ => Returned None).

Definition magic_of (header : list byte) : option format :=
  if decide (header = MLOD) then Some FmtMLOD
  else if decide (header = ODOL) then Some FmtODOL
  else None.

Definition is_valid_p3d (w : os.world) (file_path : str) : outcome bool :=
  try_except
    (match os.open_rb file_path w with
     | Returned data =>
       match f_read 4 (seek_to 0 data) with
       | Returned (header, _) => Returned (bool_decide (is_Some (magic_of header)))
       | Raised e => Raised e
       | OutOfFuel => OutOfFuel
       end
     | Raised e => Raised e
     | OutOfFuel => OutOfFuel
     end)
    (fun _ => Returned false).

Record header_info := mk_info {
  info_format : format;
  info_version : Z;
  info_file_size : nat
}.

Definition parse_p3d_header (w : os.world) (file_path : str) : outcome (option header_info) :=
  try_except
    (match os.open_rb file_path w with
     | Returned data =>
       match (header ← f_read 4;
              match magic_of header with
              | None => ret None
              | Some format_type =>
                version ← read_uint;
                ret (Some (mk_info format_type version (length data)))
              end) (seek_to 0 data) with
       | Returned (r, _) => Returned r
       | Raised e => Raised e
       | OutOfFuel => OutOfFuel
       end
     | Raised e => Raised e
     | OutOfFuel => OutOfFuel
     end)
    (fun _ => Returned None).

(** Which geometry sampler a call entered. *)
Inductive sampler_call :=
| CallMLOD (file_path : str)
| CallODOL (file_path : str).

Definition then_ {A B} (o : outcome A) (k : A -> outcome B) : outcome B :=
  match o with
  | Returned a => k a
  | Raised e => Raised e
  | OutOfFuel => OutOfFuel
  end.

Definition set_format (fmt : format) (m : P3DModel.t) : P3DModel.t :=
  P3DModel.mk (P3DModel.path m) (P3DModel.vertices m) (P3DModel.faces m)
              (Some fmt) (P3DModel.is_valid m) (P3DModel.geometry_loaded m).

(** [get_basic_model_info]; the second component lists the sampler
    calls made on the way. *)
Definition get_basic_model_info (w : os.world) (p3d_path : str)
    : outcome (option P3DModel.t) * list sampler_call :=
  match is_valid_p3d w p3d_path with
  | Returned false => (Returned None, [])
  | Returned true =>
    match parse_p3d_header w p3d_path with
    | Returned None => (Returned None, [])
    | Returned (Some info) =>
      match info_format info with
      | FmtMLOD =>
        (then_ (parse_mlod_geometry w p3d_path)
           (fun model => Returned (set_format (info_format info) <$> model)),
         [CallMLOD p3d_path])
      | FmtODOL =>
        (then_ (parse_odol_geometry w p3d_path)
           (fun model => Returned (set_format (info_format info) <$> model)),
         [CallODOL p3d_path])
      end
    | Raised e => (Raised e, [])
    | OutOfFuel => (OutOfFuel, [])
    end
  | Raised e => (Raised e, [])
  | OutOfFuel => (OutOfFuel, [])
  end.

(** The first loop of [map_class_to_p3d]. *)
Fixpoint exact_loop (class_lower : str) (p3d_files : list str) : option str :=
  match p3d_files with
  | [] => None
  | p3d_path :: rest =>
    let filename := lower (path_stem p3d_path) in
    if bool_decide (class_lower = filename) then Some p3d_path
    else exact_loop class_lower rest
  end.

Definition containment (class_lower filename : str) : bool :=
  let clean_class := str_remove "-"%char (str_remove "_"%char class_lower) in
  let clean_filename := str_remove "-"%char (str_remove "_"%char filename) in
  contains clean_class clean_filename || contains clean_filename clean_class.

Definition affix (class_lower filename : str) : bool :=
  existsb (fun pattern => contains pattern filename)
          (filter (fun pattern => (3 <= length pattern)%nat)
                  [take 4 class_lower; last_n 4 class_lower]).

(** The second loop: both tests on one candidate before the next. *)
Fixpoint fuzzy_loop (class_lower : str) (p3d_files : list str) : option str :=
  match p3d_files with
  | [] => None
  | p3d_path :: rest =>
    let filename := lower (path_stem p3d_path) in
    if containment class_lower filename then Some p3d_path
    else if affix class_lower filename then Some p3d_path
    else fuzzy_loop class_lower rest
  end.

Definition map_class_to_p3d (class_name : str) (p3d_files : list str) : option str :=
  let class_lower := lower class_name in
  match exact_loop class_lower p3d_files with
  | Some p3d_path => Some p3d_path
  | None => fuzzy_loop class_lower p3d_files
  end.

Definition is_p3d (file : str) : bool := endswith (lower file) (lit ".p3d").

Definition find_p3d_files (order : os.listing) (w : os.world) (directory : str)
    : outcome (list str) :=
  then_ (os.walk order w directory) (fun steps => Returned (collect is_p3d steps)).

(** [if p3d_path:] is false on [None] and on the empty string. *)
Definition found_path (p3d_path : option str) : bool :=
  match p3d_path with
  | Some (_ :: _) => true
  | _ => false
  end.

Definition create_class_to_p3d_mapping (order : os.listing) (w : os.world)
    (class_names : list str) (p3d_directory : str) : outcome (gmap str str) :=
  then_ (find_p3d_files order w p3d_directory) (fun p3d_files =>
    Returned
      (fold_left
         (fun mapping class_name =>
            let p3d_path := map_class_to_p3d class_name p3d_files in
            if found_path p3d_path then <[class_name := default [] p3d_path]> mapping
            else mapping)
         class_names ∅)).

End P3DParser.

(** ** config_parser.py *)

(** The fragment of [re] the two patterns need: a sequence of
    one-character tests, greedy [*] and [+] over such tests, and one
    capture group.  Matching backtracks as [re] does: a greedy
    repetition takes as much as it can and gives characters back until
    the rest of the pattern matches. *)
Module re.

Inductive atom :=
| One (p : ascii -> bool)
| Star (p : ascii -> bool)
| Plus (p : ascii -> bool)
| GroupStart
| GroupEnd.

(** End position, start and end of group 1. *)
Definition span := (nat * nat * nat)%type.

(** A greedy repetition of the test [p] followed by the rest of the
    pattern [k]: take one more character when possible, and fall back
    on the rest when the longer attempt fails. *)
Fixpoint star_loop (k : str -> nat -> option span) (p : ascii -> bool)
    (s : str) (pos : nat) : option span :=
  match s with
  | c :: s' =>
    if p c then
      match star_loop k p s' (S pos) with
      | Some r => Some r
      | None => k s pos
      end
    else k s pos
  | [] => k [] pos
  end.

(** The pattern matched against [s], which starts at position [pos] of
    the text. *)
Fixpoint match_at (pat : list atom) (s : str) (pos : nat) : option span :=
  match pat with
  | [] => Some (pos, O, O)
  | One p :: rest =>
    match s with
    | c :: s' => if p c then match_at rest s' (S pos) else None
    | [] => None
    end
  | Star p :: rest => star_loop (match_at rest) p s pos
  | Plus p :: rest =>
    match s with
    | c :: s' => if p c then star_loop (match_at rest) p s' (S pos) else None
    | [] => None
    end
  | GroupStart :: rest =>
    match match_at rest s pos with
    | Some (e, _, ge) => Some (e, pos, ge)
    | None => None
    end
  | GroupEnd :: rest =>
    match match_at rest s pos with
    | Some (e, gs, _) => Some (e, gs, pos)
    | None => None
    end
  end.

(** What a pattern accepts, the order of the attempts set aside: the
    words that some choice of repetition counts matches in full. *)
Inductive accepts : list atom -> str -> Prop :=
| accepts_nil : accepts [] []
| accepts_one p rest c w :
    p c = true -> accepts rest w -> accepts (One p :: rest) (c :: w)
| accepts_star_done p rest w :
    accepts rest w -> accepts (Star p :: rest) w
| accepts_star_more p rest c w :
    p c = true -> accepts (Star p :: rest) w -> accepts (Star p :: rest) (c :: w)
| accepts_plus p rest c w :
    p c = true -> accepts (Star p :: rest) w -> accepts (Plus p :: rest) (c :: w)
| accepts_group_start rest w :
    accepts rest w -> accepts (GroupStart :: rest) w
| accepts_group_end rest w :
    accepts rest w -> accepts (GroupEnd :: rest) w.

Definition is_marker (a : atom) : bool :=
  match a with
  | GroupStart | GroupEnd => true
  | _ => false
  end.

(** A pattern without group markers. *)
Definition plain (pat : list atom) : Prop := Forall (fun a => is_marker a = false) pat.

(** A pattern with one group: what lies before the group, in it and
    after it. *)
Definition grouped (pre mid post : list atom) : list atom :=
  pre ++ GroupStart :: mid ++ GroupEnd :: post.

Record match_ := mk_match {
  m_start : nat;
  m_end : nat;
  group1 : str
}.

(** [re.finditer]: leftmost matches, the search resuming where the
    previous match ended.  [skip] counts the characters still covered by
    the last match. *)
Fixpoint finditer_from (pat : list atom) (s : str) (pos skip : nat) : list match_ :=
  match s with
  | [] => []
  | _ :: s' =>
    match skip with
    | S k => finditer_from pat s' (S pos) k
    | O =>
      match match_at pat s pos with
      | Some (e, gs, ge) =>
        mk_match pos e (take (ge - gs) (drop (gs - pos) s))
          :: finditer_from pat s' (S pos) (e - pos - 1)
      | None => finditer_from pat s' (S pos) O
      end
    end
  end.

Definition finditer (pat : list atom) (text : str) : list match_ :=
  finditer_from pat text O O.

(** A literal under [re.IGNORECASE]. *)
Definition ci (c : ascii) : atom := One (fun x => bool_decide (lower_char x = lower_char c)).

Definition literal (s : string) : list atom := map ci (lit s).

Definition char (c : ascii) : atom := One (fun x => bool_decide (x = c)).

(** [\s] on code points below 128: tab to carriage return, the four
    information separators, and the space. *)
Definition is_space (c : ascii) : bool :=
  let n := nat_of_ascii c in
  ((9 <=? n) && (n <=? 13) || (28 <=? n) && (n <=? 32))%nat.

(** [\w] on code points below 128. *)
Definition is_word (c : ascii) : bool :=
  let n := nat_of_ascii c in
  ((48 <=? n) && (n <=? 57) || (65 <=? n) && (n <=? 90)
   || (97 <=? n) && (n <=? 122) || (n =? 95))%nat.

Definition is_quote (c : ascii) : bool :=
  bool_decide (c = ascii_of_nat 34) || bool_decide (c = ascii_of_nat 39).

End re.

(** The patterns of [parse_config_cpp] repeat a group and capture
    twice: a matcher for sequences, greedy repetition of any
    sub-pattern and numbered groups.  It explores the alternatives in
    the order [re] does: a repetition first tries one more turn of its
    body, and falls back on what follows the repetition when that
    fails. *)
Module sre.

Inductive regex :=
| Eps
| Chr (p : ascii -> bool)
| Seq (a b : regex)
| Star (r : regex)
| Group (n : nat) (r : regex).

(** The spans of the groups closed so far, the latest first. *)
Definition spans := list (nat * (nat * nat)).

Definition span_of (n : nat) (caps : spans) : option (nat * nat) :=
  snd <$> find (fun x => bool_decide (fst x = n)) caps.

(** What is left to match: the rest of the text, its position, the
    spans so far. *)
Definition cont := str -> nat -> spans -> option (nat * spans).

(** At most [n] more turns of [body], then [k].  A turn that consumes
    nothing is not repeated. *)
Fixpoint star_loop (body : cont -> cont) (k : cont) (n : nat) : cont :=
  fun s pos caps =>
    match n with
    | O => k s pos caps
    | S n' =>
      match body (fun s' pos' caps' =>
                    if (pos' =? pos)%nat then None else star_loop body k n' s' pos' caps')
                 s pos caps with
      | Some res => Some res
      | None => k s pos caps
      end
    end.

Fixpoint run (r : regex) (k : cont) : cont :=
  match r with
  | Eps => k
  | Chr p =>
    fun s pos caps =>
      match s with
      | c :: s' => if p c then k s' (S pos) caps else None
      | [] => None
      end
  | Seq a b => run a (run b k)
  | Star r' => fun s pos caps => star_loop (run r') k (length s) s pos caps
  | Group n r' =>
    fun s pos caps =>
      run r' (fun s' pos' caps' => k s' pos' ((n, (pos, pos')) :: caps')) s pos caps
  end.

(** The pattern matched against [s], which starts at position [pos] of
    the text: the end of the match and the spans of its groups. *)
Definition match_at (r : regex) (s : str) (pos : nat) : option (nat * spans) :=
  run r (fun _ e caps => Some (e, caps)) s pos [].

Record match_ := mk_match {
  m_start : nat;
  m_end : nat;
  m_spans : spans
}.

(** [match.group(n)] *)
Definition group (text : str) (m : match_) (n : nat) : str :=
  match span_of n (m_spans m) with
  | Some (b, e) => slice b e text
  | None => []
  end.

(** [re.finditer], as in [re.finditer_from]. *)
Fixpoint finditer_from (r : regex) (s : str) (pos skip : nat) : list match_ :=
  match s with
  | [] => []
  | _ :: s' =>
    match skip with
    | S k => finditer_from r s' (S pos) k
    | O =>
      match match_at r s pos with
      | Some (e, caps) => mk_match pos e caps :: finditer_from r s' (S pos) (e - pos - 1)
      | None => finditer_from r s' (S pos) O
      end
    end
  end.

Definition finditer (r : regex) (text : str) : list match_ := finditer_from r text O O.

(** What a pattern accepts, the order of the attempts set aside. *)
Inductive lang : regex -> str -> Prop :=
| lang_eps : lang Eps []
| lang_chr p c : p c = true -> lang (Chr p) [c]
| lang_seq a b u v : lang a u -> lang b v -> lang (Seq a b) (u ++ v)
| lang_star_nil r : lang (Star r) []
| lang_star_cons r u v : lang r u -> lang (Star r) v -> lang (Star r) (u ++ v)
| lang_group n r w : lang r w -> lang (Group n r) w.

(** The groups of a pattern. *)
Fixpoint groups (r : regex) : list nat :=
  match r with
  | Eps | Chr _ => []
  | Seq a b => groups a ++ groups b
  | Star r' => groups r'
  | Group n r' => n :: groups r'
  end.

Definition seq (rs : list regex) : regex := fold_right Seq Eps rs.

Definition plus (r : regex) : regex := Seq r (Star r).

Definition char (c : ascii) : regex := Chr (fun x => bool_decide (x = c)).

(** A literal under [re.IGNORECASE]. *)
Definition literal (s : string) : regex :=
  seq (map (fun c => Chr (fun x => bool_decide (lower_char x = lower_char c))) (lit s)).

End sre.

Module ConfigParser.

(** The model pattern: the word model, optional blanks, an equals
    sign, optional blanks, a quote of either kind, then group 1 (one or
    more characters that are not quotes, ending in .p3d) and a closing
    quote of either kind; letters match in either case. *)
Definition model_pre : list re.atom :=
  re.literal "model" ++
  [re.Star re.is_space; re.char "="; re.Star re.is_space; re.One re.is_quote].

Definition model_mid : list re.atom :=
  [re.Plus (fun c => negb (re.is_quote c)); re.char "."] ++ re.literal "p3d".

Definition model_post : list re.atom := [re.One re.is_quote].

Definition model_pattern : list re.atom := re.grouped model_pre model_mid model_post.

(** [class\s+(\w+)] *)
Definition class_pre : list re.atom := re.literal "class" ++ [re.Plus re.is_space].

Definition class_mid : list re.atom := [re.Plus re.is_word].

Definition class_pattern : list re.atom := re.grouped class_pre class_mid [].

(** One turn of the loop over the model matches. *)
Definition bind_match (text_data : str) (mappings : gmap str str) (m : re.match_)
    : gmap str str :=
  let model_path := str_replace backslash "/"%char (re.group1 m) in
  let start_pos := Nat.max 0 (re.m_start m - 1000) in
  let preceding_text := slice start_pos (re.m_start m) text_data in
  let class_matches := re.finditer class_pattern preceding_text in
  match last class_matches with
  | Some cm => <[re.group1 cm := model_path]> mappings
  | None => mappings
  end.

(** The body of [parse_config_bin] once the file content is decoded
    (code points below 128). *)
Definition parse_config_bin (text_data : str) : gmap str str :=
  fold_left (bind_match text_data) (re.finditer model_pattern text_data) ∅.

Definition is_config (file : str) : bool :=
  bool_decide (lower file ∈ [lit "config.bin"; lit "config.cpp"]).

Definition find_config_files (order : os.listing) (w : os.world) (directory : str)
    : outcome (list str) :=
  P3DParser.then_ (os.walk order w directory)
    (fun steps => Returned (collect is_config steps)).

(** The first loop of [find_class_for_model]; [mappings.items()] lists
    the dictionary in insertion order. *)
Fixpoint name_loop (model_name : str) (items : list (str * str)) : option str :=
  match items with
  | [] => None
  | (class_name, mapped_model) :: rest =>
    if bool_decide (lower (path_name mapped_model) = model_name) then Some class_name
    else name_loop model_name rest
  end.

(** The second loop. *)
Fixpoint loose_loop (model_name : str) (items : list (str * str)) : option str :=
  match items with
  | [] => None
  | (class_name, mapped_model) :: rest =>
    if contains model_name (lower mapped_model)
       || contains (lower (path_stem mapped_model)) model_name
    then Some class_name
    else loose_loop model_name rest
  end.

Definition find_class_for_model (model_path : str) (mappings : list (str * str))
    : option str :=
  let model_name := lower (path_name model_path) in
  match name_loop model_name mappings with
  | Some class_name => Some class_name
  | None => loose_loop model_name mappings
  end.

Definition not_open (c : ascii) : bool := negb (bool_decide (c = "{"%char)).

Definition no_brace (c : ascii) : bool :=
  negb (bool_decide (c = "{"%char)) && negb (bool_decide (c = "}"%char)).

(** [\{[^{}]*\}[^{}]*]: a brace pair and the text after it. *)
Definition pair_pattern : sre.regex :=
  sre.seq [sre.char "{"; sre.Star (sre.Chr no_brace); sre.char "}";
           sre.Star (sre.Chr no_brace)].

(** A class body: text without braces, with brace pairs one level deep
    in it. *)
Definition body_pattern : sre.regex :=
  sre.Seq (sre.Star (sre.Chr no_brace)) (sre.Star pair_pattern).

(** The class pattern of [parse_config_cpp]: the word class, blanks,
    group 1 (a word), anything but an opening brace, an opening brace,
    group 2 (the body) and a closing brace. *)
Definition cpp_class_pattern : sre.regex :=
  sre.seq [sre.literal "class"; sre.plus (sre.Chr re.is_space);
           sre.Group 1 (sre.plus (sre.Chr re.is_word));
           sre.Star (sre.Chr not_open); sre.char "{";
           sre.Group 2 body_pattern; sre.char "}"].

(** One turn of the loop over the class matches; [re.search] is the
    first match of [re.finditer]. *)
Definition bind_class (content : str) (mappings : gmap str str) (class_match : sre.match_)
    : gmap str str :=
  let class_name := sre.group content class_match 1 in
  let class_body := sre.group content class_match 2 in
  match head (re.finditer model_pattern class_body) with
  | Some model_match =>
    <[class_name := str_replace backslash "/"%char (re.group1 model_match)]> mappings
  | None => mappings
  end.

(** The body of [parse_config_cpp] once the file is read (code points
    below 128). *)
Definition parse_config_cpp (content : str) : gmap str str :=
  fold_left (bind_class content) (sre.finditer cpp_class_pattern content) ∅.

End ConfigParser.

(** ** The archive layout of the specification (section 6) *)

Module Layout.

(** A header record as it lies in the file: the bytes of the name and
    the five 4-byte fields. *)
Record raw := mk_raw {
  r_name : list byte;
  r_packing_method : list byte;
  r_original_size : list byte;
  r_reserved : list byte;
  r_timestamp : list byte;
  r_data_size : list byte
}.

Definition asciiz (s : list byte) : list byte := s ++ [x00].

Definition fields (r : raw) : list byte :=
  r_packing_method r ++ r_original_size r ++ r_reserved r ++ r_timestamp r ++ r_data_size r.

Definition record (r : raw) : list byte := asciiz (r_name r) ++ fields r.

Definition records (rs : list raw) : list byte := concat (map record rs).

Definition strings (ss : list (list byte)) : list byte := concat (map asciiz ss).

Definition no_nul (s : list byte) : Prop := Forall (fun b => b ≠ x00) s.

Record wf_raw (r : raw) : Prop := mk_wf_raw {
  wf_name : no_nul (r_name r);
  wf_pm : length (r_packing_method r) = 4%nat;
  wf_os : length (r_original_size r) = 4%nat;
  wf_rs : length (r_reserved r) = 4%nat;
  wf_ts : length (r_timestamp r) = 4%nat;
  wf_ds : length (r_data_size r) = 4%nat
}.

Definition wf_entry (r : raw) : Prop := wf_raw r ∧ r_name r ≠ [].
Definition wf_boundary (r : raw) : Prop := wf_raw r ∧ r_name r = [].
Definition wf_string (s : list byte) : Prop := no_nul s ∧ s ≠ [].

(** header := boundary, extension strings, empty string, records,
    boundary *)
Definition header (b0 : raw) (exts : list (list byte)) (rs : list raw) (b1 : raw)
    : list byte :=
  record b0 ++ strings exts ++ [x00] ++ records rs ++ record b1.

Record wf_header (b0 : raw) (exts : list (list byte)) (rs : list raw) (b1 : raw)
    : Prop := mk_wf_header {
  wf_first : wf_boundary b0;
  wf_exts : Forall wf_string exts;
  wf_records : Forall wf_entry rs;
  wf_last : wf_boundary b1
}.

(** The entry a record decodes to, before offsets are assigned. *)
Definition entry_of (r : raw) : PBOHeaderEntry.t :=
  PBOHeaderEntry.init (decode_or_raw (r_name r))
    (le_uint (r_packing_method r)) (le_uint (r_original_size r))
    (le_uint (r_reserved r)) (le_uint (r_timestamp r)) (le_uint (r_data_size r)).

(** The part of a header that precedes a record cut short: an optional
    first boundary with its extension, then complete entry records. *)
Definition header_start (ext : option (raw * list (list byte))) (rs : list raw)
    : list byte :=
  match ext with
  | Some (b0, exts) => record b0 ++ strings exts ++ [x00]
  | None => []
  end ++ records rs.

Definition wf_start (ext : option (raw * list (list byte))) (rs : list raw) : Prop :=
  match ext with
  | Some (b0, exts) => wf_boundary b0 ∧ Forall wf_string exts
  | None => True
  end ∧ Forall wf_entry rs.

(** A record cut short by the end of the input: the name lacks its
    terminator, or fewer than the twenty bytes of the five integers
    follow it. *)
Inductive truncated_record : list byte -> Prop :=
| unterminated_name (name : list byte) :
    no_nul name -> truncated_record name
| missing_integers (name ints : list byte) :
    no_nul name -> (length ints < 20)%nat -> truncated_record (asciiz name ++ ints).

(** An archive: the header, then the payloads of its records in table
    order, each as long as its record announces. *)
Definition archive (b0 : raw) (exts : list (list byte)) (rs : list raw) (b1 : raw)
    (payloads : list (list byte)) : list byte :=
  header b0 exts rs b1 ++ concat payloads.

Definition sized (r : raw) (payload : list byte) : Prop :=
  le_uint (r_data_size r) = Z.of_nat (length payload).

(** The text of a record name that decodes. *)
Definition name_text (r : raw) : str := map ascii_of_byte (r_name r).

Definition decodable (r : raw) : Prop := utf8_valid (r_name r) = true.

End Layout.

(** ** What extraction is expected to write *)

Module Unpack.

(** The guard [entry.filename and entry.data_size > 0]. *)
Definition extractable (e : PBOHeaderEntry.t) : bool :=
  PBOParser.truthy (PBOHeaderEntry.filename e) && (0 <? PBOHeaderEntry.data_size e).

Definition stored_text (name : pystr) : str :=
  match name with
  | PyStr s => s
  | PyBytes _ => []
  end.

(** The stored name with its separators normalised. *)
Definition host_name (e : PBOHeaderEntry.t) : str :=
  str_replace backslash os.sep (stored_text (PBOHeaderEntry.filename e)).

Definition destination (output_dir : str) (e : PBOHeaderEntry.t) : list str :=
  os.resolve (os.path_join output_dir (host_name e)).

(** The [data_size] bytes of the stream that start at [data_offset]. *)
Definition payload_slice (data : list byte) (e : PBOHeaderEntry.t) : list byte :=
  take (Z.to_nat (PBOHeaderEntry.data_size e))
       (drop (Z.to_nat (PBOHeaderEntry.data_offset e)) data).

(** The stream really holds those bytes. *)
Definition in_stream (data : list byte) (e : PBOHeaderEntry.t) : Prop :=
  0 <= PBOHeaderEntry.data_offset e /\
  PBOHeaderEntry.data_offset e + PBOHeaderEntry.data_size e <= Z.of_nat (length data).

Definition expected_writes (output_dir : str) (data : list byte)
    (es : list PBOHeaderEntry.t) : list (list str * list byte) :=
  map (fun e => (destination output_dir e, payload_slice data e))
      (filter (fun e => extractable e) es).

Definition written_bytes (log : list (list str * list byte)) : nat :=
  fold_right (fun x acc => (length (snd x) + acc)%nat) O log.

(** The content last written to [p] according to a log. *)
Definition last_written (p : list str) (log : list (list str * list byte))
    : option (list byte) :=
  last (map snd (filter (fun x => fst x = p) log)).

(** [p] lies in the tree below [root]. *)
Definition inside (root p : list str) : Prop := root `prefix_of` p.

(** A stored name that, once its separators are normalised, is relative
    and has no [..] component. *)
Definition traversal_free (name : pystr) : Prop :=
  match name with
  | PyStr s =>
    let s' := str_replace backslash os.sep s in
    os.startswith_sep s' = false /\ os.dotdot ∉ os.split_sep s'
  | PyBytes _ => True
  end.

(** Files survive, except possibly at the listed paths. *)
Definition files_kept (except : list (list str)) (w w' : os.world) : Prop :=
  forall p c, p ∉ except ->
    os.tree w !! p = Some (os.File c) -> os.tree w' !! p = Some (os.File c).

Definition traversal_freeb (name : pystr) : bool :=
  match name with
  | PyStr s =>
    let s' := str_replace backslash os.sep s in
    negb (os.startswith_sep s') && bool_decide (os.dotdot ∉ os.split_sep s')
  | PyBytes _ => true
  end.

(** The claim that every extraction is byte-exact, as the specification
    words it: the bytes written add up to the sum of [data_size] over
    the extracted entries. *)
Definition writes_every_byte (self' : PBOParser.t) (w w' : os.world) : Prop :=
  Z.of_nat (written_bytes (drop (length (os.written w)) (os.written w')))
  = PBOParser.total_size (filter (fun e => extractable e) (PBOParser.entries self')).

(** The claim that nothing is written outside the destination root. *)
Definition writes_stay_inside (output_dir : str) (w w' : os.world) : Prop :=
  Forall (fun x => inside (os.resolve output_dir) (fst x))
         (drop (length (os.written w)) (os.written w')).

(** [open(path, 'wb')] succeeds: the path is no directory and its parent
    is one. *)
Definition writable (w : os.world) (path : str) : bool :=
  negb (os.isdir w (os.resolve path)) && os.isdir w (removelast (os.resolve path)).

(** The world after one file is written. *)
Definition with_file (w : os.world) (path : str) (data : list byte) : os.world :=
  os.mk_world (<[os.resolve path := os.File data]> (os.tree w))
              (os.written w ++ [(os.resolve path, data)]).

(** The files an archive packs: one per record with a non-empty
    payload, at the host form of its name below the destination. *)
Definition packed_files (output_dir : str) (rs : list Layout.raw)
    (payloads : list (list byte)) : list (list str * list byte) :=
  map (fun x => (destination output_dir (Layout.entry_of (fst x)), snd x))
      (filter (fun x => snd x ≠ []) (zip rs payloads)).

(** An unsigned 32-bit number, and an entry as the header loop leaves
    it. *)
Definition fits_u32 (v : Z) : Prop := 0 <= v < 2 ^ 32.

Definition sound_entry (e : PBOHeaderEntry.t) : Prop :=
  PBOHeaderEntry.is_boundary e = false /\ PBOHeaderEntry.data_offset e = 0 /\
  fits_u32 (PBOHeaderEntry.packing_method e) /\ fits_u32 (PBOHeaderEntry.original_size e) /\
  fits_u32 (PBOHeaderEntry.reserved e) /\ fits_u32 (PBOHeaderEntry.timestamp e) /\
  fits_u32 (PBOHeaderEntry.data_size e).

End Unpack.

(** ** What the geometry sampler is expected to return *)

Module Sampling.

Fixpoint take_while {A} (p : A -> bool) (l : list A) : list A :=
  match l with
  | [] => []
  | x :: l' => if p x then x :: take_while p l' else []
  end.

(** The consecutive whole 3-float tuples at the cursor, [n] at most. *)
Fixpoint read_vertices (n : nat) (f : pyfile) : list vertex :=
  match n with
  | O => []
  | S n' =>
    match P3DParser.read_vertex f with
    | Returned (v, f') => v :: read_vertices n' f'
    | _ => []
    end
  end.

(** The consecutive whole 3 x u16 triples at the cursor, [n] at most. *)
Fixpoint read_faces (n : nat) (f : pyfile) : list face :=
  match n with
  | O => []
  | S n' =>
    match P3DParser.read_face f with
    | Returned (t, f') => t :: read_faces n' f'
    | _ => []
    end
  end.

Definition sampler (fmt : format) : os.world -> str -> outcome (option P3DModel.t) :=
  match fmt with
  | FmtMLOD => P3DParser.parse_mlod_geometry
  | FmtODOL => P3DParser.parse_odol_geometry
  end.

Definition vertex_offset (fmt : format) : nat :=
  match fmt with FmtMLOD => 100 | FmtODOL => 200 end.

Definition vertex_cap (fmt : format) : nat :=
  match fmt with FmtMLOD => 100 | FmtODOL => 50 end.

Definition face_offset (fmt : format) : nat :=
  match fmt with FmtMLOD => 300 | FmtODOL => 400 end.

Definition face_limit (fmt : format) : nat :=
  match fmt with FmtMLOD => 200 | FmtODOL => 150 end.

Definition vertex_candidates (fmt : format) (data : list byte) : list vertex :=
  read_vertices (vertex_cap fmt) (P3DParser.seek_to (vertex_offset fmt) data).

Definition face_candidates (fmt : format) (nv : nat) (data : list byte) : list face :=
  read_faces (Nat.min (nv / 3) (face_limit fmt)) (P3DParser.seek_to (face_offset fmt) data).

(** Some coordinate has a magnitude above 1000. *)
Definition exceeds (v : vertex) : bool :=
  let '(x, y, z) := v in abs_gt x 1000 || abs_gt y 1000 || abs_gt z 1000.

(** The vertex list as the specification words it, for any classified
    file: the candidates up to the first one that exceeds 1000. *)
Definition vertices_as_stated (fmt : format) (data : list byte) : list vertex :=
  take_while (fun v => negb (exceeds v)) (vertex_candidates fmt data).

(** Whether the sampler reads vertices at all: always for ODOL, for MLOD
    when the u32 at offset 8 is positive. *)
Definition reads_vertices (fmt : format) (data : list byte) : bool :=
  match fmt with
  | FmtODOL => true
  | FmtMLOD =>
    match read_uint (P3DParser.seek_to 8 data) with
    | Returned (lod_count, _) => 0 <? lod_count
    | _ => false
    end
  end.

Definition valid_index (nv : nat) (t : face) : Prop :=
  let '(idx1, idx2, idx3) := t in
  (0 <= idx1 < Z.of_nat nv) /\ (0 <= idx2 < Z.of_nat nv) /\ (0 <= idx3 < Z.of_nat nv).

(** [m] is what a sampler, or [get_basic_model_info], returned. *)
Definition returned_model (w : os.world) (path : str) (m : P3DModel.t) : Prop :=
  (exists fmt, sampler fmt w path = Returned (Some m)) \/
  fst (P3DParser.get_basic_model_info w path) = Returned (Some m).

(** A coordinate that is a finite number. *)
Definition finite (x : pyfloat) : Prop :=
  match x with
  | FFin _ _ _ => True
  | _ => False
  end.

(** The bytes a sampler cannot do without: the MLOD sampler unpacks
    the u32 at offset 8, the ODOL sampler only seeks. *)
Definition sampler_needs (fmt : format) : nat :=
  match fmt with FmtMLOD => 12 | FmtODOL => 0 end.

(** The smallest file [get_basic_model_info] makes a model of: the
    header takes eight bytes. *)
Definition least_size (fmt : format) : nat := Nat.max 8 (sampler_needs fmt).

Definition call_of (fmt : format) (path : str) : P3DParser.sampler_call :=
  match fmt with
  | FmtMLOD => P3DParser.CallMLOD path
  | FmtODOL => P3DParser.CallODOL path
  end.

(** The vertices and faces a sampler keeps, as functions of the file
    content. *)
Definition kept_vertices (fmt : format) (data : list byte) : list vertex :=
  if reads_vertices fmt data
  then take_while P3DParser.within (vertex_candidates fmt data) else [].

Definition kept_faces (fmt : format) (data : list byte) : list face :=
  let nv := length (kept_vertices fmt data) in
  take_while (P3DParser.in_range nv) (face_candidates fmt nv data).

(** The last byte a sampler can look at. *)
Definition window : nat := 1300.

(** Two files that a reader cannot tell apart below position [N]. *)
Definition agree (N : nat) (f f' : pyfile) : Prop :=
  f_pos f = f_pos f' /\ take N (f_data f) = take N (f_data f').

End Sampling.

(** ** What the correlator is expected to return *)

Module Correlate.

(** A pair list read as a dictionary filled in order: the value bound
    to [k] last. *)
Definition last_binding (k : str) (l : list (str * str)) : option str :=
  last (map snd (filter (fun x => fst x = k) l)).

(** The text in which the class of a match at [pos] is looked for: all
    that precedes the match, or its last [n] characters. *)
Definition preceding (window : option nat) (text : str) (pos : nat) : str :=
  match window with
  | Some n => last_n n (take pos text)
  | None => take pos text
  end.

(** The class a model match is bound to, if any, and the path stored
    for it. *)
Definition binding (window : option nat) (text : str) (m : re.match_)
    : option (str * str) :=
  match last (re.finditer ConfigParser.class_pattern
                (preceding window text (re.m_start m))) with
  | Some cm => Some (re.group1 cm, str_replace backslash "/"%char (re.group1 m))
  | None => None
  end.

Definition bindings (window : option nat) (text : str) : list (str * str) :=
  omap (binding window text) (re.finditer ConfigParser.model_pattern text).

Definition scan (window : option nat) (text : str) : gmap str str :=
  fold_left (fun acc b => <[fst b := snd b]> acc) (bindings window text) ∅.

(** The scan as the specification words it: the nearest class token
    anywhere before the match. *)
Definition scan_as_stated : str -> gmap str str := scan None.

(** The three tests of the filename fallback, on a wanted class and a
    candidate path. *)
Definition stem_lower (p3d_path : str) : str := lower (path_stem p3d_path).

Definition is_exact (class_name p3d_path : str) : bool :=
  bool_decide (lower class_name = stem_lower p3d_path).

Definition is_contained (class_name p3d_path : str) : bool :=
  P3DParser.containment (lower class_name) (stem_lower p3d_path).

Definition is_affix (class_name p3d_path : str) : bool :=
  P3DParser.affix (lower class_name) (stem_lower p3d_path).

Definition is_fuzzy (class_name p3d_path : str) : bool :=
  is_contained class_name p3d_path || is_affix class_name p3d_path.


(** [p] is the first element of [l] that passes [test]. *)
Definition first_passing {A} (test : A -> bool) (l : list A) (p : A) : Prop :=
  exists i, l !! i = Some p /\ test p = true /\
            forall j q, (j < i)%nat -> l !! j = Some q -> test q = false.

(** The two tests of [find_class_for_model], on a wanted model path and
    an item of the dictionary. *)
Definition same_name (model_path : str) (item : str * str) : bool :=
  bool_decide (lower (path_name (snd item)) = lower (path_name model_path)).

Definition loosely (model_path : str) (item : str * str) : bool :=
  contains (lower (path_name model_path)) (lower (snd item))
  || contains (lower (path_stem (snd item))) (lower (path_name model_path)).

End Correlate.

(** ** What a walk of the file tree is expected to find *)

Module Finding.

(** The path [os.walk] builds for the directory reached from [top]
    through the names [rel]. *)
Definition joined (top : str) (rel : list str) : str := fold_left os.path_join rel top.

(** The walk from [top] reaches the directory [rel] below it: [top] can
    be listed and every step of [rel] is a directory of the tree. *)
Definition reached (w : os.world) (top : str) (rel : list str) : Prop :=
  top <> [] /\ os.isdir w (os.resolve top) = true /\
  Forall (fun name => os.is_name name = true) rel /\
  forall k, (0 < k <= length rel)%nat ->
    os.tree w !! (os.resolve top ++ take k rel) = Some os.Dir.

(** A file of the tree that the walk comes across. *)
Definition file_below (w : os.world) (top : str) (rel : list str) (name : str) : Prop :=
  reached w top rel /\ os.is_name name = true /\
  exists content, os.tree w !! (os.resolve top ++ rel ++ [name]) = Some (os.File content).

End Finding.

(** ** What the scan of a configuration source is expected to bind *)

Module Blocks.

(** A class as it lies in the text: the keyword, blanks, the name, what
    separates the name from the opening brace, and the body between the
    braces. *)
Record block := mk_block {
  b_keyword : str;
  b_blanks : str;
  b_name : str;
  b_heading : str;
  b_body : str
}.

Definition block_text (b : block) : str :=
  b_keyword b ++ b_blanks b ++ b_name b ++ b_heading b
  ++ ["{"%char] ++ b_body b ++ ["}"%char].

Record wf_block (b : block) : Prop := mk_wf_block {
  wf_keyword : lower (b_keyword b) = lit "class";
  wf_blanks : b_blanks b <> [] /\ Forall (fun c => re.is_space c = true) (b_blanks b);
  wf_name : b_name b <> [] /\ Forall (fun c => re.is_word c = true) (b_name b);
  wf_heading : Forall (fun c => c <> "{"%char) (b_heading b);
  wf_body : sre.lang ConfigParser.body_pattern (b_body b)
}.

(** A block whose name ends where its heading starts. *)
Record tight_block (b : block) : Prop := mk_tight_block {
  tight_wf : wf_block b;
  tight_name : match b_heading b with c :: _ => re.is_word c = false | [] => True end
}.

(** A brace pair of a body and the text after it. *)
Definition pair_text (p : str * str) : str :=
  ["{"%char] ++ fst p ++ ["}"%char] ++ snd p.

(** The model of a body: the path of its first model assignment, with
    slashes. *)
Definition model_of (body : str) : option str :=
  (fun m => str_replace backslash "/"%char (re.group1 m))
    <$> head (re.finditer ConfigParser.model_pattern body).

(** What a class match binds, and the bindings of a text in order. *)
Definition block_binding (content : str) (class_match : sre.match_) : option (str * str) :=
  (fun model => (sre.group content class_match 1, model))
    <$> model_of (sre.group content class_match 2).

Definition block_bindings (content : str) : list (str * str) :=
  omap (block_binding content) (sre.finditer ConfigParser.cpp_class_pattern content).

(** A match and its spans [d] characters further. *)
Definition shift_spans (d : nat) (caps : sre.spans) : sre.spans :=
  map (fun x => (fst x, ((d + fst (snd x))%nat, (d + snd (snd x))%nat))) caps.

Definition shift_result (d : nat) (res : nat * sre.spans) : nat * sre.spans :=
  ((d + fst res)%nat, shift_spans d (snd res)).

Definition shift_match (d : nat) (m : sre.match_) : sre.match_ :=
  sre.mk_match (d + sre.m_start m) (d + sre.m_end m) (shift_spans d (sre.m_spans m)).

(** Two continuations that do the same [d] characters apart. *)
Definition shifted (d : nat) (k k' : sre.cont) : Prop :=
  forall s p c, k' s (d + p)%nat (shift_spans d c) = shift_result d <$> k s p c.

End Blocks.

(** ** Sample data *)

Module Samples.

Definition bytes_of (s : string) : list byte := list_byte_of_string s.

(** [struct.pack('<L', z)] *)
Definition u32 (z : Z) : list byte :=
  map (fun i => default x00 (Byte.of_N (Z.to_N ((z / 256 ^ i) mod 256)))) [0; 1; 2; 3].

Definition raw_of (name : string) (size : Z) : Layout.raw :=
  Layout.mk_raw (bytes_of name) (u32 0) (u32 size) (u32 0) (u32 0) (u32 size).

Definition boundary : Layout.raw := raw_of EmptyString 0.

Definition world_with (path : string) (content : list byte) : os.world :=
  os.mk_world {[ os.resolve (lit path) := os.File content ]} [].

(** The archive of the round-trip example of the specification:
    [a.txt] holding [hi] and [b\c.xml] holding [<types/>]. *)
Definition tree_exts : list (list byte) := [bytes_of "prefix"; bytes_of "mod"].
Definition tree_records : list Layout.raw := [raw_of "a.txt" 2; raw_of "b\c.xml" 8].
Definition tree_header : list byte :=
  Layout.header boundary tree_exts tree_records boundary.
Definition tree_pbo : list byte := tree_header ++ bytes_of "hi<types/>".
Definition tree_world : os.world := world_with "mods/tree.pbo" tree_pbo.

(** A header that stops right after the name of its second record. *)
Definition cut_pbo : list byte :=
  Layout.header_start (Some (boundary, tree_exts)) [raw_of "a.txt" 2]
  ++ Layout.asciiz (bytes_of "b\c.xml").
Definition cut_world : os.world := world_with "mods/cut.pbo" cut_pbo.

(** An archive that announces five bytes for [a.txt] and holds two. *)
Definition short_pbo : list byte :=
  Layout.header boundary tree_exts [raw_of "a.txt" 5] boundary ++ bytes_of "hi".
Definition short_world : os.world := world_with "mods/short.pbo" short_pbo.

(** An archive whose only entry is stored as [..\evil.txt]. *)
Definition evil_pbo : list byte :=
  Layout.header boundary tree_exts [raw_of "..\evil.txt" 2] boundary ++ bytes_of "hi".
Definition evil_world : os.world := world_with "mods/evil.pbo" evil_pbo.

Definition pad (n : nat) : list byte := repeat x00 n.

(** [struct.pack('<H', z)] *)
Definition u16 (z : Z) : list byte :=
  map (fun i => default x00 (Byte.of_N (Z.to_N ((z / 256 ^ i) mod 256)))) [0; 1].

(** The binary32 words of 1.0, 1000.0 and 2000.0, little-endian. *)
Definition f32_1 : list byte := [x00; x00; x80; x3f].
Definition f32_1000 : list byte := [x00; x00; x7a; x44].
Definition f32_2000 : list byte := [x00; x00; xfa; x44].

Definition near : list byte := f32_1 ++ f32_1 ++ f32_1.
Definition far : list byte := f32_2000 ++ f32_1 ++ f32_1.

(** An ODOL file: six vertices within bounds from offset 200, a
    seventh out of bounds, and at offset 400 the triples (0, 1, 2) and
    (0, 1, 7). *)
Definition odol_file : list byte :=
  bytes_of "ODOL" ++ u32 50 ++ pad 192
  ++ near ++ near ++ near ++ near ++ near ++ near ++ far ++ pad 116
  ++ u16 0 ++ u16 1 ++ u16 2 ++ u16 0 ++ u16 1 ++ u16 7.
Definition odol_world : os.world := world_with "models/crate.p3d" odol_file.

(** An MLOD file whose LOD count is 0, with two vertices within bounds
    at offset 100 and a third out of bounds. *)
Definition mlod_file : list byte :=
  bytes_of "MLOD" ++ u32 257 ++ u32 0 ++ pad 88 ++ near ++ near ++ far.
Definition mlod_world : os.world := world_with "models/barrel.p3d" mlod_file.

(** Files that are no models: a foreign magic, and a magic with nothing
    behind it. *)
Definition riff_world : os.world := world_with "models/sound.p3d" (bytes_of "RIFF1234WAVE").
Definition stub_world : os.world := world_with "models/stub.p3d" (bytes_of "MLOD" ++ [x01; x00]).

Definition quote : ascii := ascii_of_nat 34.

(** The configuration text of the specification, its path written with
    one backslash: class Foo, a brace, model = x, backslash, y.p3d in
    double quotes, a semicolon and the closing brace. *)
Definition foo_text : str :=
  lit "class Foo { model = " ++ [quote] ++ lit "x\y.p3d" ++ [quote] ++ lit "; }".

(** The same with the backslash doubled. *)
Definition foo_text_doubled : str :=
  lit "class Foo { model = " ++ [quote] ++ lit "x\\y.p3d" ++ [quote] ++ lit "; }".





(** The parser and the world after the sample tree is extracted to
    [out]. *)
Definition run_of (r : outcome (bool * PBOParser.t * os.world)) (w : os.world)
    : PBOParser.t * os.world :=
  match r with
  | Returned (_, self', w') => (self', w')
  | _ => (PBOParser.init, w)
  end.

Definition tree_run : PBOParser.t * os.world :=
  Eval vm_compute in
    run_of (PBOParser.extract_to_directory PBOParser.init tree_world
              (lit "mods/tree.pbo") (lit "out")) tree_world.
Definition tree_parsed : PBOParser.t := Eval vm_compute in fst tree_run.
Definition tree_extracted : os.world := Eval vm_compute in snd tree_run.

Definition short_run : PBOParser.t * os.world :=
  Eval vm_compute in
    run_of (PBOParser.extract_to_directory PBOParser.init short_world
              (lit "mods/short.pbo") (lit "out")) short_world.
Definition short_parsed : PBOParser.t := Eval vm_compute in fst short_run.
Definition short_extracted : os.world := Eval vm_compute in snd short_run.

Definition evil_run : PBOParser.t * os.world :=
  Eval vm_compute in
    run_of (PBOParser.extract_to_directory PBOParser.init evil_world
              (lit "mods/evil.pbo") (lit "out")) evil_world.
Definition evil_parsed : PBOParser.t := Eval vm_compute in fst evil_run.
Definition evil_extracted : os.world := Eval vm_compute in snd evil_run.

(** An ODOL file whose first vertex candidate has a coordinate of
    exactly 1000.0. *)
Definition edge_file : list byte :=
  bytes_of "ODOL" ++ u32 50 ++ pad 192 ++ f32_1000 ++ f32_1 ++ f32_1 ++ near.
Definition edge_world : os.world := world_with "models/edge.p3d" edge_file.


(** The payloads of the sample tree, one per record. *)
Definition tree_payloads : list (list byte) := [bytes_of "hi"; bytes_of "<types/>"].

(** An archive whose second record has a name that is not valid UTF-8
    (the byte FF, then [b]). *)
Definition raw_named (name : list byte) (size : Z) : Layout.raw :=
  Layout.mk_raw name (u32 0) (u32 size) (u32 0) (u32 0) (u32 size).

Definition garbled_records : list Layout.raw :=
  [raw_of "a.txt" 2; raw_named [xff; x62] 3].
Definition garbled_pbo : list byte :=
  Layout.header boundary tree_exts garbled_records boundary ++ bytes_of "hixyz".
Definition garbled_world : os.world := world_with "mods/garbled.pbo" garbled_pbo.

(** An archive without extension: two records, then the boundary. *)
Definition bare_pbo : list byte :=
  Layout.records tree_records ++ Layout.record boundary ++ bytes_of "hi<types/>".
Definition bare_world : os.world := world_with "mods/bare.pbo" bare_pbo.

(** The model [get_basic_model_info] makes of the sample ODOL file. *)
Definition odol_model : P3DModel.t :=
  Eval vm_compute in
    match fst (P3DParser.get_basic_model_info odol_world (lit "models/crate.p3d")) with
    | Returned (Some m) => m
    | _ => P3DModel.mk [] [] [] None false false
    end.

(** Two ODOL files that differ only after byte 1300. *)
Definition long_file (tail : byte) : list byte := odol_file ++ pad 900 ++ [tail].
Definition long_world (tail : byte) : os.world :=
  world_with "models/long.p3d" (long_file tail).

(** A dictionary of two classes whose models have the same file name,
    case set aside. *)
Definition class_items : list (str * str) :=
  [(lit "Crate", lit "dz/gear/crate.p3d"); (lit "Box", lit "dz/old/CRATE.p3d");
   (lit "Barrel", lit "dz/gear/barrel.p3d")].

(** A mod folder: a configuration file and two models below it, a third
    model beside it. *)
Definition dir_at (path : string) : list str * os.node := (os.resolve (lit path), os.Dir).
Definition file_at (path : string) (content : string) : list str * os.node :=
  (os.resolve (lit path), os.File (bytes_of content)).

Definition mod_world : os.world :=
  os.mk_world
    (list_to_map
       [dir_at "mod"; dir_at "mod/addons"; dir_at "mod/addons/gear";
        file_at "mod/config.cpp" "class A {};";
        file_at "mod/addons/Crate.P3D" "ODOL";
        file_at "mod/addons/gear/m4a1.p3d" "MLOD";
        file_at "mod/addons/gear/CONFIG.BIN" "raP";
        file_at "mod/addons/gear/notes.txt" "x";
        file_at "elsewhere.p3d" "MLOD"])
    [].

(** A host that lists a directory in the order of the tree. *)
Definition host_order : os.listing := fun entries => entries.

(** A class with a class nested in its body, and a class after it. *)
Definition nested_block : Blocks.block :=
  Blocks.mk_block (lit "class") (lit " ") (lit "Outer") (lit ": Base ")
           (lit " scope = 2; class Inner { model = 'a\b.p3d'; }; ").

Definition nested_rest : str := lit "; CLASS Next { model = 'c.P3D'; };".

Definition forward_text : str := lit "class Foo; model = 'a.p3d';".

End Samples.

(** * Properties *)

Import Layout Unpack Sampling.


(** ** Reading primitives *)

Lemma remaining_advance f a rest :
  remaining f = a ++ rest -> remaining (advance f (length a)) = rest.
Proof.
  unfold remaining, advance; simpl; intros H.
  rewrite <- drop_drop, H.
  apply drop_app_length.
Qed.

Lemma advance_advance f a b : advance (advance f a) b = advance f (a + b).
Proof. unfold advance; simpl. f_equal. lia. Qed.

Lemma advance_data f k : f_data (advance f k) = f_data f.
Proof. reflexivity. Qed.

Lemma bind_returned {A B} (m : io A) (k : A -> io B) f a f' :
  m f = Returned (a, f') -> (m ≫= k) f = k a f'.
Proof. intros H. unfold mbind, io_bind. now rewrite H. Qed.

Lemma bind_raised {A B} (m : io A) (k : A -> io B) f e :
  m f = Raised e -> (m ≫= k) f = Raised e.
Proof. intros H. unfold mbind, io_bind. now rewrite H. Qed.

Lemma eqb_nul_false b : b ≠ x00 -> Byte.eqb b x00 = false.
Proof.
  intros H. destruct (Byte.eqb b x00) eqn:E; [|reflexivity].
  apply Byte.byte_dec_bl in E. contradiction.
Qed.

Lemma takewhile_nul name rest :
  no_nul name -> takewhile_not_nul (name ++ x00 :: rest) = (name, S (length name)).
Proof.
  induction 1 as [|b name Hb _ IH]; simpl; [reflexivity|].
  now rewrite (eqb_nul_false b Hb), IH.
Qed.

Lemma takewhile_eof name :
  no_nul name -> takewhile_not_nul name = (name, length name).
Proof.
  induction 1 as [|b name Hb _ IH]; simpl; [reflexivity|].
  now rewrite (eqb_nul_false b Hb), IH.
Qed.

Lemma read_asciiz_nul f name rest :
  remaining f = asciiz name ++ rest -> no_nul name ->
  read_asciiz f = Returned (decode_or_raw name, advance f (length (asciiz name))).
Proof.
  intros Hrem Hname. unfold read_asciiz. fold (remaining f).
  rewrite Hrem. unfold asciiz. rewrite <- app_assoc. simpl.
  rewrite (takewhile_nul _ _ Hname). rewrite length_app. simpl.
  unfold advance. repeat f_equal. lia.
Qed.

Lemma read_asciiz_eof f name :
  remaining f = name -> no_nul name ->
  read_asciiz f = Returned (decode_or_raw name, advance f (length name)).
Proof.
  intros Hrem Hname. unfold read_asciiz. fold (remaining f).
  rewrite Hrem, (takewhile_eof _ Hname). reflexivity.
Qed.

Lemma read_ulong_ok f b rest :
  remaining f = b ++ rest -> length b = 4%nat ->
  read_ulong f = Returned (le_uint b, advance f 4).
Proof.
  intros Hrem Hlen. unfold read_ulong, f_read, mbind, io_bind.
  fold (remaining f). rewrite Hrem.
  replace (take 4 (b ++ rest)) with b
    by (rewrite <- Hlen at 1; now rewrite take_app_length).
  unfold lift, unpack_u32. rewrite decide_True by assumption.
  rewrite Hlen. reflexivity.
Qed.

Lemma read_ulong_short f :
  (length (remaining f) < 4)%nat -> read_ulong f = Raised StructError.
Proof.
  intros Hlen. unfold read_ulong, f_read, mbind, io_bind.
  fold (remaining f). unfold lift, unpack_u32.
  rewrite decide_False; [reflexivity|].
  rewrite length_take. lia.
Qed.


(** ** The header decoder *)

Lemma advance_0 f : advance f 0 = f.
Proof. destruct f. unfold advance; simpl. now rewrite Nat.add_0_r. Qed.

Lemma decode_empty : decode_or_raw [] = PyStr [].
Proof. reflexivity. Qed.

Lemma decode_nonempty s :
  s ≠ [] -> PBOHeaderExtension.is_empty_str (decode_or_raw s) = false.
Proof.
  destruct s as [|b s]; [congruence|]. intros _.
  unfold decode_or_raw. now destruct (utf8_valid (b :: s)).
Qed.

Lemma is_boundary_entry_of r :
  PBOHeaderEntry.is_boundary (entry_of r) = bool_decide (r_name r = []).
Proof.
  unfold PBOHeaderEntry.is_boundary, entry_of; simpl.
  destruct (r_name r) as [|b s]; [reflexivity|].
  unfold decode_or_raw. now destruct (utf8_valid (b :: s)).
Qed.

Lemma length_record r :
  wf_raw r -> length (record r) = (length (r_name r) + 21)%nat.
Proof.
  intros [_ H1 H2 H3 H4 H5]. unfold record, fields, asciiz.
  rewrite !length_app, H1, H2, H3, H4, H5. simpl. lia.
Qed.

Lemma parse_entry_ok f r rest :
  wf_raw r -> remaining f = record r ++ rest ->
  PBOHeaderEntry.parse_from_file f
  = Returned (entry_of r, advance f (length (record r))).
Proof.
  intros Hwf Hrem. pose proof (length_record r Hwf) as Hlen.
  destruct Hwf as [Hname H1 H2 H3 H4 H5].
  unfold record, fields in Hrem. rewrite <- !app_assoc in Hrem.
  unfold PBOHeaderEntry.parse_from_file.
  erewrite bind_returned by (eapply read_asciiz_nul; eassumption).
  apply remaining_advance in Hrem.
  erewrite bind_returned by (eapply read_ulong_ok; eassumption).
  apply remaining_advance in Hrem. rewrite H1 in Hrem.
  erewrite bind_returned by (eapply read_ulong_ok; eassumption).
  apply remaining_advance in Hrem. rewrite H2 in Hrem.
  erewrite bind_returned by (eapply read_ulong_ok; eassumption).
  apply remaining_advance in Hrem. rewrite H3 in Hrem.
  erewrite bind_returned by (eapply read_ulong_ok; eassumption).
  apply remaining_advance in Hrem. rewrite H4 in Hrem.
  erewrite bind_returned by (eapply read_ulong_ok; eassumption).
  unfold ret, mret, io_ret, entry_of. rewrite !advance_advance.
  repeat f_equal. rewrite Hlen. unfold asciiz. rewrite length_app. simpl. lia.
Qed.

(** The complete entry records at the cursor are appended to the table,
    one turn of the loop each. *)
Lemma loop_entries rs : forall fuel acc ext fe f rest,
  Forall wf_entry rs -> remaining f = records rs ++ rest ->
  PBOHeader.while_loop (length rs + fuel) acc ext fe f
  = PBOHeader.while_loop fuel (acc ++ map entry_of rs) ext
      (match rs with [] => fe | _ => false end)
      (advance f (length (records rs))).
Proof.
  induction rs as [|r rs IH]; intros fuel acc ext fe f rest Hwf Hrem.
  - simpl. now rewrite app_nil_r, advance_0.
  - apply Forall_cons in Hwf as [[Hr Hne] Hwf].
    unfold records in Hrem. simpl in Hrem. rewrite <- app_assoc in Hrem.
    change (length (r :: rs) + fuel)%nat with (S (length rs + fuel)).
    cbn [PBOHeader.while_loop].
    erewrite bind_returned by (eapply parse_entry_ok; eassumption).
    rewrite is_boundary_entry_of, bool_decide_eq_false_2 by assumption.
    cbn [negb]. apply remaining_advance in Hrem.
    rewrite (IH fuel _ ext false _ rest Hwf Hrem).
    rewrite advance_advance, <- app_assoc. simpl.
    unfold records at 2. simpl. rewrite length_app.
    f_equal. now destruct rs.
Qed.

Lemma length_strings exts :
  Forall wf_string exts -> (length exts <= length (strings exts))%nat.
Proof.
  induction 1 as [|s exts _ _ IH]; simpl; [lia|].
  unfold strings in *. simpl. unfold asciiz at 1.
  rewrite !length_app. simpl. lia.
Qed.

Lemma length_records rs :
  Forall wf_entry rs -> (length rs <= length (records rs))%nat.
Proof.
  induction 1 as [|r rs [Hr _] _ IH]; simpl; [lia|].
  unfold records in *. simpl. rewrite length_app, (length_record r Hr). lia.
Qed.

Lemma length_remaining f : (length (remaining f) <= length (f_data f))%nat.
Proof. unfold remaining. rewrite length_drop. lia. Qed.

(** The extension strings are collected up to the empty string. *)
Lemma extension_strings exts : forall fuel acc f rest,
  Forall wf_string exts -> (length exts <= fuel)%nat ->
  remaining f = strings exts ++ x00 :: rest ->
  (read_asciiz ≫= PBOHeaderExtension.while_loop fuel acc) f
  = Returned (acc ++ map decode_or_raw exts,
              advance f (length (strings exts) + 1)).
Proof.
  induction exts as [|s exts IH]; intros fuel acc f rest Hwf Hfuel Hrem.
  - simpl in *. change (x00 :: rest) with (asciiz [] ++ rest) in Hrem.
    erewrite bind_returned
      by (eapply read_asciiz_nul; [eassumption | unfold no_nul; constructor]).
    rewrite decode_empty, app_nil_r. now destruct fuel.
  - apply Forall_cons in Hwf as [[Hs Hne] Hwf].
    unfold strings in Hrem. simpl in Hrem. rewrite <- app_assoc in Hrem.
    erewrite bind_returned by (eapply read_asciiz_nul; eassumption).
    destruct fuel as [|fuel]; [simpl in Hfuel; lia|].
    cbn [PBOHeaderExtension.while_loop].
    rewrite (decode_nonempty s Hne).
    apply remaining_advance in Hrem.
    rewrite (IH fuel _ _ rest Hwf ltac:(simpl in Hfuel; lia) Hrem).
    rewrite advance_advance, <- app_assoc. simpl.
    unfold strings. simpl. rewrite length_app.
    apply (f_equal Returned), f_equal2; [reflexivity|].
    apply (f_equal (advance f)). lia.
Qed.

(** A first boundary opens the extension block and adds no entry. *)
Lemma loop_extension b0 exts fuel f rest :
  wf_boundary b0 -> Forall wf_string exts ->
  remaining f = record b0 ++ strings exts ++ [x00] ++ rest ->
  PBOHeader.while_loop (S fuel) [] None true f
  = PBOHeader.while_loop fuel []
      (Some (PBOHeaderExtension.mk (map decode_or_raw exts) (entry_of b0))) false
      (advance f (length (record b0 ++ strings exts ++ [x00]))).
Proof.
  intros [Hb0 Hname] Hexts Hrem.
  cbn [PBOHeader.while_loop].
  erewrite bind_returned by (eapply parse_entry_ok; eassumption).
  rewrite is_boundary_entry_of, bool_decide_eq_true_2 by assumption.
  cbn [negb]. pose proof Hrem as Hrem0.
  apply remaining_advance in Hrem. simpl in Hrem.
  unfold PBOHeaderExtension.parse_from_file.
  assert (Hfuel : (length exts <= S (length (f_data (advance f (length (record b0))))))%nat).
  { rewrite advance_data. pose proof (length_remaining f) as Hl.
    rewrite Hrem0, !length_app in Hl. pose proof (length_strings exts Hexts). lia. }
  pose proof (extension_strings exts _ [] _ rest Hexts Hfuel Hrem) as Hext.
  unfold mbind, io_bind in Hext |- *.
  destruct (read_asciiz (advance f (length (record b0)))) as [[s f1]| |];
    try discriminate.
  rewrite Hext. cbn. rewrite advance_advance, !length_app. reflexivity.
Qed.

(** A later boundary ends the header. *)
Lemma loop_boundary b1 fuel acc ext f rest :
  wf_boundary b1 -> remaining f = record b1 ++ rest ->
  PBOHeader.while_loop (S fuel) acc ext false f
  = Returned (PBOHeader.mk ext acc (Some (entry_of b1)),
              advance f (length (record b1))).
Proof.
  intros [Hb1 Hname] Hrem. cbn [PBOHeader.while_loop].
  erewrite bind_returned by (eapply parse_entry_ok; eassumption).
  rewrite is_boundary_entry_of, bool_decide_eq_true_2 by assumption.
  reflexivity.
Qed.

Lemma parse_header_ok b0 exts rs b1 payload :
  wf_header b0 exts rs b1 ->
  PBOHeader.parse_from_file {| f_data := header b0 exts rs b1 ++ payload; f_pos := 0 |}
  = Returned
      (PBOHeader.mk
         (Some (PBOHeaderExtension.mk (map decode_or_raw exts) (entry_of b0)))
         (map entry_of rs) (Some (entry_of b1)),
       {| f_data := header b0 exts rs b1 ++ payload;
          f_pos := length (header b0 exts rs b1) |}).
Proof.
  intros [Hb0 Hexts Hrs Hb1].
  set (data := header b0 exts rs b1 ++ payload).
  set (f := {| f_data := data; f_pos := 0 |}).
  assert (Hrem : remaining f
                 = record b0 ++ strings exts ++ [x00] ++ (records rs ++ record b1 ++ payload)).
  { unfold remaining, f, data, header. cbn [f_pos f_data]. rewrite drop_0.
    rewrite <- !app_assoc. reflexivity. }
  unfold PBOHeader.parse_from_file. cbn [f_data f].
  rewrite (loop_extension b0 exts _ f _ Hb0 Hexts Hrem).
  assert (Hlen : (length rs < length data)%nat).
  { unfold data, header. rewrite !length_app.
    pose proof (length_records rs Hrs). destruct Hb0 as [Hb0 _].
    rewrite (length_record b0 Hb0). lia. }
  replace (length data) with (length rs + S (length data - length rs - 1))%nat by lia.
  replace (record b0 ++ strings exts ++ [x00] ++ records rs ++ record b1 ++ payload)
    with ((record b0 ++ strings exts ++ [x00]) ++ records rs ++ record b1 ++ payload)
    in Hrem by now rewrite <- !app_assoc.
  apply remaining_advance in Hrem.
  rewrite (loop_entries rs _ _ _ _ _ _ Hrs Hrem).
  apply remaining_advance in Hrem.
  replace (match rs with [] => false | _ => false end) with false by now destruct rs.
  rewrite (loop_boundary b1 _ _ _ _ _ Hb1 Hrem).
  rewrite !advance_advance.
  apply (f_equal Returned), f_equal2; [reflexivity|].
  unfold advance, f. cbn [f_data f_pos]. apply (f_equal (Build_pyfile data)).
  unfold header. rewrite !length_app. simpl. lia.
Qed.


(** ** Offset assignment *)

Lemma total_size_app es es' :
  PBOParser.total_size (es ++ es') = PBOParser.total_size es + PBOParser.total_size es'.
Proof. induction es as [|e es IH]; simpl; lia. Qed.

Lemma assign_offsets_lookup es : forall cur i e,
  Forall PBOParser.not_boundary es -> es !! i = Some e ->
  PBOParser.assign_offsets es cur !! i
  = Some (PBOHeaderEntry.set_data_offset e (cur + PBOParser.total_size (take i es))).
Proof.
  induction es as [|e0 es IH]; intros cur i e Hnb Hi; [discriminate|].
  apply Forall_cons in Hnb as [He0 Hnb]. simpl. rewrite He0. simpl.
  destruct i as [|i]; simpl in *.
  - injection Hi as <-. now rewrite Z.add_0_r.
  - rewrite (IH _ i e Hnb Hi). do 2 f_equal. lia.
Qed.

Lemma assign_offsets_length es cur :
  length (PBOParser.assign_offsets es cur) = length es.
Proof.
  revert cur. induction es as [|e es IH]; intros cur; simpl; [reflexivity|].
  destruct (negb _); simpl; now rewrite IH.
Qed.

Lemma assign_offsets_not_boundary es cur :
  Forall PBOParser.not_boundary es -> Forall PBOParser.not_boundary (PBOParser.assign_offsets es cur).
Proof.
  intros Hnb. revert cur. induction Hnb as [|e es He _ IH]; intros cur; simpl.
  - constructor.
  - rewrite He. simpl. constructor; [exact He | apply IH].
Qed.

Lemma filter_not_boundary es :
  Forall PBOParser.not_boundary es ->
  filter (fun e => negb (PBOHeaderEntry.is_boundary e)) es = es.
Proof.
  induction 1 as [|e es He _ IH]; [reflexivity|].
  rewrite filter_cons_True by (rewrite He; exact I). now rewrite IH.
Qed.

Lemma entries_not_boundary rs :
  Forall wf_entry rs -> Forall PBOParser.not_boundary (map entry_of rs).
Proof.
  intros H. apply Forall_map. eapply Forall_impl; [exact H|].
  intros r [_ Hne]. unfold PBOParser.not_boundary. simpl.
  now rewrite is_boundary_entry_of, bool_decide_eq_false_2.
Qed.


(** ** Claims on the archive decoder *)

(** C1. On a well-formed archive (first boundary with its extension
    strings, N entry records, terminating boundary, then the payload)
    [parse_pbo] succeeds and the entry table is exactly the N entry
    records in file order, none of them a boundary; the first offset is
    the position right after the header and each further offset is the
    previous offset plus the previous size. *)
Theorem parse_pbo_wellformed self w pbo_path b0 exts rs b1 payload :
  wf_header b0 exts rs b1 ->
  os.open_rb pbo_path w = Returned (header b0 exts rs b1 ++ payload) ->
  exists self',
    PBOParser.parse_pbo self w pbo_path = Returned (true, self') /\
    let es := PBOParser.entries self' in
    let origin := Z.of_nat (length (header b0 exts rs b1)) in
    length es = length rs /\
    Forall (fun e => PBOHeaderEntry.is_boundary e = false) es /\
    (forall i r, rs !! i = Some r ->
       es !! i = Some (PBOHeaderEntry.set_data_offset (entry_of r)
                         (origin + PBOParser.total_size (map entry_of (take i rs))))) /\
    (forall e, es !! 0%nat = Some e -> PBOHeaderEntry.data_offset e = origin) /\
    (forall i e e', es !! i = Some e -> es !! S i = Some e' ->
       PBOHeaderEntry.data_offset e'
       = PBOHeaderEntry.data_offset e + PBOHeaderEntry.data_size e).
Proof.
  intros Hwf Hopen. pose proof (wf_records _ _ _ _ Hwf) as Hrs.
  pose proof (entries_not_boundary rs Hrs) as Hnb.
  eexists. split.
  { unfold PBOParser.parse_pbo. rewrite Hopen, (parse_header_ok _ _ _ _ _ Hwf).
    cbn [PBOHeader.pbo_entries f_pos]. reflexivity. }
  cbn [PBOParser.entries PBOParser.header].
  set (origin := Z.of_nat (length (header b0 exts rs b1))).
  rewrite filter_not_boundary by now apply assign_offsets_not_boundary.
  assert (Hlookup : forall i r, rs !! i = Some r ->
            PBOParser.assign_offsets (map entry_of rs) origin !! i
            = Some (PBOHeaderEntry.set_data_offset (entry_of r)
                      (origin + PBOParser.total_size (map entry_of (take i rs))))).
  { intros i r Hi.
    rewrite (assign_offsets_lookup _ origin i (entry_of r) Hnb)
      by (rewrite list_lookup_fmap, Hi; reflexivity).
    now rewrite <- fmap_take. }
  cbv zeta. repeat split.
  - now rewrite assign_offsets_length, length_map.
  - now apply assign_offsets_not_boundary.
  - exact Hlookup.
  - intros e He. destruct rs as [|r rs']; [discriminate|].
    rewrite (Hlookup 0%nat r eq_refl) in He. injection He as <-.
    simpl. lia.
  - intros i e e' He He'.
    destruct (rs !! i) as [r|] eqn:Hr.
    2:{ apply lookup_ge_None in Hr. apply lookup_lt_Some in He.
        rewrite assign_offsets_length, length_map in He. lia. }
    destruct (rs !! S i) as [r'|] eqn:Hr'.
    2:{ apply lookup_ge_None in Hr'. apply lookup_lt_Some in He'.
        rewrite assign_offsets_length, length_map in He'. lia. }
    rewrite (Hlookup _ _ Hr) in He. rewrite (Hlookup _ _ Hr') in He'.
    injection He as <-. injection He' as <-. simpl.
    rewrite (take_S_r _ _ _ Hr), map_app, total_size_app. simpl. lia.
Qed.

Lemma parse_pbo_wellformed_witness :
  wf_header Samples.boundary Samples.tree_exts Samples.tree_records Samples.boundary /\
  exists self',
    PBOParser.parse_pbo PBOParser.init Samples.tree_world (lit "mods/tree.pbo")
    = Returned (true, self') /\
    length (PBOParser.entries self') = 2%nat.
Proof.
  assert (Hwf : wf_header Samples.boundary Samples.tree_exts Samples.tree_records
                  Samples.boundary).
  { split; vm_compute; repeat constructor; discriminate. }
  split; [exact Hwf|].
  destruct (parse_pbo_wellformed PBOParser.init Samples.tree_world
              (lit "mods/tree.pbo") _ _ _ _ (Samples.bytes_of "hi<types/>") Hwf)
    as (self' & Hparse & Hlen & _).
  { vm_compute. reflexivity. }
  exists self'. split; [exact Hparse | exact Hlen].
Defined.

Lemma read_ulong_cases f :
  ((length (remaining f) < 4)%nat /\ read_ulong f = Raised StructError) \/
  (exists v, read_ulong f = Returned (v, advance f 4) /\
             (4 <= length (remaining f))%nat /\
             length (remaining (advance f 4)) = (length (remaining f) - 4)%nat).
Proof.
  destruct (decide (length (remaining f) < 4)%nat) as [Hlt|Hge].
  - left. split; [exact Hlt | now apply read_ulong_short].
  - right. pose proof (take_drop 4 (remaining f)) as Hsplit. symmetry in Hsplit.
    assert (Hlen : length (take 4 (remaining f)) = 4%nat) by (rewrite length_take; lia).
    exists (le_uint (take 4 (remaining f))). split; [|split].
    + now apply (read_ulong_ok f _ _ Hsplit).
    + lia.
    + apply remaining_advance in Hsplit. rewrite Hlen in Hsplit.
      rewrite Hsplit, length_drop. reflexivity.
Qed.

(** One [read_ulong] of a sequence whose failure is the goal: either it
    raises, or it returns and four bytes fewer remain. *)
Ltac ulong_or_raise :=
  cbv beta;
  lazymatch goal with
  | |- (read_ulong ≫= _) ?f = Raised StructError =>
    let H := fresh "H" in
    let Hge := fresh "Hge" in
    let Hlen := fresh "Hlen" in
    destruct (read_ulong_cases f) as [[_ H]|(? & H & Hge & Hlen)];
    [now apply bind_raised
    |rewrite (bind_returned _ _ _ _ _ H); clear H;
     generalize dependent (advance f 4); intros]
  end.

(** A record cut short makes [PBOHeaderEntry.parse_from_file] raise. *)
Lemma parse_entry_truncated f :
  truncated_record (remaining f) ->
  PBOHeaderEntry.parse_from_file f = Raised StructError.
Proof.
  intros Htr. unfold PBOHeaderEntry.parse_from_file.
  remember (remaining f) as p eqn:Hp. symmetry in Hp.
  destruct Htr as [name Hname | name ints Hname Hints].
  - erewrite bind_returned by (eapply read_asciiz_eof; eassumption).
    rewrite <- (app_nil_r name) in Hp. apply remaining_advance in Hp.
    apply bind_raised, read_ulong_short. rewrite Hp. simpl. lia.
  - erewrite bind_returned by (eapply read_asciiz_nul; eassumption).
    apply remaining_advance in Hp.
    assert (Hl : (length (remaining (advance f (length (asciiz name)))) < 20)%nat)
      by now rewrite Hp.
    clear Hp. generalize dependent (advance f (length (asciiz name))). intros f1 Hl.
    do 5 ulong_or_raise. exfalso. lia.
Qed.

Lemma loop_truncated fuel acc ext fe f :
  truncated_record (remaining f) ->
  PBOHeader.while_loop (S fuel) acc ext fe f = Raised StructError.
Proof.
  intros Htr. cbn [PBOHeader.while_loop].
  now apply bind_raised, parse_entry_truncated.
Qed.

Lemma parse_header_truncated ext rs partial :
  wf_start ext rs -> truncated_record partial ->
  PBOHeader.parse_from_file {| f_data := header_start ext rs ++ partial; f_pos := 0 |}
  = Raised StructError.
Proof.
  intros [Hext Hrs] Htr. unfold PBOHeader.parse_from_file. cbn [f_data].
  set (data := header_start ext rs ++ partial).
  set (f := {| f_data := data; f_pos := 0 |}).
  assert (Hrem : remaining f = data) by apply drop_0.
  pose proof (length_records rs Hrs) as Hlen.
  destruct ext as [[b0 exts]|]; unfold data, header_start in Hrem.
  - destruct Hext as [Hb0 Hexts].
    replace ((record b0 ++ strings exts ++ [x00]) ++ records rs)
      with (record b0 ++ strings exts ++ [x00] ++ records rs) in Hrem
      by now rewrite <- !app_assoc.
    rewrite <- !app_assoc in Hrem.
    rewrite (loop_extension b0 exts _ f _ Hb0 Hexts Hrem).
    assert (Hdata : (length rs < length data)%nat).
    { unfold data, header_start. rewrite !length_app.
      destruct Hb0 as [Hb0 _]. rewrite (length_record b0 Hb0). lia. }
    replace (length data) with (length rs + S (length data - length rs - 1))%nat by lia.
    replace (record b0 ++ strings exts ++ [x00] ++ records rs ++ partial)
      with ((record b0 ++ strings exts ++ [x00]) ++ records rs ++ partial)
      in Hrem by now rewrite <- !app_assoc.
    apply remaining_advance in Hrem.
    rewrite (loop_entries rs _ _ _ _ _ _ Hrs Hrem).
    apply remaining_advance in Hrem.
    apply loop_truncated. now rewrite Hrem.
  - simpl in Hrem.
    replace (S (length data)) with (length rs + S (length data - length rs))%nat
      by (unfold data, header_start; rewrite !length_app; simpl; lia).
    rewrite (loop_entries rs _ _ _ _ _ _ Hrs Hrem).
    apply remaining_advance in Hrem.
    apply loop_truncated. now rewrite Hrem.
Qed.

(** C4. A header that ends inside a record (the name unterminated, or
    fewer than the five integers after it) makes [parse_pbo] answer
    false, and the parser object, entry table included, is as it was
    before the call. *)
Theorem parse_pbo_truncated self w pbo_path ext rs partial :
  wf_start ext rs ->
  truncated_record partial ->
  os.open_rb pbo_path w = Returned (header_start ext rs ++ partial) ->
  PBOParser.parse_pbo self w pbo_path = Returned (false, self) /\
  PBOHeader.parse_from_file {| f_data := header_start ext rs ++ partial; f_pos := 0 |}
  = Raised StructError.
Proof.
  intros Hwf Htr Hopen. pose proof (parse_header_truncated ext rs partial Hwf Htr) as H.
  split; [|exact H].
  unfold PBOParser.parse_pbo. now rewrite Hopen, H.
Qed.

Lemma parse_pbo_truncated_witness :
  PBOParser.parse_pbo PBOParser.init Samples.cut_world (lit "mods/cut.pbo")
  = Returned (false, PBOParser.init).
Proof.
  refine (proj1 (parse_pbo_truncated PBOParser.init Samples.cut_world
                   (lit "mods/cut.pbo")
                   (Some (Samples.boundary, Samples.tree_exts))
                   [Samples.raw_of "a.txt" 2]
                   (asciiz (Samples.bytes_of "b\c.xml")) _ _ _)).
  - split; [split|]; vm_compute; repeat constructor; discriminate.
  - refine (missing_integers (Samples.bytes_of "b\c.xml") [] _ _).
    + vm_compute. repeat constructor; discriminate.
    + simpl. lia.
  - vm_compute. reflexivity.
Defined.


(** ** The decoder always answers *)

Lemma takewhile_bounds l :
  let '(run, k) := takewhile_not_nul l in
  (k <= length l)%nat /\ (length run <= k)%nat /\ (run ≠ [] -> (1 <= k)%nat).
Proof.
  induction l as [|b l IH]; simpl; [repeat split; lia || congruence|].
  destruct (Byte.eqb b x00); [simpl; repeat split; lia || congruence|].
  destruct (takewhile_not_nul l) as [run k]. simpl. destruct IH as (H1 & H2 & H3).
  repeat split; lia.
Qed.

Lemma length_remaining_advance f k :
  length (remaining (advance f k)) = (length (remaining f) - k)%nat.
Proof.
  unfold remaining, advance. simpl. rewrite !length_drop. lia.
Qed.

Lemma read_asciiz_progress f :
  exists s f',
    read_asciiz f = Returned (s, f') /\
    f_data f' = f_data f /\
    (length (remaining f') <= length (remaining f))%nat /\
    (PBOHeaderExtension.is_empty_str s = false ->
     (length (remaining f') < length (remaining f))%nat).
Proof.
  unfold read_asciiz. fold (remaining f).
  pose proof (takewhile_bounds (remaining f)) as Hb.
  destruct (takewhile_not_nul (remaining f)) as [run k].
  destruct Hb as (H1 & H2 & H3).
  exists (decode_or_raw run), (advance f k). split; [reflexivity|].
  split; [reflexivity|]. rewrite length_remaining_advance. split; [lia|].
  intros Hne. assert (run ≠ []) by (intros ->; discriminate Hne).
  specialize (H3 ltac:(assumption)). lia.
Qed.

Lemma read_ulong_progress f :
  read_ulong f = Raised StructError \/
  exists v f',
    read_ulong f = Returned (v, f') /\
    f_data f' = f_data f /\
    (length (remaining f') + 4 = length (remaining f))%nat.
Proof.
  destruct (read_ulong_cases f) as [[_ H] | (v & H & Hge & Hlen)]; [now left|].
  right. exists v, (advance f 4). repeat split; trivial. lia.
Qed.

Lemma parse_entry_progress f :
  PBOHeaderEntry.parse_from_file f = Raised StructError \/
  exists e f',
    PBOHeaderEntry.parse_from_file f = Returned (e, f') /\
    f_data f' = f_data f /\
    (length (remaining f') + 20 <= length (remaining f))%nat.
Proof.
  unfold PBOHeaderEntry.parse_from_file.
  destruct (read_asciiz_progress f) as (s & f0 & H0 & Hd0 & Hl0 & _).
  rewrite (bind_returned _ _ _ _ _ H0).
  destruct (read_ulong_progress f0) as [H | (v1 & f1 & H & Hd1 & Hl1)];
    [left; now apply bind_raised | rewrite (bind_returned _ _ _ _ _ H); clear H].
  destruct (read_ulong_progress f1) as [H | (v2 & f2 & H & Hd2 & Hl2)];
    [left; now apply bind_raised | rewrite (bind_returned _ _ _ _ _ H); clear H].
  destruct (read_ulong_progress f2) as [H | (v3 & f3 & H & Hd3 & Hl3)];
    [left; now apply bind_raised | rewrite (bind_returned _ _ _ _ _ H); clear H].
  destruct (read_ulong_progress f3) as [H | (v4 & f4 & H & Hd4 & Hl4)];
    [left; now apply bind_raised | rewrite (bind_returned _ _ _ _ _ H); clear H].
  destruct (read_ulong_progress f4) as [H | (v5 & f5 & H & Hd5 & Hl5)];
    [left; now apply bind_raised | rewrite (bind_returned _ _ _ _ _ H); clear H].
  right. eexists _, f5. split; [reflexivity|]. split; [congruence | lia].
Qed.

(** The extension loop ends: every turn but the last has read a
    non-empty string. *)
Lemma extension_loop_returns fuel : forall acc s f,
  (PBOHeaderExtension.is_empty_str s = false -> (length (remaining f) < fuel)%nat) ->
  exists strings f',
    PBOHeaderExtension.while_loop fuel acc s f = Returned (strings, f') /\
    f_data f' = f_data f /\
    (length (remaining f') <= length (remaining f))%nat.
Proof.
  induction fuel as [|fuel IH]; intros acc s f Hfuel.
  - destruct (PBOHeaderExtension.is_empty_str s) eqn:Hs;
      [|specialize (Hfuel eq_refl); lia].
    exists acc, f. simpl. rewrite Hs. repeat split; trivial.
  - cbn [PBOHeaderExtension.while_loop].
    destruct (PBOHeaderExtension.is_empty_str s) eqn:Hs.
    + exists acc, f. repeat split; trivial.
    + specialize (Hfuel eq_refl).
      destruct (read_asciiz_progress f) as (s' & f1 & H1 & Hd1 & Hl1 & Hlt1).
      rewrite (bind_returned _ _ _ _ _ H1).
      destruct (IH (acc ++ [s]) s' f1) as (strings & f' & H & Hd & Hl).
      { intros Hs'. specialize (Hlt1 Hs'). lia. }
      exists strings, f'. split; [exact H|]. split; [congruence | lia].
Qed.

Lemma parse_extension_returns e f :
  exists ext f',
    PBOHeaderExtension.parse_from_file e f = Returned (ext, f') /\
    f_data f' = f_data f /\
    (length (remaining f') <= length (remaining f))%nat.
Proof.
  unfold PBOHeaderExtension.parse_from_file.
  destruct (read_asciiz_progress f) as (s & f1 & H1 & Hd1 & Hl1 & _).
  rewrite (bind_returned _ _ _ _ _ H1).
  destruct (extension_loop_returns (S (length (f_data f))) [] s f1)
    as (strings & f' & H & Hd & Hl).
  { intros _. pose proof (length_remaining f1). rewrite Hd1 in *. lia. }
  rewrite (bind_returned _ _ _ _ _ H).
  eexists _, f'. split; [reflexivity|]. split; [congruence | lia].
Qed.

(** The header loop ends: every turn reads at least twenty bytes. *)
Lemma header_loop_answers fuel : forall acc ext fe f,
  (length (remaining f) < fuel)%nat ->
  PBOHeader.while_loop fuel acc ext fe f ≠ OutOfFuel.
Proof.
  induction fuel as [|fuel IH]; intros acc ext fe f Hfuel; [lia|].
  cbn [PBOHeader.while_loop].
  destruct (parse_entry_progress f) as [H | (e & f1 & H & Hd1 & Hl1)].
  - now rewrite (bind_raised _ _ _ _ H).
  - rewrite (bind_returned _ _ _ _ _ H).
    destruct (negb (PBOHeaderEntry.is_boundary e)); [apply IH; lia|].
    destruct fe; [|discriminate].
    destruct (parse_extension_returns e f1) as (x & f2 & H2 & Hd2 & Hl2).
    rewrite (bind_returned _ _ _ _ _ H2). apply IH. lia.
Qed.

Lemma parse_header_answers data :
  PBOHeader.parse_from_file {| f_data := data; f_pos := 0 |} ≠ OutOfFuel.
Proof.
  unfold PBOHeader.parse_from_file. apply header_loop_answers.
  unfold remaining. simpl. rewrite length_drop. lia.
Qed.

Lemma parse_pbo_answers self w pbo_path :
  exists ok self', PBOParser.parse_pbo self w pbo_path = Returned (ok, self').
Proof.
  unfold PBOParser.parse_pbo, os.open_rb.
  destruct (os.tree w !! os.resolve pbo_path) as [[|data]|]; eauto.
  pose proof (parse_header_answers data) as Hfuel.
  destruct (PBOHeader.parse_from_file _) as [[hdr f]| |]; eauto. contradiction.
Qed.

(** [parse_pbo] returns a boolean on every input: no exception leaves
    it and the fuel of the embedding is never used up.  When the answer
    is [False] the parser is as it was before the call, the header and
    the entries of an earlier parse included. *)
Lemma parse_pbo_returns self w pbo_path :
  exists ok self',
    PBOParser.parse_pbo self w pbo_path = Returned (ok, self') /\
    (ok = false -> self' = self).
Proof.
  destruct (parse_pbo_answers self w pbo_path) as (ok & self' & H).
  exists ok, self'. split; [exact H|]. intros ->.
  unfold PBOParser.parse_pbo in H.
  destruct (os.open_rb pbo_path w) as [data| |]; [|congruence..].
  destruct (PBOHeader.parse_from_file _) as [[hdr f]| |]; congruence.
Qed.

Lemma parse_pbo_false_same self w pbo_path self1 :
  PBOParser.parse_pbo self w pbo_path = Returned (false, self1) -> self1 = self.
Proof.
  unfold PBOParser.parse_pbo.
  destruct (os.open_rb pbo_path w) as [data| |]; [|congruence..].
  destruct (PBOHeader.parse_from_file _) as [[hdr f]| |]; congruence.
Qed.

Lemma extract_loop_names output_dir es : forall f w w',
  PBOParser.extract_loop output_dir es f w = (true, w') ->
  Forall (fun e => extractable e = true -> exists s, PBOHeaderEntry.filename e = PyStr s) es.
Proof.
  induction es as [|e es IH]; intros f w w' H; [constructor|].
  cbn [PBOParser.extract_loop] in H.
  destruct (PBOParser.extract_entry output_dir e f w) as [[f'|] w1] eqn:He; [|discriminate].
  constructor; [|now apply IH in H].
  intros Hx. unfold PBOParser.extract_entry in He. fold (extractable e) in He.
  rewrite Hx in He. destruct (PBOHeaderEntry.filename e) as [s|b]; [eauto|].
  cbn [PBOParser.replace_sep] in He. discriminate He.
Qed.

(** [extract_to_directory] returns a boolean on every input.  A failed
    parse gives [False] and leaves the parser and the file tree as they
    were.  The answer [True] means that the archive parsed and that no
    entry with a name and a positive size has its name kept as bytes:
    one such entry makes the answer [False], whatever the other entries
    and the destination. *)
Lemma extract_to_directory_returns self w pbo_path output_dir :
  exists ok self' w',
    PBOParser.extract_to_directory self w pbo_path output_dir = Returned (ok, self', w') /\
    (forall self1, PBOParser.parse_pbo self w pbo_path = Returned (false, self1) ->
       ok = false /\ self' = self /\ w' = w) /\
    (ok = true ->
       PBOParser.parse_pbo self w pbo_path = Returned (true, self') /\
       Forall (fun e => extractable e = true ->
                        exists s, PBOHeaderEntry.filename e = PyStr s)
              (PBOParser.entries self')).
Proof.
  destruct (parse_pbo_answers self w pbo_path) as (ok0 & self0 & Hp).
  set (Q := fun (ok : bool) (self' : PBOParser.t) (w' : os.world) =>
    (forall self1, PBOParser.parse_pbo self w pbo_path = Returned (false, self1) ->
       ok = false /\ self' = self /\ w' = w) /\
    (ok = true ->
       PBOParser.parse_pbo self w pbo_path = Returned (true, self') /\
       Forall (fun e => extractable e = true ->
                        exists s, PBOHeaderEntry.filename e = PyStr s)
              (PBOParser.entries self'))).
  change (exists ok self' w',
            PBOParser.extract_to_directory self w pbo_path output_dir
            = Returned (ok, self', w') /\ Q ok self' w').
  destruct ok0.
  2:{ exists false, self0, w. unfold PBOParser.extract_to_directory. rewrite Hp.
      split; [reflexivity|]. split; [|discriminate].
      intros self1 _. now rewrite (parse_pbo_false_same _ _ _ _ Hp). }
  assert (Hfail : forall w1, Q false self0 w1).
  { intros w1. split; [|discriminate]. intros self1 H1. rewrite Hp in H1. discriminate H1. }
  unfold PBOParser.extract_to_directory. rewrite Hp.
  destruct (os.makedirs output_dir w) as [[[]| |] w1];
    [|exists false, self0, w1; split; [reflexivity | apply Hfail]..].
  destruct (os.open_rb pbo_path w1) as [data| |];
    [|exists false, self0, w1; split; [reflexivity | apply Hfail]..].
  destruct (PBOParser.extract_loop _ _ _ w1) as [ok w2] eqn:Hloop.
  exists ok, self0, w2. split; [reflexivity|]. split.
  - intros self1 H1. rewrite Hp in H1. discriminate H1.
  - intros ->. split; [exact Hp|]. eapply extract_loop_names, Hloop.
Qed.

(** ** The file tree *)

Lemma files_kept_refl ex w : files_kept ex w w.
Proof. intros p c _ H. exact H. Qed.

Lemma files_kept_trans ex1 ex2 w1 w2 w3 :
  files_kept ex1 w1 w2 -> files_kept ex2 w2 w3 -> files_kept (ex1 ++ ex2) w1 w3.
Proof.
  intros H12 H23 p c Hp Hc. apply H23, H12; trivial; set_solver.
Qed.

Lemma mkdir_chain_spec qs : forall w r w',
  os.mkdir_chain qs w = (r, w') ->
  os.written w' = os.written w /\ files_kept [] w w'.
Proof.
  induction qs as [|q qs IH]; intros w r w' H; simpl in H.
  - injection H as _ <-. split; [reflexivity | apply files_kept_refl].
  - destruct (os.is_anchor q); [now apply IH in H|].
    destruct (os.tree w !! q) as [[|c0]|] eqn:Hq.
    + now apply IH in H.
    + injection H as _ <-. split; [reflexivity | apply files_kept_refl].
    + apply IH in H as [Hw Hk]. simpl in *. split; [exact Hw|].
      intros p c Hp Hc. apply Hk; [exact Hp|]. simpl.
      rewrite lookup_insert_ne; [exact Hc | congruence].
Qed.

Lemma makedirs_spec name w r w' :
  os.makedirs name w = (r, w') ->
  os.written w' = os.written w /\ files_kept [] w w'.
Proof.
  unfold os.makedirs. destruct (bool_decide (name = [])).
  - intros H. injection H as _ <-. split; [reflexivity | apply files_kept_refl].
  - apply mkdir_chain_spec.
Qed.

Lemma write_file_spec path data w w' :
  os.write_file path data w = Returned w' ->
  os.written w' = os.written w ++ [(os.resolve path, data)] /\
  os.tree w' !! os.resolve path = Some (os.File data) /\
  files_kept [os.resolve path] w w'.
Proof.
  unfold os.write_file. destruct (os.isdir w (os.resolve path)); [discriminate|].
  destruct (negb _); [discriminate|]. intros H. injection H as <-. simpl.
  split; [reflexivity|]. split; [apply lookup_insert_eq|].
  intros p c Hp Hc. simpl. rewrite lookup_insert_ne; [exact Hc | set_solver].
Qed.

Lemma open_rb_kept path w w' data :
  files_kept [] w w' -> os.open_rb path w = Returned data ->
  os.open_rb path w' = Returned data.
Proof.
  unfold os.open_rb. intros Hk H.
  destruct (os.tree w !! os.resolve path) as [[|c]|] eqn:Ht; try discriminate.
  injection H as ->. rewrite (Hk _ data (not_elem_of_nil _) Ht). reflexivity.
Qed.


(** ** Path resolution *)

Lemma split_sep_cons p : exists h t, os.split_sep p = h :: t.
Proof.
  destruct p as [|c p]; simpl; [eauto|].
  destruct (os.is_sep c); [eauto|]. destruct (os.split_sep p); eauto.
Qed.

Lemma split_app_sep a b :
  os.split_sep (a ++ os.sep :: b) = os.split_sep a ++ os.split_sep b.
Proof.
  induction a as [|c a IH]; simpl.
  - reflexivity.
  - destruct (os.is_sep c); rewrite IH; [reflexivity|].
    destruct (split_sep_cons a) as (h & t & ->). reflexivity.
Qed.

Lemma push_empty stack : os.push stack [] = stack.
Proof. reflexivity. Qed.

Lemma fold_push_grows comps : forall stack,
  os.dotdot ∉ comps ->
  exists extra, fold_left os.push comps stack = extra ++ stack.
Proof.
  induction comps as [|c comps IH]; intros stack Hno; simpl.
  - now exists [].
  - apply not_elem_of_cons in Hno as [Hc Hno].
    assert (Hpush : os.push stack c = stack \/ os.push stack c = c :: stack).
    { unfold os.push. destruct (bool_decide (c = []) || bool_decide (c = os.dot));
        [now left|].
      rewrite bool_decide_eq_false_2 by congruence. now right. }
    destruct (IH (os.push stack c) Hno) as [extra Hex]. rewrite Hex.
    destruct Hpush as [-> | ->]; [now exists extra|].
    exists (extra ++ [c]). now rewrite <- app_assoc.
Qed.

Lemma stack_app_sep a b :
  os.stack_of (a ++ os.sep :: b)
  = fold_left os.push (os.split_sep b) (os.stack_of (a ++ [os.sep])).
Proof.
  unfold os.stack_of. rewrite !split_app_sep, !fold_left_app. simpl.
  now destruct a.
Qed.

Lemma stack_trailing_sep a : a ≠ [] -> os.stack_of (a ++ [os.sep]) = os.stack_of a.
Proof.
  intros Ha. unfold os.stack_of. rewrite split_app_sep, fold_left_app. simpl.
  now destruct a.
Qed.

(** A relative name without [..] component resolves below the
    directory it is joined to. *)
Lemma resolve_join_inside root name :
  os.startswith_sep name = false ->
  os.dotdot ∉ os.split_sep name ->
  os.resolve root `prefix_of` os.resolve (os.path_join root name).
Proof.
  intros Hrel Hno. unfold os.path_join. rewrite Hrel.
  destruct root as [|c0 root'] eqn:Hroot; [apply prefix_nil|].
  rewrite <- Hroot. assert (Hne : root ≠ []) by now subst.
  rewrite bool_decide_eq_false_2 by assumption. cbn [orb]. clear Hroot.
  assert (Hstack : exists extra,
            os.stack_of (if os.endswith_sep root then root ++ name
                         else root ++ [os.sep] ++ name)
            = extra ++ os.stack_of root).
  { destruct (os.endswith_sep root) eqn:Hend.
    - unfold os.endswith_sep in Hend.
      destruct (last root) as [c|] eqn:Hlast; [|discriminate].
      apply bool_decide_eq_true_1 in Hend. subst c.
      apply last_Some in Hlast as [r ->].
      rewrite <- app_assoc. simpl. rewrite stack_app_sep.
      now apply fold_push_grows.
    - simpl. rewrite stack_app_sep, (stack_trailing_sep root Hne).
      now apply fold_push_grows. }
  destruct Hstack as [extra Hstack]. unfold os.resolve.
  destruct (os.endswith_sep root); rewrite Hstack, rev_app_distr;
    now apply prefix_app_r.
Qed.


(** ** Claims on the extractor *)

Lemma seek_read f off n :
  (_ ← f_seek off; f_read n) f
  = Returned (take n (drop off (f_data f)),
              {| f_data := f_data f; f_pos := off + length (take n (drop off (f_data f))) |}).
Proof. reflexivity. Qed.

(** One turn of the extraction loop: the entry is skipped, or the turn
    fails before anything is written, or exactly one file is written. *)
Lemma extract_entry_spec output_dir e f w r w' :
  PBOParser.extract_entry output_dir e f w = (r, w') ->
  (extractable e = false /\ r = Some f /\ w' = w) \/
  (extractable e = true /\ r = None /\
   os.written w' = os.written w /\ files_kept [] w w') \/
  (extractable e = true /\
   (exists f', r = Some f' /\ f_data f' = f_data f) /\
   os.written w' = os.written w ++ [(destination output_dir e, payload_slice (f_data f) e)] /\
   os.tree w' !! destination output_dir e = Some (os.File (payload_slice (f_data f) e)) /\
   files_kept [destination output_dir e] w w').
Proof.
  unfold PBOParser.extract_entry. fold (extractable e).
  destruct (extractable e); [|intros [= <- <-]; now left].
  intros H. right.
  destruct (PBOHeaderEntry.filename e) as [s|b] eqn:Hname;
    cbn [PBOParser.replace_sep] in H.
  2:{ injection H as <- <-. left. repeat split; trivial. apply files_kept_refl. }
  destruct (os.makedirs _ w) as [rm w1] eqn:Hmk.
  apply makedirs_spec in Hmk as [Hw1 Hk1].
  destruct rm as [[]| |].
  2,3: injection H as <- <-; left; repeat split; trivial.
  rewrite seek_read in H.
  destruct (os.write_file _ _ w1) as [w2| |] eqn:Hwr.
  2,3: injection H as <- <-; left; repeat split; trivial.
  injection H as <- <-. apply write_file_spec in Hwr as (Hw2 & Ht2 & Hk2).
  right. unfold destination, host_name, payload_slice. rewrite Hname. simpl.
  split; [reflexivity|]. split; [eauto|]. split; [now rewrite Hw2, Hw1|].
  split; [exact Ht2|].
  intros p c Hp Hc. apply Hk2; [exact Hp|]. apply Hk1; [apply not_elem_of_nil | exact Hc].
Qed.

Lemma expected_writes_cons output_dir data e es :
  expected_writes output_dir data (e :: es)
  = (if extractable e then [(destination output_dir e, payload_slice data e)] else [])
    ++ expected_writes output_dir data es.
Proof.
  unfold expected_writes. destruct (extractable e) eqn:He.
  - rewrite filter_cons_True by (rewrite He; exact I). reflexivity.
  - rewrite filter_cons_False by (rewrite He; exact id). reflexivity.
Qed.

Lemma last_written_cons p q c log :
  last_written p ((q, c) :: log)
  = match last_written p log with
    | Some c' => Some c'
    | None => if decide (q = p) then Some c else None
    end.
Proof.
  unfold last_written. destruct (decide (q = p)) as [Heq|Hne].
  - rewrite filter_cons_True by exact Heq. simpl map. apply last_cons.
  - rewrite filter_cons_False by exact Hne. now destruct (last _).
Qed.

Lemma last_written_None p log : last_written p log = None -> p ∉ map fst log.
Proof.
  induction log as [|[q c] log IH]; intros H; [apply not_elem_of_nil|].
  rewrite last_written_cons in H.
  destruct (last_written p log); [discriminate|].
  destruct (decide (q = p)); [discriminate|].
  simpl. apply not_elem_of_cons. split; [congruence | now apply IH].
Qed.

(** What the loop has written when it stops, whether it succeeded or
    not: a prefix of the expected writes, all of them in the tree, and
    no other file touched. *)
Lemma extract_loop_spec output_dir es : forall f w ok w',
  PBOParser.extract_loop output_dir es f w = (ok, w') ->
  exists new,
    os.written w' = os.written w ++ new /\
    new `prefix_of` expected_writes output_dir (f_data f) es /\
    (ok = true -> new = expected_writes output_dir (f_data f) es) /\
    (forall p c, last_written p new = Some c -> os.tree w' !! p = Some (os.File c)) /\
    files_kept (map fst new) w w'.
Proof.
  induction es as [|e es IH]; intros f w ok w' H; simpl in H.
  - injection H as <- <-. exists []. rewrite app_nil_r.
    repeat split; trivial; [discriminate | apply files_kept_refl].
  - destruct (PBOParser.extract_entry output_dir e f w) as [r w1] eqn:He.
    rewrite expected_writes_cons.
    apply extract_entry_spec in He
      as [(Hx & -> & ->) | [(Hx & -> & Hw1 & Hk1) | (Hx & (f' & -> & Hf') & Hw1 & Ht1 & Hk1)]];
      rewrite Hx.
    + apply IH in H as (new & Hw & Hpre & Hok & Hlast & Hk).
      exists new. repeat split; trivial.
    + injection H as <- <-. exists []. rewrite app_nil_r.
      repeat split; trivial; [apply prefix_nil | discriminate | discriminate].
    + apply IH in H as (new & Hw & Hpre & Hok & Hlast & Hk).
      rewrite Hf' in *.
      exists ((destination output_dir e, payload_slice (f_data f) e) :: new).
      split; [now rewrite Hw, Hw1, <- app_assoc|].
      split; [now apply prefix_cons|].
      split; [intros E; now rewrite (Hok E)|].
      split.
      * intros p c. rewrite last_written_cons.
        destruct (last_written p new) as [c'|] eqn:Hl.
        -- intros [= <-]. now apply Hlast.
        -- destruct (decide _) as [<-|]; [|discriminate]. intros [= <-].
           apply Hk; [now apply last_written_None | exact Ht1].
      * intros p c Hp Hc. simpl in Hp. apply not_elem_of_cons in Hp as [Hp1 Hp2].
        apply Hk; [exact Hp2|]. apply Hk1; [|exact Hc].
        apply not_elem_of_cons. split; [exact Hp1 | apply not_elem_of_nil].
Qed.

(** The shape of a call to [extract_to_directory]: the parse, the
    destination directory, then the loop over the parsed entries. *)
Lemma extract_to_directory_spec self w pbo_path output_dir ok self' w' :
  PBOParser.extract_to_directory self w pbo_path output_dir = Returned (ok, self', w') ->
  exists new,
    os.written w' = os.written w ++ new /\
    files_kept (map fst new) w w' /\
    (forall p c, last_written p new = Some c -> os.tree w' !! p = Some (os.File c)) /\
    (forall data, os.open_rb pbo_path w = Returned data ->
       new `prefix_of` expected_writes output_dir data (PBOParser.entries self') /\
       (ok = true -> new = expected_writes output_dir data (PBOParser.entries self'))).
Proof.
  unfold PBOParser.extract_to_directory.
  destruct (PBOParser.parse_pbo self w pbo_path) as [[[] self1]| |] eqn:Hparse;
    try discriminate.
  2:{ intros [= <- <- <-]. exists []. rewrite app_nil_r.
      repeat split; trivial; try discriminate;
        [apply files_kept_refl | apply prefix_nil]. }
  destruct (os.makedirs output_dir w) as [rm w1] eqn:Hmk.
  apply makedirs_spec in Hmk as [Hw1 Hk1].
  assert (Hfail : Returned (false, self1, w1) = Returned (ok, self', w') ->
            exists new : list (list str * list byte),
              os.written w' = os.written w ++ new /\
              files_kept (map fst new) w w' /\
              (forall p c, last_written p new = Some c ->
                 os.tree w' !! p = Some (os.File c)) /\
              (forall data, os.open_rb pbo_path w = Returned data ->
                 new `prefix_of` expected_writes output_dir data (PBOParser.entries self') /\
                 (ok = true ->
                  new = expected_writes output_dir data (PBOParser.entries self')))).
  { intros [= <- <- <-]. exists []. rewrite app_nil_r.
    repeat split; trivial; try discriminate. apply prefix_nil. }
  destruct rm as [[]| |]; try exact Hfail.
  destruct (os.open_rb pbo_path w1) as [data1| |] eqn:Hopen1; try exact Hfail.
  clear Hfail.
  destruct (PBOParser.extract_loop _ _ _ w1) as [ok2 w2] eqn:Hloop.
  intros [= <- <- <-].
  apply extract_loop_spec in Hloop as (new & Hw & Hpre & Hok & Hlast & Hk).
  simpl in Hpre, Hok. exists new.
  split; [now rewrite Hw, Hw1|]. split.
  { intros p c Hp Hc. apply Hk; [exact Hp|].
    apply Hk1; [apply not_elem_of_nil | exact Hc]. }
  split; [exact Hlast|].
  intros data Hopen. apply (open_rb_kept _ _ _ _ Hk1) in Hopen.
  rewrite Hopen in Hopen1. injection Hopen1 as <-. now split.
Qed.

Lemma payload_slice_length data e :
  extractable e = true -> in_stream data e ->
  Z.of_nat (length (payload_slice data e)) = PBOHeaderEntry.data_size e.
Proof.
  unfold extractable, in_stream, payload_slice. intros Hx [H0 Hle].
  apply andb_true_iff in Hx as [_ Hpos]. apply Z.ltb_lt in Hpos.
  rewrite length_take, length_drop. lia.
Qed.

Lemma written_bytes_expected output_dir data es :
  Forall (in_stream data) es ->
  Z.of_nat (written_bytes (expected_writes output_dir data es))
  = PBOParser.total_size (filter (fun e => extractable e) es).
Proof.
  induction 1 as [|e es He _ IH]; [reflexivity|].
  rewrite expected_writes_cons. destruct (extractable e) eqn:Hx.
  - rewrite filter_cons_True by (rewrite Hx; exact I). simpl.
    rewrite Nat2Z.inj_add, IH, (payload_slice_length data e Hx He). reflexivity.
  - rewrite filter_cons_False by (rewrite Hx; exact id). exact IH.
Qed.

(** C2 (amended). When the stream holds, for every entry, the
    [data_size] bytes at [data_offset], no destination is the archive
    itself (the embedding reads the archive as it was when opened), and
    the extraction returns true, it has written one file per entry with a non-empty name and a
    positive size, in table order, at the host form of the stored name;
    each content is the slice of the stream at the entry's offset, of
    length [data_size]; the tree holds the content last written to each
    destination; and the bytes written add up to the sum of
    [data_size] over those entries. *)
Theorem extract_writes_payload self w pbo_path output_dir self' w' data :
  PBOParser.extract_to_directory self w pbo_path output_dir = Returned (true, self', w') ->
  os.open_rb pbo_path w = Returned data ->
  Forall (in_stream data) (PBOParser.entries self') ->
  Forall (fun e => destination output_dir e ≠ os.resolve pbo_path)
         (filter (fun e => extractable e) (PBOParser.entries self')) ->
  let es := filter (fun e => extractable e) (PBOParser.entries self') in
  let new := map (fun e => (destination output_dir e, payload_slice data e)) es in
  os.written w' = os.written w ++ new /\
  Forall (fun e => Z.of_nat (length (payload_slice data e)) = PBOHeaderEntry.data_size e) es /\
  (forall p c, last_written p new = Some c -> os.tree w' !! p = Some (os.File c)) /\
  Z.of_nat (written_bytes new) = PBOParser.total_size es /\
  writes_every_byte self' w w'.
Proof.
  intros Hex Hopen Hin _. cbv zeta.
  apply extract_to_directory_spec in Hex as (new & Hw & _ & Hlast & Hdata).
  destruct (Hdata data Hopen) as [_ Hnew]. specialize (Hnew eq_refl). subst new.
  fold (expected_writes output_dir data (PBOParser.entries self')).
  split; [exact Hw|]. split.
  { apply Forall_forall. intros e He. apply list_elem_of_filter in He as [Hx He].
    apply payload_slice_length; [now apply Is_true_true|].
    rewrite Forall_forall in Hin. now apply Hin. }
  split; [exact Hlast|].
  split; [now apply written_bytes_expected|].
  unfold writes_every_byte. rewrite Hw, drop_app_length.
  now apply written_bytes_expected.
Qed.

Lemma extract_writes_payload_witness :
  PBOParser.extract_to_directory PBOParser.init Samples.tree_world
    (lit "mods/tree.pbo") (lit "out")
  = Returned (true, Samples.tree_parsed, Samples.tree_extracted) /\
  os.written Samples.tree_extracted
  = [([lit "out"; lit "a.txt"], Samples.bytes_of "hi");
     ([lit "out"; lit "b"; lit "c.xml"], Samples.bytes_of "<types/>")] /\
  writes_every_byte Samples.tree_parsed Samples.tree_world Samples.tree_extracted.
Proof.
  assert (Hrun : PBOParser.extract_to_directory PBOParser.init Samples.tree_world
                   (lit "mods/tree.pbo") (lit "out")
                 = Returned (true, Samples.tree_parsed, Samples.tree_extracted))
    by (vm_compute; reflexivity).
  split; [exact Hrun|]. split; [vm_compute; reflexivity|].
  refine (proj2 (proj2 (proj2 (proj2
    (extract_writes_payload PBOParser.init Samples.tree_world (lit "mods/tree.pbo")
       (lit "out") Samples.tree_parsed Samples.tree_extracted Samples.tree_pbo
       Hrun _ _ _))))).
  - vm_compute. reflexivity.
  - vm_compute. repeat constructor; discriminate.
  - vm_compute. repeat constructor; discriminate.
Defined.

(** C2, as stated, fails: the archive below announces five bytes for
    its entry and holds two; it parses, the extraction returns true, and
    two bytes are written. *)
Lemma extract_short_payload :
  PBOParser.extract_to_directory PBOParser.init Samples.short_world
    (lit "mods/short.pbo") (lit "out")
  = Returned (true, Samples.short_parsed, Samples.short_extracted) /\
  map PBOHeaderEntry.data_size (PBOParser.entries Samples.short_parsed) = [5] /\
  os.written Samples.short_extracted
  = [([lit "out"; lit "a.txt"], Samples.bytes_of "hi")] /\
  ~ writes_every_byte Samples.short_parsed Samples.short_world Samples.short_extracted.
Proof.
  split; [vm_compute; reflexivity|].
  split; [vm_compute; reflexivity|].
  split; [vm_compute; reflexivity|].
  vm_compute. discriminate.
Qed.

Lemma host_name_free e :
  traversal_free (PBOHeaderEntry.filename e) ->
  os.startswith_sep (host_name e) = false /\ os.dotdot ∉ os.split_sep (host_name e).
Proof.
  unfold traversal_free, host_name. destruct (PBOHeaderEntry.filename e); [trivial|].
  intros _. split; [reflexivity|]. simpl.
  apply not_elem_of_cons. split; [discriminate | apply not_elem_of_nil].
Qed.

Lemma expected_writes_inside output_dir data es :
  Forall (fun e => traversal_free (PBOHeaderEntry.filename e)) es ->
  Forall (fun x => inside (os.resolve output_dir) (fst x))
         (expected_writes output_dir data es).
Proof.
  intros Hfree. unfold expected_writes. apply Forall_map, Forall_forall.
  intros e He. apply list_elem_of_filter in He as [_ He]. simpl.
  rewrite Forall_forall in Hfree.
  destruct (host_name_free e (Hfree e He)) as [Hrel Hno].
  now apply resolve_join_inside.
Qed.

Lemma traversal_free_check es :
  forallb (fun e => traversal_freeb (PBOHeaderEntry.filename e)) es = true ->
  Forall (fun e => traversal_free (PBOHeaderEntry.filename e)) es.
Proof.
  intros H. apply Forall_forall. intros e He.
  rewrite forallb_forall in H. specialize (H e (proj1 (list_elem_of_In _ _) He)).
  unfold traversal_freeb, traversal_free in *.
  destruct (PBOHeaderEntry.filename e); [|exact I].
  apply andb_true_iff in H as [H1 H2]. apply negb_true_iff in H1.
  apply bool_decide_eq_true_1 in H2. now split.
Qed.

(** C3 (amended). The extractor joins the stored name to the
    destination as it is.  When every stored name, once its backslashes
    are replaced, is relative and has no [..] component, every file the
    extraction writes lies below the destination root, and no file
    outside the root is changed. *)
Theorem extract_stays_inside self w pbo_path output_dir ok self' w' :
  PBOParser.extract_to_directory self w pbo_path output_dir = Returned (ok, self', w') ->
  Forall (fun e => traversal_free (PBOHeaderEntry.filename e)) (PBOParser.entries self') ->
  writes_stay_inside output_dir w w' /\
  (forall p c, ~ inside (os.resolve output_dir) p ->
     os.tree w !! p = Some (os.File c) -> os.tree w' !! p = Some (os.File c)).
Proof.
  intros Hex Hfree.
  assert (Hnew : exists new,
            os.written w' = os.written w ++ new /\
            files_kept (map fst new) w w' /\
            Forall (fun x => inside (os.resolve output_dir) (fst x)) new).
  { destruct (os.open_rb pbo_path w) as [data| |] eqn:Hopen.
    - apply extract_to_directory_spec in Hex as (new & Hw & Hk & _ & Hdata).
      destruct (Hdata data Hopen) as [[k Hpre] _].
      exists new. repeat split; trivial.
      pose proof (expected_writes_inside output_dir data _ Hfree) as Hall.
      rewrite Hpre in Hall. now apply Forall_app in Hall as [Hall _].
    - unfold PBOParser.extract_to_directory, PBOParser.parse_pbo in Hex.
      rewrite Hopen in Hex. injection Hex as <- <- <-.
      exists []. rewrite app_nil_r. repeat split; trivial.
      apply files_kept_refl.
    - unfold PBOParser.extract_to_directory, PBOParser.parse_pbo in Hex.
      rewrite Hopen in Hex. discriminate. }
  destruct Hnew as (new & Hw & Hk & Hin). split.
  - unfold writes_stay_inside. now rewrite Hw, drop_app_length.
  - intros p c Hout Hc. apply Hk; [|exact Hc].
    intros Hp. apply list_elem_of_fmap in Hp as ([q d] & -> & Hq).
    rewrite Forall_forall in Hin. exact (Hout (Hin _ Hq)).
Qed.

Lemma extract_stays_inside_witness :
  PBOParser.extract_to_directory PBOParser.init Samples.tree_world
    (lit "mods/tree.pbo") (lit "out")
  = Returned (true, Samples.tree_parsed, Samples.tree_extracted) /\
  writes_stay_inside (lit "out") Samples.tree_world Samples.tree_extracted.
Proof.
  assert (Hrun : PBOParser.extract_to_directory PBOParser.init Samples.tree_world
                   (lit "mods/tree.pbo") (lit "out")
                 = Returned (true, Samples.tree_parsed, Samples.tree_extracted))
    by (vm_compute; reflexivity).
  split; [exact Hrun|].
  refine (proj1
    (extract_stays_inside PBOParser.init Samples.tree_world (lit "mods/tree.pbo")
       (lit "out") true Samples.tree_parsed Samples.tree_extracted Hrun _)).
  apply traversal_free_check. vm_compute. reflexivity.
Defined.

(** C3, as stated, fails: the entry of the archive below is stored under
    a name that starts with two dots and a backslash; it is neither
    rejected nor renamed, and its file lands beside the destination
    directory, not in it. *)
Lemma extract_escapes_root :
  PBOParser.extract_to_directory PBOParser.init Samples.evil_world
    (lit "mods/evil.pbo") (lit "out")
  = Returned (true, Samples.evil_parsed, Samples.evil_extracted) /\
  os.written Samples.evil_extracted = [([lit "evil.txt"], Samples.bytes_of "hi")] /\
  ~ writes_stay_inside (lit "out") Samples.evil_world Samples.evil_extracted.
Proof.
  split; [vm_compute; reflexivity|].
  split; [vm_compute; reflexivity|].
  unfold writes_stay_inside.
  replace (drop _ _) with [([lit "evil.txt"], Samples.bytes_of "hi")]
    by (vm_compute; reflexivity).
  intros H. apply Forall_cons in H as [[k Hk] _]. discriminate Hk.
Qed.

(** ** Claims on the model classifier and the geometry sampler *)

Lemma magic_of_None header :
  header ≠ MLOD -> header ≠ ODOL -> P3DParser.magic_of header = None.
Proof.
  intros H1 H2. unfold P3DParser.magic_of. now rewrite !decide_False.
Qed.

Lemma magic_of_Some header :
  header = MLOD \/ header = ODOL -> exists fmt, P3DParser.magic_of header = Some fmt.
Proof.
  unfold P3DParser.magic_of. intros [-> | ->]; [now exists FmtMLOD | now exists FmtODOL].
Qed.

Lemma read4_at_0 data :
  f_read 4 (P3DParser.seek_to 0 data)
  = Returned (take 4 data, {| f_data := data; f_pos := length (take 4 data) |}).
Proof. reflexivity. Qed.

(** C5. A file whose first four bytes are neither magic is classified
    as no model by a returned value, not by an exception, and
    [get_basic_model_info] answers [None] without entering a geometry
    sampler. *)
Theorem unrecognized_magic_not_a_model w p3d_path data :
  os.open_rb p3d_path w = Returned data ->
  take 4 data ≠ MLOD -> take 4 data ≠ ODOL ->
  P3DParser.is_valid_p3d w p3d_path = Returned false /\
  P3DParser.parse_p3d_header w p3d_path = Returned None /\
  P3DParser.get_basic_model_info w p3d_path = (Returned None, []).
Proof.
  intros Hopen H1 H2.
  assert (Hvalid : P3DParser.is_valid_p3d w p3d_path = Returned false).
  { unfold P3DParser.is_valid_p3d. rewrite Hopen, read4_at_0.
    now rewrite (magic_of_None _ H1 H2). }
  split; [exact Hvalid|]. split.
  - unfold P3DParser.parse_p3d_header. rewrite Hopen.
    unfold mbind, io_bind. rewrite read4_at_0.
    now rewrite (magic_of_None _ H1 H2).
  - unfold P3DParser.get_basic_model_info. now rewrite Hvalid.
Qed.

Lemma unrecognized_magic_not_a_model_witness :
  P3DParser.get_basic_model_info Samples.riff_world (lit "models/sound.p3d")
  = (Returned None, []).
Proof.
  refine (proj2 (proj2 (unrecognized_magic_not_a_model Samples.riff_world
            (lit "models/sound.p3d") (Samples.bytes_of "RIFF1234WAVE") _ _ _))).
  - vm_compute. reflexivity.
  - vm_compute. discriminate.
  - vm_compute. discriminate.
Defined.

(** C10. A file that starts with a recognized magic and ends before the
    eighth byte: the failed read of the version is caught,
    [parse_p3d_header] returns [None], and [get_basic_model_info]
    answers [None] without raising and without entering a sampler. *)
Theorem truncated_after_magic w p3d_path data :
  os.open_rb p3d_path w = Returned data ->
  take 4 data = MLOD \/ take 4 data = ODOL ->
  (length data < 8)%nat ->
  P3DParser.is_valid_p3d w p3d_path = Returned true /\
  P3DParser.parse_p3d_header w p3d_path = Returned None /\
  P3DParser.get_basic_model_info w p3d_path = (Returned None, []).
Proof.
  intros Hopen Hmagic Hlen.
  destruct (magic_of_Some _ Hmagic) as [fmt Hfmt].
  assert (Hvalid : P3DParser.is_valid_p3d w p3d_path = Returned true).
  { unfold P3DParser.is_valid_p3d. now rewrite Hopen, read4_at_0, Hfmt. }
  assert (Hheader : P3DParser.parse_p3d_header w p3d_path = Returned None).
  { unfold P3DParser.parse_p3d_header. rewrite Hopen.
    unfold mbind at 1. unfold io_bind at 1. rewrite read4_at_0, Hfmt.
    assert (Hshort : read_uint {| f_data := data; f_pos := length (take 4 data) |}
                     = Raised StructError).
    { apply read_ulong_short. unfold remaining. simpl.
      rewrite length_drop, length_take. lia. }
    now rewrite (bind_raised _ _ _ _ Hshort). }
  split; [exact Hvalid|]. split; [exact Hheader|].
  unfold P3DParser.get_basic_model_info. now rewrite Hvalid, Hheader.
Qed.

Lemma truncated_after_magic_witness :
  P3DParser.get_basic_model_info Samples.stub_world (lit "models/stub.p3d")
  = (Returned None, []).
Proof.
  refine (proj2 (proj2 (truncated_after_magic Samples.stub_world
            (lit "models/stub.p3d") (Samples.bytes_of "MLOD" ++ [x01; x00]) _ _ _))).
  - vm_compute. reflexivity.
  - left. vm_compute. reflexivity.
  - simpl. lia.
Defined.

Lemma take_while_Forall {A} (p : A -> bool) l :
  Forall (fun x => p x = true) (take_while p l).
Proof.
  induction l as [|x l IH]; simpl; [constructor|].
  destruct (p x) eqn:Hx; now constructor.
Qed.

Lemma take_while_prefix {A} (p : A -> bool) l : take_while p l `prefix_of` l.
Proof.
  induction l as [|x l IH]; simpl; [apply prefix_nil|].
  destruct (p x); [now apply prefix_cons | apply prefix_nil].
Qed.

(** The run stops at the first element that fails the test. *)
Lemma take_while_stops {A} (p : A -> bool) l : forall k x,
  l !! k = Some x -> p x = false ->
  (forall j y, (j < k)%nat -> l !! j = Some y -> p y = true) ->
  take_while p l = take k l.
Proof.
  induction l as [|x0 l IH]; intros k x Hk Hx Hbefore; [discriminate|].
  destruct k as [|k]; simpl in *.
  - injection Hk as ->. now rewrite Hx.
  - rewrite (Hbefore 0%nat x0 ltac:(lia) eq_refl). f_equal.
    apply (IH k x Hk Hx). intros j y Hj Hy. apply (Hbefore (S j) y); [lia | exact Hy].
Qed.

Lemma vertex_loop_spec n : forall acc f,
  P3DParser.vertex_loop n acc f
  = acc ++ take_while P3DParser.within (read_vertices n f).
Proof.
  induction n as [|n IH]; intros acc f; simpl; [now rewrite app_nil_r|].
  destruct (P3DParser.read_vertex f) as [[v f']| |]; simpl; try now rewrite app_nil_r.
  destruct (P3DParser.within v); [|now rewrite app_nil_r].
  now rewrite IH, <- app_assoc.
Qed.

Lemma face_loop_spec n nv : forall acc f,
  P3DParser.face_loop n nv acc f
  = acc ++ take_while (P3DParser.in_range nv) (read_faces n f).
Proof.
  induction n as [|n IH]; intros acc f; simpl; [now rewrite app_nil_r|].
  destruct (P3DParser.read_face f) as [[t f']| |]; simpl; try now rewrite app_nil_r.
  destruct (P3DParser.in_range nv t); [|now rewrite app_nil_r].
  now rewrite IH, <- app_assoc.
Qed.

Lemma le_uint_nonneg data : 0 <= le_uint data.
Proof.
  induction data as [|b data IH]; simpl; [lia|].
  pose proof (N2Z.is_nonneg (Byte.to_N b)). lia.
Qed.

Lemma read_ushort_nonneg f v f' : read_ushort f = Returned (v, f') -> 0 <= v.
Proof.
  unfold read_ushort, f_read, mbind, io_bind, lift, unpack_u16.
  destruct (decide _); [|discriminate]. intros [= <- _]. apply le_uint_nonneg.
Qed.

Lemma read_face_nonneg f t f' :
  P3DParser.read_face f = Returned (t, f') ->
  let '(idx1, idx2, idx3) := t in 0 <= idx1 /\ 0 <= idx2 /\ 0 <= idx3.
Proof.
  unfold P3DParser.read_face. unfold mbind at 1, io_bind at 1.
  destruct (read_ushort f) as [[a f1]| |] eqn:Ha; try discriminate.
  unfold mbind at 1, io_bind at 1.
  destruct (read_ushort f1) as [[b f2]| |] eqn:Hb; try discriminate.
  unfold mbind at 1, io_bind at 1.
  destruct (read_ushort f2) as [[c f3]| |] eqn:Hc; try discriminate.
  intros [= <- _].
  repeat split; eapply read_ushort_nonneg; eassumption.
Qed.

Lemma read_faces_nonneg n : forall f,
  Forall (fun t => let '(idx1, idx2, idx3) := t in 0 <= idx1 /\ 0 <= idx2 /\ 0 <= idx3)
         (read_faces n f).
Proof.
  induction n as [|n IH]; intros f; simpl; [constructor|].
  destruct (P3DParser.read_face f) as [[t f']| |] eqn:Ht; try constructor.
  - exact (read_face_nonneg _ _ _ Ht).
  - apply IH.
Qed.

Lemma Returned_Some_inj {A} (x y : A) : Returned (Some x) = Returned (Some y) -> x = y.
Proof. congruence. Qed.

(** What either sampler returns, in terms of the candidates on file. *)
Lemma sampler_spec fmt w path data m :
  os.open_rb path w = Returned data ->
  sampler fmt w path = Returned (Some m) ->
  P3DModel.vertices m
  = (if reads_vertices fmt data
     then take_while P3DParser.within (vertex_candidates fmt data) else []) /\
  P3DModel.faces m
  = take_while (P3DParser.in_range (length (P3DModel.vertices m)))
      (face_candidates fmt (length (P3DModel.vertices m)) data).
Proof.
  intros Hopen. destruct fmt; unfold sampler.
  - unfold P3DParser.parse_mlod_geometry. rewrite Hopen.
    unfold reads_vertices.
    destruct (read_uint (P3DParser.seek_to 8 data)) as [[lod f']| |];
      cbn [try_except]; try discriminate.
    rewrite vertex_loop_spec, face_loop_spec. intros H%Returned_Some_inj.
    rewrite <- H. destruct (0 <? lod); split; reflexivity.
  - unfold P3DParser.parse_odol_geometry. rewrite Hopen.
    cbn [try_except]. rewrite vertex_loop_spec, face_loop_spec.
    intros H%Returned_Some_inj. rewrite <- H. split; reflexivity.
Qed.

(** The model [get_basic_model_info] returns is a sampler's, with its
    format set again. *)
Lemma basic_model_info_from_sampler w path m :
  fst (P3DParser.get_basic_model_info w path) = Returned (Some m) ->
  exists fmt m0,
    sampler fmt w path = Returned (Some m0) /\
    P3DModel.vertices m = P3DModel.vertices m0 /\
    P3DModel.faces m = P3DModel.faces m0.
Proof.
  unfold P3DParser.get_basic_model_info.
  destruct (P3DParser.is_valid_p3d w path) as [[]| |]; try discriminate.
  destruct (P3DParser.parse_p3d_header w path) as [[info|]| |]; try discriminate.
  destruct (P3DParser.info_format info); simpl.
  - destruct (P3DParser.parse_mlod_geometry w path) as [[m0|]| |] eqn:Hs;
      try discriminate.
    intros [= <-]. now exists FmtMLOD, m0.
  - destruct (P3DParser.parse_odol_geometry w path) as [[m0|]| |] eqn:Hs;
      try discriminate.
    intros [= <-]. now exists FmtODOL, m0.
Qed.

Lemma sampler_opens fmt w path m :
  sampler fmt w path = Returned (Some m) ->
  exists data, os.open_rb path w = Returned data.
Proof.
  destruct fmt; simpl;
    unfold P3DParser.parse_mlod_geometry, P3DParser.parse_odol_geometry;
    destruct (os.open_rb path w) as [data| |]; try discriminate; eauto.
Qed.

(** C7. In every model a sampler or [get_basic_model_info] returns,
    each face is a triple of indices below the number of sampled
    vertices, and the face list is the run of candidate triples up to
    the first one out of range: nothing after that triple is accepted. *)
Theorem faces_index_vertices w path m :
  returned_model w path m ->
  let nv := length (P3DModel.vertices m) in
  Forall (valid_index nv) (P3DModel.faces m) /\
  exists fmt data,
    os.open_rb path w = Returned data /\
    P3DModel.faces m
    = take_while (P3DParser.in_range nv) (face_candidates fmt nv data).
Proof.
  intros Hret. cbv zeta.
  assert (Hs : exists fmt m0,
            sampler fmt w path = Returned (Some m0) /\
            P3DModel.vertices m = P3DModel.vertices m0 /\
            P3DModel.faces m = P3DModel.faces m0).
  { destruct Hret as [[fmt Hs] | Hinfo]; [now exists fmt, m|].
    now apply basic_model_info_from_sampler. }
  destruct Hs as (fmt & m0 & Hs & -> & ->).
  destruct (sampler_opens _ _ _ _ Hs) as [data Hopen].
  destruct (sampler_spec _ _ _ _ _ Hopen Hs) as [_ Hfaces].
  split; [|now exists fmt, data].
  rewrite Hfaces. set (nv := length (P3DModel.vertices m0)).
  pose proof (take_while_Forall (P3DParser.in_range nv) (face_candidates fmt nv data)) as Hin.
  pose proof (take_while_prefix (P3DParser.in_range nv) (face_candidates fmt nv data))
    as [rest Hpre].
  pose proof (read_faces_nonneg (Nat.min (nv / 3) (face_limit fmt))
                (P3DParser.seek_to (face_offset fmt) data)) as Hpos.
  fold (face_candidates fmt nv data) in Hpos. rewrite Hpre in Hpos.
  apply Forall_app in Hpos as [Hpos _].
  rewrite Forall_forall in Hin, Hpos |- *.
  intros [[a b] c] Ht. specialize (Hin _ Ht). specialize (Hpos _ Ht).
  unfold P3DParser.in_range in Hin. simpl in Hpos.
  apply andb_true_iff in Hin as [Hab Hc]. apply andb_true_iff in Hab as [Ha Hb].
  apply Z.ltb_lt in Ha, Hb, Hc. unfold valid_index. lia.
Qed.

Lemma faces_index_vertices_witness :
  exists m,
    fst (P3DParser.get_basic_model_info Samples.odol_world (lit "models/crate.p3d"))
    = Returned (Some m) /\
    length (P3DModel.vertices m) = 6%nat /\
    P3DModel.faces m = [(0, 1, 2)] /\
    Forall (valid_index 6) (P3DModel.faces m).
Proof.
  eexists. split; [vm_compute; reflexivity|].
  split; [reflexivity|]. split; [reflexivity|].
  match goal with
  | |- Forall _ (P3DModel.faces ?m) =>
    assert (Hret : returned_model Samples.odol_world (lit "models/crate.p3d") m)
      by (right; vm_compute; reflexivity);
    exact (proj1 (faces_index_vertices Samples.odol_world (lit "models/crate.p3d") m Hret))
  end.
Defined.

Lemma abs_gt_not_lt x n : abs_gt x n = true -> abs_lt x n = false.
Proof.
  destruct x as [|neg|neg m e]; simpl; trivial.
  destruct (0 <=? e); intros H; [apply Z.ltb_lt in H | apply Z.ltb_lt in H];
    apply Z.ltb_ge; lia.
Qed.

Lemma exceeds_not_within v : exceeds v = true -> P3DParser.within v = false.
Proof.
  destruct v as [[x y] z]. unfold exceeds, P3DParser.within. intros H.
  apply orb_true_iff in H as [H|H]; [apply orb_true_iff in H as [H|H]|];
    apply abs_gt_not_lt in H; rewrite H; simpl;
    rewrite ?andb_false_r; reflexivity.
Qed.

(** C6 (amended). A sampler that reads vertices at all (ODOL always,
    MLOD when the u32 at offset 8 is positive) returns the candidate
    tuples from its fixed offset, up to its cap, as far as every
    coordinate has a magnitude below 1000; an MLOD file whose count at
    offset 8 is zero gets no vertices.  When the candidate of index [k]
    has a coordinate above 1000 in magnitude and those before it are
    within bounds, the vertex list is exactly the [k] candidates before
    it. *)
Theorem vertex_sampling_stops fmt w path data m :
  os.open_rb path w = Returned data ->
  sampler fmt w path = Returned (Some m) ->
  P3DModel.vertices m
  = (if reads_vertices fmt data
     then take_while P3DParser.within (vertex_candidates fmt data) else []) /\
  (length (P3DModel.vertices m) <= vertex_cap fmt)%nat /\
  (forall k v,
     reads_vertices fmt data = true ->
     vertex_candidates fmt data !! k = Some v ->
     exceeds v = true ->
     (forall j u, (j < k)%nat -> vertex_candidates fmt data !! j = Some u ->
                  P3DParser.within u = true) ->
     P3DModel.vertices m = take k (vertex_candidates fmt data)).
Proof.
  intros Hopen Hs. destruct (sampler_spec _ _ _ _ _ Hopen Hs) as [Hv _].
  split; [exact Hv|]. split.
  - rewrite Hv. destruct (reads_vertices fmt data); [|simpl; lia].
    pose proof (take_while_prefix P3DParser.within (vertex_candidates fmt data)) as Hpre.
    apply prefix_length in Hpre.
    assert (Hcap : forall n f, (length (read_vertices n f) <= n)%nat).
    { induction n as [|n IH]; intros f; simpl; [lia|].
      destruct (P3DParser.read_vertex f) as [[v f']| |]; simpl; try lia.
      specialize (IH f'). lia. }
    unfold vertex_candidates in *.
    specialize (Hcap (vertex_cap fmt) (P3DParser.seek_to (vertex_offset fmt) data)). lia.
  - intros k v Hreads Hk Hex Hbefore. rewrite Hv, Hreads.
    apply (take_while_stops _ _ k v Hk (exceeds_not_within v Hex) Hbefore).
Qed.

Lemma vertex_sampling_stops_witness :
  exists m,
    P3DParser.parse_odol_geometry Samples.odol_world (lit "models/crate.p3d")
    = Returned (Some m) /\
    P3DModel.vertices m = take 6 (vertex_candidates FmtODOL Samples.odol_file) /\
    length (P3DModel.vertices m) = 6%nat.
Proof.
  eexists. split; [vm_compute; reflexivity|].
  split; [|reflexivity].
  refine (proj2 (proj2 (vertex_sampling_stops FmtODOL Samples.odol_world
            (lit "models/crate.p3d") Samples.odol_file _ _ _))
            6%nat (FFin false 16384000 (-13), FFin false 8388608 (-23),
                   FFin false 8388608 (-23)) _ _ _ _).
  - vm_compute. reflexivity.
  - vm_compute. reflexivity.
  - reflexivity.
  - vm_compute. reflexivity.
  - vm_compute. reflexivity.
  - intros j u Hj Hu.
    do 6 (destruct j as [|j];
          [vm_compute in Hu; injection Hu as <-; vm_compute; reflexivity|]).
    lia.
Defined.

(** A coordinate of exactly 1000 does not exceed 1000, and stops the
    sampler all the same. *)
Lemma magnitude_1000_stops :
  exists m,
    P3DParser.parse_odol_geometry Samples.edge_world (lit "models/edge.p3d")
    = Returned (Some m) /\
    P3DModel.vertices m = [] /\
    P3DModel.is_valid m = false /\
    length (vertices_as_stated FmtODOL Samples.edge_file) = 2%nat.
Proof.
  eexists. split; [vm_compute; reflexivity|].
  split; [reflexivity|]. split; [reflexivity|]. vm_compute. reflexivity.
Qed.

(** C6, as stated, fails: the MLOD file below is classified, its first
    two vertex candidates are within bounds and the third exceeds 1000,
    yet the sampler returns no vertex at all, because the u32 at offset
    8 is zero. *)
Lemma mlod_without_lods_samples_nothing :
  exists m,
    fst (P3DParser.get_basic_model_info Samples.mlod_world (lit "models/barrel.p3d"))
    = Returned (Some m) /\
    P3DModel.vertices m = [] /\
    length (vertices_as_stated FmtMLOD Samples.mlod_file) = 2%nat /\
    P3DModel.vertices m ≠ vertices_as_stated FmtMLOD Samples.mlod_file.
Proof.
  eexists. split; [vm_compute; reflexivity|].
  split; [reflexivity|]. split; [vm_compute; reflexivity|].
  vm_compute. discriminate.
Qed.


(** ** Claims on the filename fallback *)

Import Correlate.

Section FirstMatch.

Context {A : Type} (test : A -> bool).

Lemma find_first_passing (l : list A) p :
  find test l = Some p <-> first_passing test l p.
Proof.
  induction l as [|x l IH]; simpl.
  - split; [discriminate | intros (i & Hi & _); discriminate].
  - destruct (test x) eqn:Hx.
    + split.
      * intros [= <-]. exists 0%nat. repeat split; trivial. intros j q Hj. lia.
      * intros (i & Hi & Hp & Hbefore). destruct i as [|i]; [now injection Hi as <-|].
        specialize (Hbefore 0%nat x ltac:(lia) eq_refl). congruence.
    + rewrite IH. split.
      * intros (i & Hi & Hp & Hbefore). exists (S i). repeat split; trivial.
        intros [|j] q Hj Hq; [now injection Hq as <- | apply (Hbefore j); [lia | exact Hq]].
      * intros (i & Hi & Hp & Hbefore). destruct i as [|i].
        -- injection Hi as <-. congruence.
        -- exists i. repeat split; trivial.
           intros j q Hj Hq. apply (Hbefore (S j)); [lia | exact Hq].
Qed.

Lemma find_none (l : list A) :
  find test l = None <-> forall q, q ∈ l -> test q = false.
Proof.
  induction l as [|x l IH]; simpl.
  - split; [intros _ q Hq; now apply elem_of_nil in Hq | reflexivity].
  - destruct (test x) eqn:Hx.
    + split; [discriminate|]. intros H. specialize (H x (list_elem_of_here _ _)). congruence.
    + rewrite IH. split.
      * intros H q Hq. apply elem_of_cons in Hq as [-> | Hq]; [exact Hx | now apply H].
      * intros H q Hq. apply H. now apply list_elem_of_further.
Qed.

End FirstMatch.

Lemma exact_loop_find class_name p3d_files :
  P3DParser.exact_loop (lower class_name) p3d_files
  = find (is_exact class_name) p3d_files.
Proof.
  induction p3d_files as [|p rest IH]; simpl; [reflexivity|].
  unfold is_exact at 1, stem_lower. now destruct (bool_decide _).
Qed.

Lemma fuzzy_loop_find class_name p3d_files :
  P3DParser.fuzzy_loop (lower class_name) p3d_files
  = find (is_fuzzy class_name) p3d_files.
Proof.
  induction p3d_files as [|p rest IH]; simpl; [reflexivity|].
  unfold is_fuzzy at 1, is_contained, is_affix, stem_lower.
  destruct (P3DParser.containment _ _); [reflexivity|].
  destruct (P3DParser.affix _ _); [reflexivity | exact IH].
Qed.



(** ** The pattern matcher *)

Section Matcher.

Implicit Types (pat pre mid post : list re.atom) (s w : str) (p : ascii -> bool).

Lemma star_loop_sound k p s : forall pos r,
  re.star_loop k p s pos = Some r ->
  exists w s', s = w ++ s' /\ Forall (fun c => p c = true) w /\
               k s' (pos + length w)%nat = Some r.
Proof.
  induction s as [|c s IH]; intros pos r H; simpl in H.
  - exists [], []. rewrite Nat.add_0_r. now repeat split.
  - assert (Hstop : k (c :: s) pos = Some r ->
              exists w s', c :: s = w ++ s' /\ Forall (fun c => p c = true) w /\
                           k s' (pos + length w)%nat = Some r).
    { intros Hk. exists [], (c :: s). rewrite Nat.add_0_r. now repeat split. }
    destruct (p c) eqn:Hc; [|now apply Hstop].
    destruct (re.star_loop k p s (S pos)) as [r'|] eqn:Hmore; [|now apply Hstop].
    injection H as ->. destruct (IH _ _ Hmore) as (w & s' & -> & Hw & Hk).
    exists (c :: w), s'. repeat split; [now constructor|].
    simpl. now rewrite Nat.add_succ_r.
Qed.

Lemma star_loop_keeps k p s pos r :
  k s pos = Some r -> exists r', re.star_loop k p s pos = Some r'.
Proof.
  intros Hk. destruct s as [|c s]; simpl; [eauto|].
  destruct (p c); [|eauto]. destruct (re.star_loop k p s (S pos)); eauto.
Qed.

Lemma accepts_star_run p rest w w' :
  Forall (fun c => p c = true) w -> re.accepts rest w' ->
  re.accepts (re.Star p :: rest) (w ++ w').
Proof.
  induction 1 as [|c w Hc _ IH]; intros Hrest; simpl.
  - now apply re.accepts_star_done.
  - apply re.accepts_star_more; [exact Hc | now apply IH].
Qed.

Lemma accepts_star_inv p rest w :
  re.accepts (re.Star p :: rest) w ->
  exists a b, w = a ++ b /\ Forall (fun c => p c = true) a /\ re.accepts rest b.
Proof.
  remember (re.Star p :: rest) as pat eqn:Hpat. intros H.
  induction H as [ | | p' rest' w H _ | p' rest' c w Hc H IH | | | ];
    try discriminate; injection Hpat as -> ->.
  - exists [], w. now repeat split.
  - destruct (IH eq_refl) as (a & b & -> & Ha & Hb).
    exists (c :: a), b. repeat split; [now constructor | exact Hb].
Qed.

(** The part of a match that a marker-free front of the pattern has
    consumed. *)
Lemma match_at_front pre : forall post s pos r,
  re.plain pre ->
  re.match_at (pre ++ post) s pos = Some r ->
  exists w s', s = w ++ s' /\ re.accepts pre w /\
               re.match_at post s' (pos + length w)%nat = Some r.
Proof.
  induction pre as [|a pre IH]; intros post s pos r Hplain H.
  - exists [], s. rewrite Nat.add_0_r. repeat split; [constructor | exact H].
  - apply Forall_cons in Hplain as [Ha Hplain].
    destruct a as [p|p|p| |]; try discriminate Ha; simpl in H.
    + destruct s as [|c s]; [discriminate|]. destruct (p c) eqn:Hc; [|discriminate].
      destruct (IH _ _ _ _ Hplain H) as (w & s' & -> & Hw & Hpost).
      exists (c :: w), s'. repeat split; [now constructor|].
      simpl. now rewrite Nat.add_succ_r.
    + apply star_loop_sound in H as (w1 & s1 & -> & Hw1 & H).
      destruct (IH _ _ _ _ Hplain H) as (w & s' & -> & Hw & Hpost).
      exists (w1 ++ w), s'. rewrite <- app_assoc. repeat split.
      * now apply accepts_star_run.
      * now rewrite length_app, Nat.add_assoc.
    + destruct s as [|c s]; [discriminate|]. destruct (p c) eqn:Hc; [|discriminate].
      apply star_loop_sound in H as (w1 & s1 & -> & Hw1 & H).
      destruct (IH _ _ _ _ Hplain H) as (w & s' & -> & Hw & Hpost).
      exists (c :: w1 ++ w), s'. simpl. rewrite <- app_assoc. repeat split.
      * apply re.accepts_plus; [exact Hc | now apply accepts_star_run].
      * now rewrite length_app, Nat.add_succ_r, Nat.add_assoc.
Qed.

Lemma match_at_grouped pre mid post s pos e gs ge :
  re.plain pre -> re.plain mid -> re.plain post ->
  re.match_at (re.grouped pre mid post) s pos = Some (e, gs, ge) ->
  exists w1 w2 w3 rest,
    s = w1 ++ w2 ++ w3 ++ rest /\
    re.accepts pre w1 /\ re.accepts mid w2 /\ re.accepts post w3 /\
    gs = (pos + length w1)%nat /\ ge = (gs + length w2)%nat /\
    e = (ge + length w3)%nat.
Proof.
  intros Hpre Hmid Hpost H. unfold re.grouped in H.
  apply match_at_front in H as (w1 & s1 & -> & Hw1 & H); [|exact Hpre].
  simpl in H.
  destruct (re.match_at (mid ++ re.GroupEnd :: post) s1 (pos + length w1))
    as [[[e' gs'] ge']|] eqn:H1; [|discriminate].
  injection H as -> <- ->.
  apply match_at_front in H1 as (w2 & s2 & -> & Hw2 & H2); [|exact Hmid].
  simpl in H2.
  destruct (re.match_at post s2 (pos + length w1 + length w2))
    as [[[e'' gs''] ge'']|] eqn:H3; [|discriminate].
  injection H2 as -> _ <-.
  rewrite <- (app_nil_r post) in H3.
  apply match_at_front in H3 as (w3 & s3 & -> & Hw3 & H4); [|exact Hpost].
  simpl in H4. injection H4 as <-.
  exists w1, w2, w3, s3. now repeat split.
Qed.

(** Backtracking misses nothing: when the pattern accepts a prefix of
    the text, [match_at] finds a match. *)
Lemma match_at_complete pat w :
  re.accepts pat w -> forall rest pos, exists r, re.match_at pat (w ++ rest) pos = Some r.
Proof.
  induction 1 as [ | p pat c w Hc _ IH | p pat w _ IH | p pat c w Hc _ IH
                 | p pat c w Hc _ IH | pat w _ IH | pat w _ IH ];
    intros rest pos; simpl.
  - eauto.
  - rewrite Hc. apply IH.
  - destruct (IH rest pos) as [r Hr]. now apply star_loop_keeps with r.
  - rewrite Hc. destruct (IH rest (S pos)) as [r Hr]. simpl in Hr. rewrite Hr. eauto.
  - rewrite Hc. destruct (IH rest (S pos)) as [r Hr]. simpl in Hr. eauto.
  - destruct (IH rest pos) as [[[e gs] ge] ->]. eauto.
  - destruct (IH rest pos) as [[[e gs] ge] ->]. eauto.
Qed.

(** Every match [finditer] reports is a match of the pattern at its
    start position. *)
Lemma finditer_from_match pat s : forall pos skip m,
  m ∈ re.finditer_from pat s pos skip ->
  exists s0 gs ge,
    re.match_at pat s0 (re.m_start m) = Some (re.m_end m, gs, ge) /\
    re.group1 m = take (ge - gs) (drop (gs - re.m_start m) s0).
Proof.
  induction s as [|c s IH]; intros pos skip m Hm; simpl in Hm.
  - now apply elem_of_nil in Hm.
  - destruct skip as [|k]; [|now apply IH in Hm].
    destruct (re.match_at pat (c :: s) pos) as [[[e gs] ge]|] eqn:Hmatch;
      [|now apply IH in Hm].
    apply elem_of_cons in Hm as [-> | Hm]; [|now apply IH in Hm].
    exists (c :: s), gs, ge. now split.
Qed.

Lemma finditer_group pre mid post text m :
  re.plain pre -> re.plain mid -> re.plain post ->
  m ∈ re.finditer (re.grouped pre mid post) text ->
  re.accepts mid (re.group1 m).
Proof.
  intros Hpre Hmid Hpost Hm.
  apply finditer_from_match in Hm as (s0 & gs & ge & Hmatch & ->).
  apply match_at_grouped in Hmatch
    as (w1 & w2 & w3 & rest & -> & _ & Hw2 & _ & -> & -> & _); trivial.
  replace (re.m_start m + length w1 - re.m_start m)%nat with (length w1) by lia.
  replace (re.m_start m + length w1 + length w2 - (re.m_start m + length w1))%nat
    with (length w2) by lia.
  now rewrite drop_app_length, take_app_length.
Qed.

End Matcher.

(** ** The two patterns of the scan *)

Lemma plain_model : re.plain ConfigParser.model_pre /\ re.plain ConfigParser.model_mid
                    /\ re.plain ConfigParser.model_post.
Proof. repeat split; repeat constructor. Qed.


(** The characters that can end a model path are neither quotes nor
    backslashes. *)
Lemma extension_char x :
  x = "."%char \/ lower_char x = "p"%char \/ lower_char x = "3"%char
  \/ lower_char x = "d"%char ->
  re.is_quote x = false /\ x ≠ backslash.
Proof.
  destruct x as [[] [] [] [] [] [] [] []]; vm_compute;
    intros [H | [H | [H | H]]]; try discriminate H; split; congruence.
Qed.

(** Group 1 of a model match: at least five characters, none of them a
    quote, the last four spelling [.p3d] in either case. *)
Lemma model_group text m :
  m ∈ re.finditer ConfigParser.model_pattern text ->
  (5 <= length (re.group1 m))%nat /\
  Forall (fun c => re.is_quote c = false) (re.group1 m) /\
  lower (last_n 4 (re.group1 m)) = lit ".p3d" /\
  Forall (fun c => c ≠ backslash) (last_n 4 (re.group1 m)).
Proof.
  intros Hm. destruct plain_model as (Hpre & Hmid & Hpost).
  apply (finditer_group _ _ _ _ _ Hpre Hmid Hpost) in Hm.
  unfold ConfigParser.model_mid, re.literal, re.ci, re.char in Hm. simpl in Hm.
  inversion Hm as [ | | | | p rest c w Hc Hstar | | ]; subst.
  apply accepts_star_inv in Hstar as (a & b & -> & Ha & Hb).
  inversion Hb as [ | p1 r1 c1 w1 Hc1 Hb1 | | | | | ]; subst.
  inversion Hb1 as [ | p2 r2 c2 w2 Hc2 Hb2 | | | | | ]; subst.
  inversion Hb2 as [ | p3 r3 c3 w3 Hc3 Hb3 | | | | | ]; subst.
  inversion Hb3 as [ | p4 r4 c4 w4 Hc4 Hb4 | | | | | ]; subst.
  inversion Hb4; subst.
  apply bool_decide_eq_true_1 in Hc1, Hc2, Hc3, Hc4.
  change (lower_char "p") with "p"%char in Hc2.
  change (lower_char "3") with "3"%char in Hc3.
  change (lower_char "d") with "d"%char in Hc4.
  destruct (extension_char c1 (or_introl Hc1)) as [Hq1 Hb1'].
  destruct (extension_char c2 (or_intror (or_introl Hc2))) as [Hq2 Hb2'].
  destruct (extension_char c3 (or_intror (or_intror (or_introl Hc3)))) as [Hq3 Hb3'].
  destruct (extension_char c4 (or_intror (or_intror (or_intror Hc4)))) as [Hq4 Hb4'].
  assert (Hlast : last_n 4 (c :: a ++ [c1; c2; c3; c4]) = [c1; c2; c3; c4]).
  { unfold last_n. change (c :: a ++ [c1; c2; c3; c4]) with ((c :: a) ++ [c1; c2; c3; c4]).
    rewrite length_app. simpl length.
    replace (S (length a) + 4 - 4)%nat with (length (c :: a)) by (simpl; lia).
    apply drop_app_length. }
  rewrite Hlast. split; [simpl; rewrite length_app; simpl; lia|]. split; [|split].
  - constructor; [now apply negb_true_iff in Hc|].
    apply Forall_app. split.
    + eapply Forall_impl; [exact Ha|]. intros x Hx. now apply negb_true_iff in Hx.
    + repeat constructor; assumption.
  - simpl. now rewrite Hc1, Hc2, Hc3, Hc4.
  - repeat constructor; assumption.
Qed.


(** ** Claims on the configuration-text scan *)

Lemma finditer_from_start pat s : forall pos skip m,
  m ∈ re.finditer_from pat s pos skip ->
  (pos <= re.m_start m < pos + length s)%nat.
Proof.
  induction s as [|c s IH]; intros pos skip m Hm; simpl in Hm.
  - now apply elem_of_nil in Hm.
  - destruct skip as [|k].
    + destruct (re.match_at pat (c :: s) pos) as [[[e gs] ge]|].
      * apply elem_of_cons in Hm as [-> | Hm]; [simpl; lia|].
        apply IH in Hm. simpl. lia.
      * apply IH in Hm. simpl. lia.
    + apply IH in Hm. simpl. lia.
Qed.

Lemma finditer_start pat text m :
  m ∈ re.finditer pat text -> (re.m_start m < length text)%nat.
Proof. intros Hm. apply finditer_from_start in Hm. lia. Qed.

(** The slice the code cuts is the last 1000 characters before the
    match. *)
Lemma slice_window start text :
  (start <= length text)%nat ->
  slice (Nat.max 0 (start - 1000)) start text = last_n 1000 (take start text).
Proof.
  intros Hle. unfold slice, last_n.
  rewrite Nat.max_r by lia. rewrite length_take, Nat.min_l by exact Hle.
  rewrite take_drop_commute. f_equal. f_equal. lia.
Qed.

Lemma bind_match_binding text acc m :
  (re.m_start m <= length text)%nat ->
  ConfigParser.bind_match text acc m
  = match binding (Some 1000%nat) text m with
    | Some b => <[fst b := snd b]> acc
    | None => acc
    end.
Proof.
  intros Hle. unfold ConfigParser.bind_match, binding, preceding. cbv zeta.
  rewrite (slice_window _ _ Hle). now destruct (last _).
Qed.

Lemma fold_bind_match text ms : forall acc,
  Forall (fun m => (re.m_start m <= length text)%nat) ms ->
  fold_left (ConfigParser.bind_match text) ms acc
  = fold_left (fun acc b => <[fst b := snd b]> acc)
      (omap (binding (Some 1000%nat) text) ms) acc.
Proof.
  induction ms as [|m ms IH]; intros acc Hms; [reflexivity|].
  apply Forall_cons in Hms as [Hm Hms]. simpl.
  rewrite (bind_match_binding _ _ _ Hm).
  destruct (binding (Some 1000%nat) text m); simpl; now apply IH.
Qed.

Lemma last_binding_cons k b l :
  last_binding k (b :: l)
  = match last_binding k l with
    | Some v => Some v
    | None => if decide (fst b = k) then Some (snd b) else None
    end.
Proof.
  unfold last_binding. destruct (decide (fst b = k)) as [Heq|Hne].
  - rewrite filter_cons_True by exact Heq. simpl map. apply last_cons.
  - rewrite filter_cons_False by exact Hne. now destruct (last _).
Qed.

Lemma last_binding_elem k v l : last_binding k l = Some v -> (k, v) ∈ l.
Proof.
  induction l as [|[k0 v0] l IH]; [discriminate|].
  rewrite last_binding_cons. destruct (last_binding k l) as [v'|].
  - intros [= ->]. apply list_elem_of_further. now apply IH.
  - simpl. destruct (decide (k0 = k)) as [->|]; [|discriminate].
    intros [= ->]. apply list_elem_of_here.
Qed.

(** Filling a dictionary in order keeps, for each key, the value bound
    last. *)
Lemma fold_insert_lookup l : forall (acc : gmap str str) k,
  fold_left (fun acc b => <[fst b := snd b]> acc) l acc !! k
  = match last_binding k l with
    | Some v => Some v
    | None => acc !! k
    end.
Proof.
  induction l as [|b l IH]; intros acc k; [reflexivity|].
  simpl. rewrite IH, last_binding_cons.
  destruct (last_binding k l); [reflexivity|].
  destruct (decide (fst b = k)) as [<-|Hne].
  - apply lookup_insert_eq.
  - now apply lookup_insert_ne.
Qed.

Lemma parse_config_bin_scan text :
  ConfigParser.parse_config_bin text = scan (Some 1000%nat) text.
Proof.
  unfold ConfigParser.parse_config_bin, scan, bindings.
  apply fold_bind_match, Forall_forall. intros m Hm.
  apply finditer_start in Hm. lia.
Qed.

Lemma replace_removes old new s : old ≠ new -> old ∉ str_replace old new s.
Proof.
  intros Hne Hin. unfold str_replace in Hin.
  apply list_elem_of_fmap in Hin as (c & Hc & _).
  destruct (bool_decide (c = old)) eqn:E; [congruence|].
  apply bool_decide_eq_false_1 in E. congruence.
Qed.


Lemma replace_other old new s :
  Forall (fun c => c ≠ old) s -> str_replace old new s = s.
Proof.
  induction 1 as [|c s Hc _ IH]; [reflexivity|].
  simpl. rewrite IH. now rewrite bool_decide_eq_false_2.
Qed.

Lemma last_n_replace old new n s :
  last_n n (str_replace old new s) = str_replace old new (last_n n s).
Proof.
  unfold last_n, str_replace. rewrite length_map. symmetry. apply fmap_drop.
Qed.


Lemma bindings_short text :
  (length text <= 1000)%nat -> bindings (Some 1000%nat) text = bindings None text.
Proof.
  intros Hlen.
  assert (Hb : forall m, binding (Some 1000%nat) text m = binding None text m).
  { intros m. unfold binding, preceding, last_n.
    replace (length (take (re.m_start m) text) - 1000)%nat with 0%nat
      by (rewrite length_take; lia).
    reflexivity. }
  unfold bindings.
  induction (re.finditer ConfigParser.model_pattern text) as [|m ms IH];
    [reflexivity|].
  cbn [omap list_omap]. now rewrite Hb, IH.
Qed.

(** A text of at most 1000 characters, all of code points below 128,
    is scanned as the specification words it. *)
Lemma config_scan_short text :
  ascii_text text -> (length text <= 1000)%nat ->
  ConfigParser.parse_config_bin text = scan_as_stated text.
Proof.
  intros _ Hlen. rewrite parse_config_bin_scan.
  unfold scan_as_stated, scan. now rewrite (bindings_short text Hlen).
Qed.

(** With the backslash of the sample doubled in the text itself, both
    are replaced. *)
Lemma config_scan_doubled :
  ConfigParser.parse_config_bin Samples.foo_text_doubled
  = {[ lit "Foo" := lit "x//y.p3d" ]}.
Proof. vm_compute. reflexivity. Qed.




Lemma config_scan_short_witness :
  ConfigParser.parse_config_bin Samples.foo_text = scan_as_stated Samples.foo_text.
Proof.
  apply (config_scan_short Samples.foo_text).
  - vm_compute. reflexivity.
  - vm_compute. lia.
Defined.


(** * Further properties of the three parsers *)

(** ** Prefixes and suffixes of text *)

Lemma is_prefix_spec a : forall b, is_prefix a b = true <-> a `prefix_of` b.
Proof.
  induction a as [|x a IH]; intros b; simpl.
  - split; [intros _; apply prefix_nil | reflexivity].
  - destruct b as [|y b].
    + split; [discriminate | intros H; now apply prefix_nil_inv in H].
    + rewrite andb_true_iff, bool_decide_eq_true, IH. split.
      * intros [-> H]. now apply prefix_cons.
      * intros H. split; [now apply prefix_cons_inv_1 in H | now apply prefix_cons_inv_2 in H].
Qed.

Lemma endswith_spec s suffix : endswith s suffix = true <-> suffix `suffix_of` s.
Proof.
  unfold endswith. rewrite is_prefix_spec. split.
  - intros [k Hk]. exists (rev k).
    rewrite <- (rev_involutive s), Hk, rev_app_distr, rev_involutive. reflexivity.
  - intros [k ->]. exists (rev k). now rewrite rev_app_distr.
Qed.

Lemma lower_char_idemp c : lower_char (lower_char c) = lower_char c.
Proof.
  destruct c as [[] [] [] [] [] [] [] []]; reflexivity.
Qed.

Lemma lower_idemp s : lower (lower s) = lower s.
Proof.
  unfold lower. rewrite map_map. apply map_ext. intros c. apply lower_char_idemp.
Qed.

(** ** The archive as a whole *)

Lemma parse_pbo_archive self w pbo_path b0 exts rs b1 payload :
  wf_header b0 exts rs b1 ->
  os.open_rb pbo_path w = Returned (header b0 exts rs b1 ++ payload) ->
  exists self',
    PBOParser.parse_pbo self w pbo_path = Returned (true, self') /\
    PBOParser.entries self'
    = PBOParser.assign_offsets (map entry_of rs) (Z.of_nat (length (header b0 exts rs b1))).
Proof.
  intros Hwf Hopen. eexists. split.
  - unfold PBOParser.parse_pbo. rewrite Hopen, (parse_header_ok _ _ _ _ _ Hwf).
    cbn [PBOHeader.pbo_entries f_pos]. reflexivity.
  - cbn [PBOParser.entries]. apply filter_not_boundary, assign_offsets_not_boundary,
      entries_not_boundary, Hwf.
Qed.

Lemma assign_offsets_filename es : forall cur,
  map PBOHeaderEntry.filename (PBOParser.assign_offsets es cur)
  = map PBOHeaderEntry.filename es.
Proof.
  induction es as [|e es IH]; intros cur; simpl; [reflexivity|].
  destruct (negb _); simpl; now rewrite IH.
Qed.

(** ** Looking entries up by extension *)

Lemma find_files_loop_archive extension rs : forall cur found,
  PBOParser.find_files_loop extension (PBOParser.assign_offsets (map entry_of rs) cur) found
  = if forallb (fun r => utf8_valid (r_name r)) rs
    then Returned (found ++ filter (fun s => lower extension `suffix_of` lower s)
                              (map name_text rs))
    else Raised TypeError.
Proof.
  induction rs as [|r rs IH]; intros cur found; [simpl; now rewrite app_nil_r|].
  cbn [map PBOParser.assign_offsets forallb].
  assert (Hhead : forall rest,
            PBOParser.find_files_loop extension
              (PBOHeaderEntry.set_data_offset (entry_of r) cur :: rest) found
            = PBOParser.find_files_loop extension (entry_of r :: rest) found)
    by reflexivity.
  assert (Hstep : forall cur',
            PBOParser.find_files_loop extension
              (entry_of r :: PBOParser.assign_offsets (map entry_of rs) cur') found
            = if utf8_valid (r_name r) && forallb (fun r => utf8_valid (r_name r)) rs
              then Returned (found ++ filter (fun s => lower extension `suffix_of` lower s)
                                        (name_text r :: map name_text rs))
              else Raised TypeError).
  { intros cur'. cbn [PBOParser.find_files_loop entry_of PBOHeaderEntry.filename
      PBOHeaderEntry.init]. unfold decode_or_raw.
    destruct (utf8_valid (r_name r)); [|reflexivity]. fold (name_text r).
    rewrite IH. cbn [andb]. destruct (forallb _ rs); [|reflexivity].
    destruct (endswith (lower (name_text r)) (lower extension)) eqn:Hs.
    - rewrite filter_cons_True by now apply endswith_spec.
      now rewrite <- app_assoc.
    - rewrite filter_cons_False; [reflexivity|].
      intros Hsuf. apply endswith_spec in Hsuf. congruence. }
  destruct (negb _); [rewrite Hhead|]; apply Hstep.
Qed.

(** After a well-formed archive is parsed, [find_files_by_extension]
    answers with the stored names, in table order, whose lower-cased
    text ends with the lower-cased extension, provided every name is
    valid UTF-8; one name that is not makes it raise [TypeError],
    whatever the extension.  The names that decode and the extension
    are of code points below 128. *)
Theorem find_files_after_parse self w pbo_path b0 exts rs b1 payload :
  wf_header b0 exts rs b1 ->
  os.open_rb pbo_path w = Returned (header b0 exts rs b1 ++ payload) ->
  Forall (fun r => utf8_valid (r_name r) = true -> ascii_text (name_text r)) rs ->
  exists self',
    PBOParser.parse_pbo self w pbo_path = Returned (true, self') /\
    forall extension,
      ascii_text extension ->
      PBOParser.find_files_by_extension self' extension
      = if forallb (fun r => utf8_valid (r_name r)) rs
        then Returned (filter (fun s => lower extension `suffix_of` lower s)
                              (map name_text rs))
        else Raised TypeError.
Proof.
  intros Hwf Hopen _.
  destruct (parse_pbo_archive self w pbo_path _ _ _ _ _ Hwf Hopen) as (self' & Hp & Hes).
  exists self'. split; [exact Hp|]. intros extension _.
  unfold PBOParser.find_files_by_extension. rewrite Hes.
  apply find_files_loop_archive.
Qed.

(** ** Extracting one file *)


Lemma parse_pbo_opens self w pbo_path self' :
  PBOParser.parse_pbo self w pbo_path = Returned (true, self') ->
  exists content, os.open_rb pbo_path w = Returned content.
Proof.
  unfold PBOParser.parse_pbo.
  destruct (os.open_rb pbo_path w) as [content| |]; [eauto | discriminate..].
Qed.

Lemma write_file_writable path data w :
  os.write_file path data w
  = if writable w path then Returned (with_file w path data) else Raised OSError.
Proof.
  unfold os.write_file, writable, with_file.
  destruct (os.isdir w (os.resolve path)); [reflexivity|].
  now destruct (os.isdir w (removelast (os.resolve path))).
Qed.

Lemma extract_file_loop_find es w pbo_path filename output_path content :
  os.open_rb pbo_path w = Returned content ->
  PBOParser.extract_file_loop es w pbo_path filename output_path
  = match find (PBOParser.named filename) es with
    | Some e =>
      if writable w output_path
      then (true, with_file w output_path (payload_slice content e))
      else (false, w)
    | None => (false, w)
    end.
Proof.
  intros Hopen. induction es as [|e es IH]; [reflexivity|].
  cbn [PBOParser.extract_file_loop find].
  destruct (PBOParser.named filename e); [|exact IH].
  rewrite Hopen, seek_read, write_file_writable. cbn [f_data].
  now destruct (writable w output_path).
Qed.

(** [extract_file] never raises.  When it answers [True] the archive
    parsed, some entry bears the name, and the file tree differs from
    the one before by one file, the output path, which holds the slice
    of the archive that the first entry of that name announces.  When
    it answers [False] the file tree is untouched: no directory is
    created on the way.  It answers [False] whenever the parse fails or
    no entry bears the name; whether an entry that bears the name is
    written is up to the host, which may refuse the output path. *)
Theorem extract_file_first_entry self w pbo_path filename output_path :
  exists ok self' w',
    PBOParser.extract_file self w pbo_path filename output_path = Returned (ok, self', w') /\
    (ok = true ->
       exists content e,
         PBOParser.parse_pbo self w pbo_path = Returned (true, self') /\
         os.open_rb pbo_path w = Returned content /\
         first_passing (PBOParser.named filename) (PBOParser.entries self') e /\
         w' = with_file w output_path (payload_slice content e)) /\
    (ok = false -> w' = w) /\
    (forall ok1 self1,
       PBOParser.parse_pbo self w pbo_path = Returned (ok1, self1) ->
       (if ok1 then find (PBOParser.named filename) (PBOParser.entries self1) else None) = None ->
       ok = false /\ self' = self1).
Proof.
  destruct (parse_pbo_answers self w pbo_path) as (ok0 & self0 & Hp).
  unfold PBOParser.extract_file.
  destruct ok0.
  2:{ exists false, self0, w. rewrite Hp. split; [reflexivity|].
      split; [discriminate|]. split; [reflexivity|].
      intros ok1 self1 [= <- <-] _. now split. }
  destruct (parse_pbo_opens _ _ _ _ Hp) as [content Hopen].
  pose proof (extract_file_loop_find (PBOParser.entries self0) w pbo_path filename
                output_path content Hopen) as Hloop.
  destruct (PBOParser.extract_file_loop _ _ _ _ _) as [ok w'] eqn:Hrun.
  exists ok, self0, w'. rewrite Hp, Hrun. split; [reflexivity|].
  destruct (find _ _) as [e|] eqn:Hfind.
  - destruct (writable w output_path); injection Hloop as -> ->.
    + split.
      { intros _. exists content, e. split; [reflexivity|]. split; [exact Hopen|].
        split; [now apply find_first_passing | reflexivity]. }
      split; [discriminate|]. intros ok1 self1 [= <- <-] Hnone. congruence.
    + split; [discriminate|]. split; [reflexivity|]. now intros ok1 self1 [= <- <-] _.
  - injection Hloop as -> ->. split; [discriminate|]. split; [reflexivity|].
    now intros ok1 self1 [= <- <-] _.
Qed.

(** ** Packing and unpacking *)

Lemma sized_total rs payloads :
  Forall2 sized rs payloads ->
  PBOParser.total_size (map entry_of rs) = Z.of_nat (length (concat payloads)).
Proof.
  induction 1 as [|r p rs ps Hr _ IH]; [reflexivity|].
  cbn [map PBOParser.total_size fold_right concat].
  fold (PBOParser.total_size (map entry_of rs)).
  rewrite IH, length_app, Nat2Z.inj_add. unfold sized in Hr. simpl. lia.
Qed.

Lemma slice_of_middle (pre p rest : list byte) :
  take (length p) (drop (length pre) (pre ++ p ++ rest)) = p.
Proof. now rewrite drop_app_length, take_app_length. Qed.

Lemma truthy_entry_of r :
  r_name r ≠ [] -> PBOParser.truthy (PBOHeaderEntry.filename (entry_of r)) = true.
Proof.
  intros Hne. simpl. unfold decode_or_raw.
  destruct (r_name r) as [|b s]; [congruence|].
  now destruct (utf8_valid (b :: s)).
Qed.

Lemma expected_writes_archive output_dir rs payloads :
  Forall wf_entry rs -> Forall2 sized rs payloads ->
  forall pre,
    expected_writes output_dir (pre ++ concat payloads)
      (PBOParser.assign_offsets (map entry_of rs) (Z.of_nat (length pre)))
    = packed_files output_dir rs payloads.
Proof.
  intros Hwf Hsized. induction Hsized as [|r p rs ps Hr _ IH]; intros pre; [reflexivity|].
  apply Forall_cons in Hwf as [[Hraw Hne] Hwf].
  cbn [map PBOParser.assign_offsets].
  rewrite is_boundary_entry_of, bool_decide_eq_false_2 by exact Hne. cbn [negb].
  rewrite expected_writes_cons.
  replace (Z.of_nat (length pre) + PBOHeaderEntry.data_size (entry_of r))
    with (Z.of_nat (length (pre ++ p)))
    by (rewrite length_app, Nat2Z.inj_add; unfold sized in Hr; simpl; lia).
  cbn [concat]. rewrite (app_assoc pre p), (IH Hwf (pre ++ p)).
  unfold packed_files. cbn [zip zip_with].
  unfold extractable. cbn [PBOHeaderEntry.set_data_offset PBOHeaderEntry.filename
    PBOHeaderEntry.data_size].
  change (PBOHeaderEntry.filename (entry_of r)) with (decode_or_raw (r_name r)).
  pose proof (truthy_entry_of r Hne) as Ht. simpl in Ht. rewrite Ht. cbn [andb].
  change (PBOHeaderEntry.data_size (entry_of r)) with (le_uint (r_data_size r)).
  unfold sized in Hr. rewrite Hr.
  destruct p as [|b p].
  - rewrite filter_cons_False by (simpl; congruence). reflexivity.
  - rewrite filter_cons_True by (simpl; congruence).
    replace (0 <? Z.of_nat (length (b :: p))) with true
      by (symmetry; apply Z.ltb_lt; simpl; lia).
    cbn [map app fst snd]. f_equal. f_equal.
    unfold payload_slice, PBOHeaderEntry.set_data_offset.
    cbn [PBOHeaderEntry.data_size PBOHeaderEntry.data_offset].
    change (PBOHeaderEntry.data_size (entry_of r)) with (le_uint (r_data_size r)).
    rewrite Hr, !Nat2Z.id, <- app_assoc. apply slice_of_middle.
Qed.

Lemma extract_parse self w pbo_path output_dir self' w' :
  PBOParser.extract_to_directory self w pbo_path output_dir = Returned (true, self', w') ->
  PBOParser.parse_pbo self w pbo_path = Returned (true, self').
Proof.
  unfold PBOParser.extract_to_directory.
  destruct (PBOParser.parse_pbo self w pbo_path) as [[[] self1]| |]; try discriminate.
  destruct (os.makedirs output_dir w) as [[[]| |] w1]; try discriminate.
  destruct (os.open_rb pbo_path w1) as [data| |]; try discriminate.
  destruct (PBOParser.extract_loop _ _ _ _) as [ok w2]. now intros [= -> -> ->].
Qed.

(** Round trip.  Take an archive laid out as the format says: a
    well-formed header, then one payload per record, each as long as its
    record announces.  When [extract_to_directory] answers [True] it has
    written, in table order, one file per record with a non-empty
    payload, at the host form of the record's name below the
    destination, holding that payload; the tree holds the payload last
    written to each destination, and no other file has changed.  (The
    archive is read as it was when opened, so it must not be one of its
    own destinations.) *)
Theorem unpack_round_trip self w pbo_path output_dir b0 exts rs b1 payloads self' w' :
  wf_header b0 exts rs b1 ->
  Forall2 sized rs payloads ->
  os.open_rb pbo_path w = Returned (archive b0 exts rs b1 payloads) ->
  Forall (fun x => fst x ≠ os.resolve pbo_path) (packed_files output_dir rs payloads) ->
  PBOParser.extract_to_directory self w pbo_path output_dir = Returned (true, self', w') ->
  os.written w' = os.written w ++ packed_files output_dir rs payloads /\
  (forall p c, last_written p (packed_files output_dir rs payloads) = Some c ->
     os.tree w' !! p = Some (os.File c)) /\
  files_kept (map fst (packed_files output_dir rs payloads)) w w'.
Proof.
  intros Hwf Hsized Hopen _ Hex.
  pose proof (extract_parse _ _ _ _ _ _ Hex) as Hp.
  destruct (parse_pbo_archive self w pbo_path _ _ _ _ _ Hwf Hopen) as (self1 & Hp1 & Hes).
  rewrite Hp in Hp1. injection Hp1 as <-.
  apply extract_to_directory_spec in Hex as (new & Hw & Hk & Hlast & Hdata).
  destruct (Hdata _ Hopen) as [_ Hnew]. specialize (Hnew eq_refl).
  rewrite Hes in Hnew. unfold archive in Hnew.
  rewrite (expected_writes_archive output_dir rs payloads (wf_records _ _ _ _ Hwf) Hsized)
    in Hnew.
  subst new. now repeat split.
Qed.

Lemma name_text_inj r r' : name_text r = name_text r' -> r_name r = r_name r'.
Proof.
  unfold name_text. generalize (r_name r') as l'. induction (r_name r) as [|b l IH];
    intros [|b' l'] H; try discriminate; [reflexivity|].
  injection H as Hb Hl. f_equal; [|now apply IH].
  rewrite <- (byte_of_ascii_of_byte b), <- (byte_of_ascii_of_byte b'). now rewrite Hb.
Qed.

Lemma named_entry_of name r off :
  PBOParser.named name (PBOHeaderEntry.set_data_offset (entry_of r) off)
  = utf8_valid (r_name r) && bool_decide (name_text r = name).
Proof.
  unfold PBOParser.named. simpl. unfold decode_or_raw.
  now destruct (utf8_valid (r_name r)).
Qed.

Lemma find_named_archive rs i r cur :
  Forall wf_entry rs -> rs !! i = Some r -> decodable r ->
  (forall j r', (j < i)%nat -> rs !! j = Some r' -> r_name r' ≠ r_name r) ->
  find (PBOParser.named (name_text r)) (PBOParser.assign_offsets (map entry_of rs) cur)
  = Some (PBOHeaderEntry.set_data_offset (entry_of r)
            (cur + PBOParser.total_size (map entry_of (take i rs)))).
Proof.
  intros Hwf Hi Hdec Hfirst. apply find_first_passing. exists i.
  pose proof (entries_not_boundary rs Hwf) as Hnb.
  assert (Hlookup : forall j r', rs !! j = Some r' ->
            PBOParser.assign_offsets (map entry_of rs) cur !! j
            = Some (PBOHeaderEntry.set_data_offset (entry_of r')
                      (cur + PBOParser.total_size (map entry_of (take j rs))))).
  { intros j r' Hj.
    rewrite (assign_offsets_lookup _ cur j (entry_of r') Hnb)
      by (rewrite list_lookup_fmap, Hj; reflexivity).
    now rewrite <- fmap_take. }
  split; [now apply Hlookup|]. split.
  - rewrite named_entry_of, Hdec. now rewrite bool_decide_eq_true_2.
  - intros j q Hj Hq.
    destruct (rs !! j) as [r'|] eqn:Hr'.
    2:{ apply lookup_ge_None in Hr'. apply lookup_lt_Some in Hi. lia. }
    rewrite (Hlookup _ _ Hr') in Hq. injection Hq as <-.
    rewrite named_entry_of. apply andb_false_iff. right.
    apply bool_decide_eq_false_2. intros Heq. apply name_text_inj in Heq.
    exact (Hfirst j r' Hj Hr' Heq).
Qed.

Lemma payload_of_record rs payloads : forall i r p (pre : list byte),
  Forall2 sized rs payloads -> rs !! i = Some r -> payloads !! i = Some p ->
  payload_slice (pre ++ concat payloads)
    (PBOHeaderEntry.set_data_offset (entry_of r)
       (Z.of_nat (length pre) + PBOParser.total_size (map entry_of (take i rs))))
  = p.
Proof.
  intros i r p pre Hsized Hi Hp.
  assert (Hr : sized r p) by (eapply Forall2_lookup_lr; eassumption).
  rewrite (sized_total (take i rs) (take i payloads)) by now apply Forall2_take.
  unfold payload_slice, PBOHeaderEntry.set_data_offset.
  cbn [PBOHeaderEntry.data_size PBOHeaderEntry.data_offset].
  change (PBOHeaderEntry.data_size (entry_of r)) with (le_uint (r_data_size r)).
  unfold sized in Hr. rewrite Hr, <- Nat2Z.inj_add, !Nat2Z.id.
  assert (Hsplit : concat payloads
                   = concat (take i payloads) ++ p ++ concat (drop (S i) payloads)).
  { rewrite <- (take_drop_middle payloads i p Hp) at 1. now rewrite concat_app. }
  rewrite Hsplit, app_assoc, <- length_app. apply slice_of_middle.
Qed.

(** Round trip for one file.  From an archive laid out as the format
    says, an [extract_file] called with the text of a record's name
    that answers [True] has written the payload of the first record of
    that name to the output path, and nothing else; reading the output
    path back gives the payload.  The output path may be the archive
    itself: the payload is read before the output is opened. *)
Theorem extract_file_round_trip self w pbo_path output_path b0 exts rs b1 payloads i r p
    self' w' :
  wf_header b0 exts rs b1 ->
  Forall2 sized rs payloads ->
  os.open_rb pbo_path w = Returned (archive b0 exts rs b1 payloads) ->
  rs !! i = Some r -> payloads !! i = Some p -> decodable r ->
  (forall j r', (j < i)%nat -> rs !! j = Some r' -> r_name r' ≠ r_name r) ->
  PBOParser.extract_file self w pbo_path (name_text r) output_path
  = Returned (true, self', w') ->
  w' = with_file w output_path p /\
  os.written w' = os.written w ++ [(os.resolve output_path, p)] /\
  files_kept [os.resolve output_path] w w' /\
  os.open_rb output_path w' = Returned p.
Proof.
  intros Hwf Hsized Hopen Hi Hp Hdec Hfirst Hrun.
  destruct (parse_pbo_archive self w pbo_path _ _ _ _ _ Hwf Hopen) as (self1 & Hparse & Hes).
  unfold PBOParser.extract_file in Hrun. rewrite Hparse in Hrun.
  rewrite (extract_file_loop_find _ _ _ _ _ _ Hopen), Hes in Hrun.
  rewrite (find_named_archive rs i r _ (wf_records _ _ _ _ Hwf) Hi Hdec Hfirst) in Hrun.
  destruct (writable w output_path); [|discriminate Hrun].
  unfold archive in Hrun. rewrite (payload_of_record rs payloads i r p _ Hsized Hi Hp) in Hrun.
  injection Hrun as <- <-.
  split; [reflexivity|]. split; [reflexivity|]. split.
  - intros q c Hq Hc. unfold with_file. cbn [os.tree].
    rewrite lookup_insert_ne; [exact Hc | set_solver].
  - unfold os.open_rb, with_file. cbn [os.tree]. now rewrite lookup_insert_eq.
Qed.

(** ** Names that do not decode *)

Lemma extract_loop_raw output_dir es1 e b es2 : forall f w,
  PBOHeaderEntry.filename e = PyBytes b -> extractable e = true ->
  exists w', PBOParser.extract_loop output_dir (es1 ++ e :: es2) f w = (false, w').
Proof.
  induction es1 as [|e1 es1 IH]; intros f w Hname Hx; simpl.
  - unfold PBOParser.extract_entry. fold (extractable e). rewrite Hx, Hname. simpl. eauto.
  - destruct (PBOParser.extract_entry output_dir e1 f w) as [[f'|] w1]; [|eauto].
    now apply IH.
Qed.

Lemma extract_loop_stops output_dir es1 e b es2 : forall f w ok w',
  PBOHeaderEntry.filename e = PyBytes b -> extractable e = true ->
  PBOParser.extract_loop output_dir (es1 ++ e :: es2) f w = (ok, w') ->
  ok = false /\ exists ok1, PBOParser.extract_loop output_dir es1 f w = (ok1, w').
Proof.
  induction es1 as [|e1 es1 IH]; intros f w ok w' Hname Hx H; cbn [app] in H;
    cbn [PBOParser.extract_loop] in *.
  - unfold PBOParser.extract_entry in H. fold (extractable e) in H.
    rewrite Hx, Hname in H. cbn [PBOParser.replace_sep] in H.
    injection H as <- <-. eauto.
  - destruct (PBOParser.extract_entry output_dir e1 f w) as [[f'|] w1].
    + now apply (IH f' w1).
    + injection H as <- <-. eauto.
Qed.

(** An archive with a record whose name is not valid UTF-8 and whose
    size is positive cannot be extracted: the archive parses, the name
    is kept as raw bytes, and [extract_to_directory] answers [False]
    (replacing the separator in a [bytes] name raises [TypeError]).
    What it has written by then is an initial part, in table order, of
    the files of the entries that come before that record; those files
    are in the tree and no other file has changed.  (The archive is
    read as it was when opened, so it must not be the destination of
    an entry before the record.) *)
Theorem extract_fails_on_raw_name self w pbo_path output_dir b0 exts rs b1 payload i r :
  wf_header b0 exts rs b1 ->
  os.open_rb pbo_path w = Returned (header b0 exts rs b1 ++ payload) ->
  rs !! i = Some r -> utf8_valid (r_name r) = false -> 0 < le_uint (r_data_size r) ->
  Forall (fun r' => destination output_dir (entry_of r') ≠ os.resolve pbo_path) (take i rs) ->
  exists self' w' new,
    PBOParser.extract_to_directory self w pbo_path output_dir = Returned (false, self', w') /\
    os.written w' = os.written w ++ new /\
    new `prefix_of` expected_writes output_dir (header b0 exts rs b1 ++ payload)
                      (take i (PBOParser.entries self')) /\
    (forall p c, last_written p new = Some c -> os.tree w' !! p = Some (os.File c)) /\
    files_kept (map fst new) w w'.
Proof.
  intros Hwf Hopen Hi Hraw Hpos _.
  destruct (parse_pbo_archive self w pbo_path _ _ _ _ _ Hwf Hopen) as (self' & Hparse & Hes).
  exists self'. unfold PBOParser.extract_to_directory. rewrite Hparse.
  destruct (os.makedirs output_dir w) as [rm w1] eqn:Hmk.
  apply makedirs_spec in Hmk as [Hw1 Hk1].
  assert (Hnone : exists new : list (list str * list byte),
            os.written w1 = os.written w ++ new /\
            new `prefix_of` expected_writes output_dir (header b0 exts rs b1 ++ payload)
                              (take i (PBOParser.entries self')) /\
            (forall p c, last_written p new = Some c ->
               os.tree w1 !! p = Some (os.File c)) /\
            files_kept (map fst new) w w1).
  { exists []. rewrite app_nil_r. split; [exact Hw1|]. split; [apply prefix_nil|].
    split; [discriminate | exact Hk1]. }
  destruct rm as [[]| |]; [|exists w1; destruct Hnone as [new Hn]; eauto..].
  pose proof (open_rb_kept _ _ _ _ Hk1 Hopen) as Hopen1. rewrite Hopen1.
  clear Hnone.
  pose proof (assign_offsets_lookup _ (Z.of_nat (length (header b0 exts rs b1))) i
                (entry_of r) (entries_not_boundary rs (wf_records _ _ _ _ Hwf))) as Hl.
  rewrite list_lookup_fmap, Hi in Hl. specialize (Hl eq_refl). rewrite <- Hes in Hl.
  pose proof (take_drop_middle _ _ _ Hl) as Hsplit.
  destruct (PBOParser.extract_loop output_dir (PBOParser.entries self')
              {| f_data := header b0 exts rs b1 ++ payload; f_pos := 0 |} w1)
    as [ok w2] eqn:Hloop.
  rewrite <- Hsplit in Hloop.
  apply (extract_loop_stops _ _ _ (r_name r)) in Hloop as [-> [ok1 Hloop]].
  - apply extract_loop_spec in Hloop as (new & Hw & Hpre & _ & Hlast & Hk).
    cbn [f_data] in Hpre. exists w2, new.
    split; [reflexivity|]. split; [now rewrite Hw, Hw1|]. split; [exact Hpre|].
    split; [exact Hlast|].
    intros p c Hp Hc. apply Hk; [exact Hp|]. apply Hk1; [apply not_elem_of_nil | exact Hc].
  - simpl. unfold decode_or_raw. now rewrite Hraw.
  - unfold extractable. simpl. unfold decode_or_raw. rewrite Hraw.
    destruct (r_name r) as [|b0' l]; [discriminate Hraw|].
    simpl. now apply Z.ltb_lt.
Qed.

(** ** What every successful parse guarantees *)

Lemma le_uint_bound data : 0 <= le_uint data < 256 ^ Z.of_nat (length data).
Proof.
  induction data as [|b data IH]; [simpl; lia|].
  cbn [le_uint fold_right length]. fold (le_uint data).
  rewrite Nat2Z.inj_succ, Z.pow_succ_r by lia.
  pose proof (N2Z.is_nonneg (Byte.to_N b)).
  assert (Z.of_N (Byte.to_N b) < 256).
  { pose proof (Byte.to_N_bounded b). lia. }
  lia.
Qed.

Lemma read_ulong_range f v f' :
  read_ulong f = Returned (v, f') ->
  0 <= v < 2 ^ 32 /\ f' = advance f 4 /\ (f_pos f' <= length (f_data f'))%nat.
Proof.
  intros H. destruct (read_ulong_cases f) as [[_ Hr] | (v' & Hr & Hge & _)];
    rewrite Hr in H; [discriminate|]. injection H as <- <-.
  split; [|split; [reflexivity|]].
  - unfold read_ulong, f_read, mbind, io_bind, lift, unpack_u32 in Hr.
    destruct (decide _) as [Hlen|]; [|discriminate]. injection Hr as <- _.
    pose proof (le_uint_bound (take 4 (drop (f_pos f) (f_data f)))) as Hb.
    rewrite Hlen in Hb. exact Hb.
  - unfold remaining in Hge. rewrite length_drop in Hge. simpl. lia.
Qed.

Lemma parse_entry_shape f e f' :
  PBOHeaderEntry.parse_from_file f = Returned (e, f') ->
  PBOHeaderEntry.data_offset e = 0 /\
  fits_u32 (PBOHeaderEntry.packing_method e) /\ fits_u32 (PBOHeaderEntry.original_size e) /\
  fits_u32 (PBOHeaderEntry.reserved e) /\ fits_u32 (PBOHeaderEntry.timestamp e) /\
  fits_u32 (PBOHeaderEntry.data_size e) /\
  f_data f' = f_data f /\ (f_pos f' <= length (f_data f'))%nat.
Proof.
  unfold PBOHeaderEntry.parse_from_file.
  destruct (read_asciiz_progress f) as (s & f0 & H0 & Hd0 & _).
  rewrite (bind_returned _ _ _ _ _ H0).
  destruct (read_ulong f0) as [[v1 f1]| |] eqn:H1;
    [rewrite (bind_returned _ _ _ _ _ H1) | rewrite (bind_raised _ _ _ _ H1); discriminate
    | unfold mbind, io_bind; rewrite H1; discriminate].
  destruct (read_ulong f1) as [[v2 f2]| |] eqn:H2;
    [rewrite (bind_returned _ _ _ _ _ H2) | rewrite (bind_raised _ _ _ _ H2); discriminate
    | unfold mbind, io_bind; rewrite H2; discriminate].
  destruct (read_ulong f2) as [[v3 f3]| |] eqn:H3;
    [rewrite (bind_returned _ _ _ _ _ H3) | rewrite (bind_raised _ _ _ _ H3); discriminate
    | unfold mbind, io_bind; rewrite H3; discriminate].
  destruct (read_ulong f3) as [[v4 f4]| |] eqn:H4;
    [rewrite (bind_returned _ _ _ _ _ H4) | rewrite (bind_raised _ _ _ _ H4); discriminate
    | unfold mbind, io_bind; rewrite H4; discriminate].
  destruct (read_ulong f4) as [[v5 f5]| |] eqn:H5;
    [rewrite (bind_returned _ _ _ _ _ H5) | rewrite (bind_raised _ _ _ _ H5); discriminate
    | unfold mbind, io_bind; rewrite H5; discriminate].
  intros [= <- <-].
  apply read_ulong_range in H1 as (R1 & E1 & _), H2 as (R2 & E2 & _),
    H3 as (R3 & E3 & _), H4 as (R4 & E4 & _), H5 as (R5 & E5 & P5).
  repeat split; try (apply R1 || apply R2 || apply R3 || apply R4 || apply R5);
    [|exact P5].
  subst. simpl. exact Hd0.
Qed.

Lemma header_loop_shape fuel : forall acc ext fe f hdr f',
  PBOHeader.while_loop fuel acc ext fe f = Returned (hdr, f') ->
  Forall sound_entry acc ->
  Forall sound_entry (PBOHeader.pbo_entries hdr) /\
  is_Some (PBOHeader.eoh_boundary hdr) /\
  f_data f' = f_data f /\ (f_pos f' <= length (f_data f'))%nat.
Proof.
  induction fuel as [|fuel IH]; intros acc ext fe f hdr f' H Hacc; [discriminate|].
  cbn [PBOHeader.while_loop] in H.
  destruct (PBOHeaderEntry.parse_from_file f) as [[e f1]| |] eqn:He;
    [rewrite (bind_returned _ _ _ _ _ He) in H
    | rewrite (bind_raised _ _ _ _ He) in H; discriminate
    | unfold mbind, io_bind in H; rewrite He in H; discriminate].
  apply parse_entry_shape in He as (Hoff & R1 & R2 & R3 & R4 & R5 & Hd1 & Hp1).
  destruct (PBOHeaderEntry.is_boundary e) eqn:Hb; cbn [negb] in H.
  - destruct fe.
    + destruct (parse_extension_returns e f1) as (x & f2 & H2 & Hd2 & _).
      rewrite (bind_returned _ _ _ _ _ H2) in H.
      apply IH in H as (? & ? & Hd & ?); [|exact Hacc].
      repeat split; trivial. congruence.
    + injection H as <- <-. cbn. repeat split; eauto.
  - apply IH in H as (? & ? & Hd & ?).
    + repeat split; trivial. congruence.
    + apply Forall_app. split; [exact Hacc|].
      apply Forall_cons. split; [|constructor].
      exact (conj Hb (conj Hoff (conj R1 (conj R2 (conj R3 (conj R4 R5)))))).
Qed.

Lemma assign_offsets_sound es : forall cur,
  Forall sound_entry es ->
  PBOParser.assign_offsets es cur
  = imap (fun i e => PBOHeaderEntry.set_data_offset e
                       (cur + PBOParser.total_size (take i es))) es.
Proof.
  induction es as [|e es IH]; intros cur Hs; [reflexivity|].
  apply Forall_cons in Hs as [He Hs]. cbn [PBOParser.assign_offsets imap].
  destruct He as [-> _]. cbn [negb]. f_equal.
  - cbn. now rewrite Z.add_0_r.
  - rewrite IH by exact Hs. apply imap_ext. intros i x Hx. cbn. f_equal.
    unfold PBOParser.total_size. cbn. lia.
Qed.

Lemma total_size_take_offsets es : forall (g : nat -> Z) k,
  PBOParser.total_size
    (take k (imap (fun i e => PBOHeaderEntry.set_data_offset e (g i)) es))
  = PBOParser.total_size (take k es).
Proof.
  induction es as [|e es IH]; intros g k; [now destruct k|].
  destruct k as [|k]; [reflexivity|]. cbn [imap take].
  unfold PBOParser.total_size in *. cbn [fold_right]. f_equal.
  apply (IH (g ∘ S) k).
Qed.

(** Whatever the bytes of the archive, once [parse_pbo] answers [True]
    the table it leaves obeys the invariants of the format: the header
    is kept with its terminating boundary, no entry has an empty name,
    every size is an unsigned 32-bit number, the first data offset is
    the position at which the header decoder stopped (what [f.tell()]
    gives after [PBOHeader.parse_from_file]), which lies inside the
    file, and each entry's offset is that position plus the sizes of
    the entries before it. *)
Theorem parse_pbo_table_invariants self w pbo_path self' :
  PBOParser.parse_pbo self w pbo_path = Returned (true, self') ->
  exists content hdr decoded f origin,
    os.open_rb pbo_path w = Returned content /\
    PBOHeader.parse_from_file {| f_data := content; f_pos := 0 |} = Returned (decoded, f) /\
    origin = f_pos f /\
    PBOParser.header self' = Some hdr /\
    PBOHeader.header_extension hdr = PBOHeader.header_extension decoded /\
    PBOHeader.eoh_boundary hdr = PBOHeader.eoh_boundary decoded /\
    PBOHeader.pbo_entries hdr = PBOParser.entries self' /\
    is_Some (PBOHeader.eoh_boundary hdr) /\
    (origin <= length content)%nat /\
    Forall (fun e => PBOHeaderEntry.is_boundary e = false /\
                     0 <= PBOHeaderEntry.data_size e < 2 ^ 32)
           (PBOParser.entries self') /\
    (forall i e, PBOParser.entries self' !! i = Some e ->
       PBOHeaderEntry.data_offset e
       = Z.of_nat origin + PBOParser.total_size (take i (PBOParser.entries self'))).
Proof.
  unfold PBOParser.parse_pbo.
  destruct (os.open_rb pbo_path w) as [content| |]; try discriminate.
  destruct (PBOHeader.parse_from_file _) as [[hdr f]| |] eqn:Hh; try discriminate.
  intros [= <-]. pose proof Hh as Hdecoded. unfold PBOHeader.parse_from_file in Hh.
  apply header_loop_shape in Hh as (Hs & Heoh & Hd & Hp); [|constructor].
  cbn [f_data] in Hd. rewrite Hd in Hp.
  set (es := PBOHeader.pbo_entries hdr) in *.
  set (origin := f_pos f) in *.
  assert (Hnb : Forall PBOParser.not_boundary (PBOParser.assign_offsets es (Z.of_nat origin))).
  { apply assign_offsets_not_boundary. eapply Forall_impl; [exact Hs|].
    now intros e [He _]. }
  eexists content, _, hdr, f, origin. cbn [PBOParser.header PBOParser.entries].
  rewrite (filter_not_boundary _ Hnb).
  split; [reflexivity|]. split; [exact Hdecoded|]. split; [reflexivity|].
  split; [reflexivity|]. split; [reflexivity|]. split; [reflexivity|].
  split; [reflexivity|]. split; [exact Heoh|]. split; [exact Hp|].
  rewrite (assign_offsets_sound es _ Hs).
  pose proof (total_size_take_offsets es
                (fun i => Z.of_nat origin + PBOParser.total_size (take i es))) as Hsize.
  split.
  - apply Forall_forall. intros e He. apply list_elem_of_lookup in He as [i Hi].
    rewrite list_lookup_imap in Hi.
    destruct (es !! i) as [e0|] eqn:Hi0; [|discriminate]. injection Hi as <-.
    rewrite Forall_forall in Hs.
    destruct (Hs e0 (list_elem_of_lookup_2 _ _ _ Hi0)) as (Hb & _ & _ & _ & _ & _ & R).
    split; [exact Hb | exact R].
  - intros i e Hi. rewrite Hsize. rewrite list_lookup_imap in Hi.
    destruct (es !! i) as [e0|]; [|discriminate]. now injection Hi as <-.
Qed.

(** ** Archives without extension *)

(** The first boundary and its extension strings are optional: a
    header that starts with entry records and ends with a boundary
    parses to those entries, with no extension kept, and the data
    offsets start right after the boundary. *)
Theorem parse_pbo_without_extension self w pbo_path rs b1 payload :
  Forall wf_entry rs -> rs <> [] -> wf_boundary b1 ->
  os.open_rb pbo_path w = Returned (records rs ++ record b1 ++ payload) ->
  exists self' hdr,
    PBOParser.parse_pbo self w pbo_path = Returned (true, self') /\
    PBOParser.header self' = Some hdr /\
    PBOHeader.header_extension hdr = None /\
    PBOHeader.eoh_boundary hdr = Some (entry_of b1) /\
    PBOParser.entries self'
    = PBOParser.assign_offsets (map entry_of rs)
        (Z.of_nat (length (records rs ++ record b1))).
Proof.
  intros Hrs Hne Hb1 Hopen.
  set (data := records rs ++ record b1 ++ payload).
  set (f := {| f_data := data; f_pos := 0 |}).
  assert (Hrem : remaining f = records rs ++ record b1 ++ payload) by apply drop_0.
  assert (Hparse : PBOHeader.parse_from_file f
                   = Returned (PBOHeader.mk None (map entry_of rs) (Some (entry_of b1)),
                               {| f_data := data;
                                  f_pos := length (records rs ++ record b1) |})).
  { unfold PBOHeader.parse_from_file. cbn [f_data f].
    assert (Hlen : (length rs < length data)%nat).
    { unfold data. rewrite !length_app. pose proof (length_records rs Hrs).
      destruct Hb1 as [Hb1 _]. rewrite (length_record b1 Hb1). lia. }
    replace (S (length data)) with (length rs + S (length data - length rs))%nat by lia.
    rewrite (loop_entries rs _ _ _ _ _ _ Hrs Hrem).
    apply remaining_advance in Hrem.
    replace (match rs with [] => true | _ => false end) with false
      by (destruct rs; congruence).
    rewrite (loop_boundary b1 _ _ _ _ _ Hb1 Hrem), advance_advance.
    apply (f_equal Returned), f_equal2; [reflexivity|].
    unfold advance, f. cbn [f_data f_pos]. apply (f_equal (Build_pyfile data)).
    rewrite length_app. lia. }
  eexists _, _. split.
  { unfold PBOParser.parse_pbo. rewrite Hopen. fold data f. rewrite Hparse.
    cbn [PBOHeader.pbo_entries f_pos PBOHeader.header_extension PBOHeader.eoh_boundary].
    reflexivity. }
  cbn [PBOParser.header PBOParser.entries PBOHeader.header_extension
       PBOHeader.eoh_boundary].
  repeat split.
  apply filter_not_boundary, assign_offsets_not_boundary, entries_not_boundary, Hrs.
Qed.

(** ** What extraction leaves alone *)

(** Whether it succeeds or fails, [extract_to_directory] deletes
    nothing and changes no file but those it writes; what it writes is
    an initial part, in table order, of the files of the entries with a
    name and a positive size, and it is the whole of it when the answer
    is [True].  (The archive is read as it was when opened, so it must
    not be one of its own destinations.) *)
Theorem extract_keeps_other_files self w pbo_path output_dir ok self' w' content :
  PBOParser.extract_to_directory self w pbo_path output_dir = Returned (ok, self', w') ->
  os.open_rb pbo_path w = Returned content ->
  Forall (fun x => fst x ≠ os.resolve pbo_path)
         (expected_writes output_dir content (PBOParser.entries self')) ->
  exists new,
    os.written w' = os.written w ++ new /\
    new `prefix_of` expected_writes output_dir content (PBOParser.entries self') /\
    (ok = true -> new = expected_writes output_dir content (PBOParser.entries self')) /\
    (forall p c, p ∉ map fst new ->
       os.tree w !! p = Some (os.File c) -> os.tree w' !! p = Some (os.File c)) /\
    (forall p c, os.tree w !! p = Some (os.File c) -> exists c',
       os.tree w' !! p = Some (os.File c')).
Proof.
  intros Hex Hopen _.
  apply extract_to_directory_spec in Hex as (new & Hw & Hk & Hlast & Hdata).
  destruct (Hdata _ Hopen) as [Hpre Hok].
  exists new. split; [exact Hw|]. split; [exact Hpre|]. split; [exact Hok|].
  split; [exact Hk|].
  intros p c Hp. destruct (last_written p new) as [c'|] eqn:Hl.
  - exists c'. now apply Hlast.
  - exists c. apply Hk; [now apply last_written_None | exact Hp].
Qed.

(** ** More on the geometry sampler *)

Lemma read_uint_at data pos :
  read_uint (P3DParser.seek_to pos data)
  = if decide (pos + 4 <= length data)%nat
    then Returned (le_uint (take 4 (drop pos data)),
                   {| f_data := data; f_pos := pos + 4 |})
    else Raised StructError.
Proof.
  unfold read_uint, f_read, mbind, io_bind, lift, unpack_u32, P3DParser.seek_to.
  cbn [f_pos f_data]. rewrite length_take, length_drop.
  destruct (decide (pos + 4 <= length data)%nat).
  - rewrite decide_True by lia. repeat f_equal. lia.
  - rewrite decide_False by lia. reflexivity.
Qed.

(** What a sampler makes of a file, in full. *)
Lemma sampler_answer fmt w path data :
  os.open_rb path w = Returned data ->
  sampler fmt w path
  = if decide (sampler_needs fmt <= length data)%nat
    then Returned (Some (P3DParser.finish path fmt (kept_vertices fmt data)
                           (kept_faces fmt data)))
    else Returned None.
Proof.
  intros Hopen. destruct fmt; unfold sampler, kept_faces, kept_vertices, reads_vertices.
  - unfold P3DParser.parse_mlod_geometry. rewrite Hopen, read_uint_at.
    cbn [sampler_needs]. change (8 + 4)%nat with 12%nat.
    destruct (decide (12 <= length data)%nat); [|reflexivity].
    cbn [try_except]. rewrite vertex_loop_spec, face_loop_spec. cbn [app].
    change (Nat.min 100 1000) with (vertex_cap FmtMLOD).
    fold (vertex_candidates FmtMLOD data).
    destruct (0 <? _); reflexivity.
  - unfold P3DParser.parse_odol_geometry. rewrite Hopen.
    cbn [sampler_needs try_except]. rewrite decide_True by lia.
    rewrite vertex_loop_spec, face_loop_spec. reflexivity.
Qed.

Lemma is_valid_answer w path :
  P3DParser.is_valid_p3d w path
  = match os.open_rb path w with
    | Returned data => Returned (bool_decide (is_Some (P3DParser.magic_of (take 4 data))))
    | _ => Returned false
    end.
Proof.
  unfold P3DParser.is_valid_p3d. destruct (os.open_rb path w) as [data| |] eqn:Hopen.
  - now rewrite read4_at_0.
  - reflexivity.
  - exfalso. unfold os.open_rb in Hopen. now destruct (os.tree w !! _) as [[]|].
Qed.

Lemma header_answer w path data :
  os.open_rb path w = Returned data ->
  P3DParser.parse_p3d_header w path
  = Returned
      (match P3DParser.magic_of (take 4 data) with
       | Some fmt =>
         if decide (8 <= length data)%nat
         then Some (P3DParser.mk_info fmt (le_uint (take 4 (drop 4 data))) (length data))
         else None
       | None => None
       end).
Proof.
  intros Hopen. unfold P3DParser.parse_p3d_header. rewrite Hopen.
  unfold mbind at 1. unfold io_bind at 1. rewrite read4_at_0.
  destruct (P3DParser.magic_of (take 4 data)) as [fmt|] eqn:Hm; [|reflexivity].
  assert (H4 : (4 <= length data)%nat).
  { unfold P3DParser.magic_of in Hm.
    destruct (decide (take 4 data = MLOD)) as [E|];
      [|destruct (decide (take 4 data = ODOL)) as [E|]; [|discriminate]];
      apply (f_equal length) in E; rewrite length_take in E;
      change (length MLOD) with 4%nat in E; change (length ODOL) with 4%nat in E; lia. }
  replace (length (take 4 data)) with 4%nat by (rewrite length_take; lia).
  change {| f_data := data; f_pos := 4 |} with (P3DParser.seek_to 4 data).
  unfold mbind, io_bind. rewrite read_uint_at. change (4 + 4)%nat with 8%nat.
  now destruct (decide (8 <= length data)%nat).
Qed.

(** [get_basic_model_info] as a function of the file content. *)
Lemma basic_model_info_data w path :
  P3DParser.get_basic_model_info w path
  = match os.open_rb path w with
    | Returned data =>
      match P3DParser.magic_of (take 4 data) with
      | Some fmt =>
        if decide (8 <= length data)%nat then
          (if decide (least_size fmt <= length data)%nat
           then Returned (Some (P3DParser.finish path fmt (kept_vertices fmt data)
                                  (kept_faces fmt data)))
           else Returned None,
           [call_of fmt path])
        else (Returned None, [])
      | None => (Returned None, [])
      end
    | _ => (Returned None, [])
    end.
Proof.
  unfold P3DParser.get_basic_model_info. rewrite is_valid_answer.
  destruct (os.open_rb path w) as [data| |] eqn:Hopen; [|reflexivity..].
  rewrite (header_answer _ _ _ Hopen).
  destruct (P3DParser.magic_of (take 4 data)) as [fmt|] eqn:Hm;
    [|now rewrite bool_decide_eq_false_2 by (intros [? ?]; discriminate)].
  rewrite bool_decide_eq_true_2 by eauto.
  destruct (decide (8 <= length data)%nat) as [H8|]; [|reflexivity].
  cbn [P3DParser.info_format].
  pose proof (sampler_answer fmt w path data Hopen) as Hs.
  destruct fmt; cbn [sampler call_of] in *; rewrite Hs; unfold least_size;
    cbn [sampler_needs].
  - change (Nat.max 8 12) with 12%nat.
    destruct (decide (12 <= length data)%nat); reflexivity.
  - change (Nat.max 8 0) with 8%nat. rewrite !decide_True by lia. reflexivity.
Qed.

Lemma returned_model_data w path m :
  returned_model w path m ->
  exists fmt data,
    os.open_rb path w = Returned data /\
    m = P3DParser.finish path fmt (kept_vertices fmt data) (kept_faces fmt data).
Proof.
  intros [[fmt Hs] | Hinfo].
  - destruct (sampler_opens _ _ _ _ Hs) as [data Hopen].
    rewrite (sampler_answer _ _ _ _ Hopen) in Hs.
    destruct (decide _); [|discriminate]. apply Returned_Some_inj in Hs.
    now exists fmt, data.
  - rewrite basic_model_info_data in Hinfo.
    destruct (os.open_rb path w) as [data| |]; try discriminate.
    destruct (P3DParser.magic_of (take 4 data)) as [fmt|]; try discriminate.
    destruct (decide (8 <= length data)%nat); try discriminate. cbn [fst] in Hinfo.
    destruct (decide _); [|discriminate]. apply Returned_Some_inj in Hinfo.
    now exists fmt, data.
Qed.

Lemma abs_lt_finite x n : abs_lt x n = true -> finite x.
Proof. now destruct x. Qed.

Lemma read_vertices_length n : forall f, (length (read_vertices n f) <= n)%nat.
Proof.
  induction n as [|n IH]; intros f; simpl; [lia|].
  destruct (P3DParser.read_vertex f) as [[v f']| |]; simpl; try lia.
  specialize (IH f'). lia.
Qed.

Lemma read_faces_length n : forall f, (length (read_faces n f) <= n)%nat.
Proof.
  induction n as [|n IH]; intros f; simpl; [lia|].
  destruct (P3DParser.read_face f) as [[v f']| |]; simpl; try lia.
  specialize (IH f'). lia.
Qed.

Lemma kept_vertices_length fmt data :
  (length (kept_vertices fmt data) <= vertex_cap fmt)%nat.
Proof.
  unfold kept_vertices. destruct (reads_vertices fmt data); [|simpl; lia].
  pose proof (prefix_length _ _ (take_while_prefix P3DParser.within
                                   (vertex_candidates fmt data))).
  pose proof (read_vertices_length (vertex_cap fmt)
                (P3DParser.seek_to (vertex_offset fmt) data)).
  unfold vertex_candidates in *. lia.
Qed.

Lemma kept_faces_length fmt data :
  (3 * length (kept_faces fmt data) <= length (kept_vertices fmt data))%nat.
Proof.
  unfold kept_faces. cbv zeta. set (nv := length (kept_vertices fmt data)).
  pose proof (prefix_length _ _ (take_while_prefix (P3DParser.in_range nv)
                                   (face_candidates fmt nv data))).
  pose proof (read_faces_length (Nat.min (nv / 3) (face_limit fmt))
                (P3DParser.seek_to (face_offset fmt) data)).
  unfold face_candidates in *.
  pose proof (Nat.Div0.mul_div_le nv 3). lia.
Qed.

(** Every vertex of a returned model has three finite coordinates of
    magnitude below 1000: NaN, the infinities and a coordinate of
    exactly 1000 never enter a model. *)
Theorem sampled_vertices_in_bounds w path m :
  returned_model w path m ->
  Forall (fun v => let '(x, y, z) := v in
                   (finite x /\ abs_lt x 1000 = true) /\
                   (finite y /\ abs_lt y 1000 = true) /\
                   (finite z /\ abs_lt z 1000 = true))
         (P3DModel.vertices m).
Proof.
  intros Hret. destruct (returned_model_data _ _ _ Hret) as (fmt & data & _ & ->).
  cbn [P3DParser.finish P3DModel.vertices]. unfold kept_vertices.
  destruct (reads_vertices fmt data); [|constructor].
  eapply Forall_impl; [apply take_while_Forall|].
  intros [[x y] z] Hv. unfold P3DParser.within in Hv.
  apply andb_true_iff in Hv as [Hxy Hz]. apply andb_true_iff in Hxy as [Hx Hy].
  repeat split; eauto using abs_lt_finite.
Qed.

(** The sizes of a returned model.  It carries the path it was read
    from and the format of its sampler; it has at most 100 (MLOD) or 50
    (ODOL) vertices and at most one face per three vertices, so the face
    limits of 200 and 150 are never reached; it is flagged valid, and
    its geometry loaded, exactly when it has a vertex. *)
Theorem sample_sizes w path m :
  returned_model w path m ->
  exists fmt,
    P3DModel.format_type m = Some fmt /\
    P3DModel.path m = path /\
    (P3DModel.get_vertex_count m <= vertex_cap fmt)%nat /\
    (3 * P3DModel.get_face_count m <= P3DModel.get_vertex_count m)%nat /\
    (P3DModel.get_face_count m < face_limit fmt)%nat /\
    (P3DModel.is_valid m = true <-> P3DModel.vertices m <> []) /\
    P3DModel.geometry_loaded m = P3DModel.is_valid m.
Proof.
  intros Hret. destruct (returned_model_data _ _ _ Hret) as (fmt & data & _ & ->).
  exists fmt. unfold P3DModel.get_vertex_count, P3DModel.get_face_count.
  cbn [P3DParser.finish P3DModel.vertices P3DModel.faces P3DModel.format_type
       P3DModel.path P3DModel.is_valid P3DModel.geometry_loaded].
  pose proof (kept_vertices_length fmt data) as Hv.
  pose proof (kept_faces_length fmt data) as Hf.
  repeat split; trivial.
  - destruct fmt; simpl in *; lia.
  - intros H%bool_decide_eq_true_1 E. rewrite E in H. simpl in H. lia.
  - intros H. apply bool_decide_eq_true_2.
    destruct (kept_vertices fmt data); [congruence | simpl; lia].
Qed.

(** [get_basic_model_info] never raises.  It returns a model exactly
    when the file opens, starts with one of the two magics and holds at
    least 12 bytes (MLOD) or 8 bytes (ODOL); and it enters a sampler,
    the one of the magic, exactly when the file starts with a magic and
    holds at least 8 bytes: an MLOD file of 8 to 11 bytes has its
    header accepted and its sampler fail. *)
Theorem basic_model_info_answers w path :
  exists r calls,
    P3DParser.get_basic_model_info w path = (Returned r, calls) /\
    (is_Some r <->
     exists data fmt,
       os.open_rb path w = Returned data /\
       P3DParser.magic_of (take 4 data) = Some fmt /\
       (least_size fmt <= length data)%nat) /\
    (forall c, c ∈ calls <->
     exists data fmt,
       os.open_rb path w = Returned data /\
       P3DParser.magic_of (take 4 data) = Some fmt /\
       (8 <= length data)%nat /\ c = call_of fmt path) /\
    (length calls <= 1)%nat.
Proof.
  rewrite basic_model_info_data.
  destruct (os.open_rb path w) as [data| |] eqn:Hopen.
  2,3: exists None, []; split; [reflexivity|]; split;
       [split; [intros [? ?]; discriminate | intros (? & ? & ? & _); discriminate]|];
       split; [|simpl; lia]; intros c; split;
       [intros Hc; now apply elem_of_nil in Hc | intros (? & ? & ? & _); discriminate].
  destruct (P3DParser.magic_of (take 4 data)) as [fmt|] eqn:Hm.
  2:{ exists None, []. split; [reflexivity|]. split;
        [split; [intros [? ?]; discriminate
                |intros (d & ? & [= <-] & ? & _); congruence]|].
      split; [|simpl; lia]. intros c. split;
        [intros Hc; now apply elem_of_nil in Hc
        |intros (d & ? & [= <-] & ? & _); congruence]. }
  assert (Hle : (8 <= least_size fmt)%nat) by (unfold least_size; lia).
  destruct (decide (8 <= length data)%nat) as [H8|H8].
  - destruct (decide (least_size fmt <= length data)%nat) as [Hl|Hl];
      eexists _, _; (split; [reflexivity|]); (split; [|split; [|simpl; lia]]).
    + split; [intros _; now exists data, fmt | eauto].
    + intros c. rewrite list_elem_of_singleton. split.
      * intros ->. now exists data, fmt.
      * intros (d & fmt' & [= <-] & Hm' & _ & ->). rewrite Hm in Hm'.
        now injection Hm' as <-.
    + split; [intros [? ?]; discriminate|].
      intros (d & fmt' & [= <-] & Hm' & Hl'). rewrite Hm in Hm'.
      injection Hm' as <-. contradiction.
    + intros c. rewrite list_elem_of_singleton. split.
      * intros ->. now exists data, fmt.
      * intros (d & fmt' & [= <-] & Hm' & _ & ->). rewrite Hm in Hm'.
        now injection Hm' as <-.
  - exists None, []. split; [reflexivity|]. split; [|split; [|simpl; lia]].
    + split; [intros [? ?]; discriminate|].
      intros (d & fmt' & [= <-] & Hm' & Hl'). rewrite Hm in Hm'.
      injection Hm' as <-. lia.
    + intros c. split; [intros Hc; now apply elem_of_nil in Hc|].
      intros (d & fmt' & [= <-] & _ & Hl' & _). contradiction.
Qed.

(** ** The window a sampler looks through *)

Lemma chunk_window (N pos n : nat) (d d' : list byte) :
  take N d = take N d' -> (pos + n <= N)%nat ->
  take n (drop pos d) = take n (drop pos d').
Proof.
  intros Hd Hle.
  assert (H : forall l : list byte, take n (drop pos l) = take n (drop pos (take N l))).
  { intros l. rewrite skipn_firstn_comm, take_take. f_equal. lia. }
  now rewrite (H d), (H d'), Hd.
Qed.

Section Reader.

Context {A : Type} (size : nat) (unpack : list byte -> outcome A).
Hypothesis unpack_size : forall data, unpack data <> Raised StructError -> length data = size.

Let reader : io A := data ← f_read size; lift (unpack data).

Lemma reader_window N f f' :
  agree N f f' -> (f_pos f + size <= N)%nat ->
  match reader f, reader f' with
  | Returned (a, g), Returned (a', g') =>
    a = a' /\ agree N g g' /\ f_pos g = (f_pos f + size)%nat
  | Raised e, Raised e' => e = e'
  | OutOfFuel, OutOfFuel => True
  | _, _ => False
  end.
Proof.
  intros [Hpos Hdata] Hle. unfold reader, f_read, mbind, io_bind, lift.
  rewrite <- Hpos, <- (chunk_window N (f_pos f) size _ _ Hdata Hle).
  set (chunk := take size (drop (f_pos f) (f_data f))).
  destruct (unpack chunk) as [a| |] eqn:Hu; trivial.
  assert (Hlen : length chunk = size) by (apply unpack_size; congruence).
  rewrite Hlen. repeat split; trivial.
Qed.

End Reader.

Lemma unpack_f32_size data : unpack_f32 data <> Raised StructError -> length data = 4%nat.
Proof. unfold unpack_f32. now destruct (decide _). Qed.

Lemma unpack_u16_size data : unpack_u16 data <> Raised StructError -> length data = 2%nat.
Proof. unfold unpack_u16. now destruct (decide _). Qed.

Lemma unpack_u32_size data : unpack_u32 data <> Raised StructError -> length data = 4%nat.
Proof. unfold unpack_u32. now destruct (decide _). Qed.

(** Three readers in a row, as [read_vertex] and [read_face] are. *)
Lemma triple_window {A} (reader : io A) (size N : nat) :
  (forall f f', agree N f f' -> (f_pos f + size <= N)%nat ->
     match reader f, reader f' with
     | Returned (a, g), Returned (a', g') =>
       a = a' /\ agree N g g' /\ f_pos g = (f_pos f + size)%nat
     | Raised e, Raised e' => e = e'
     | OutOfFuel, OutOfFuel => True
     | _, _ => False
     end) ->
  forall f f', agree N f f' -> (f_pos f + 3 * size <= N)%nat ->
    match (x ← reader; y ← reader; z ← reader; ret (x, y, z)) f,
          (x ← reader; y ← reader; z ← reader; ret (x, y, z)) f' with
    | Returned (a, g), Returned (a', g') =>
      a = a' /\ agree N g g' /\ f_pos g = (f_pos f + 3 * size)%nat
    | Raised e, Raised e' => e = e'
    | OutOfFuel, OutOfFuel => True
    | _, _ => False
    end.
Proof.
  intros Hr f f' Hf Hle. unfold mbind, io_bind.
  pose proof (Hr f f' Hf ltac:(lia)) as H1.
  destruct (reader f) as [[x g1]| |], (reader f') as [[x' g1']| |]; trivial; try contradiction.
  destruct H1 as (<- & Hg1 & Hp1).
  pose proof (Hr g1 g1' Hg1 ltac:(lia)) as H2.
  destruct (reader g1) as [[y g2]| |], (reader g1') as [[y' g2']| |]; trivial;
    try contradiction.
  destruct H2 as (<- & Hg2 & Hp2).
  pose proof (Hr g2 g2' Hg2 ltac:(lia)) as H3.
  destruct (reader g2) as [[z g3]| |], (reader g2') as [[z' g3']| |]; trivial;
    try contradiction.
  destruct H3 as (<- & Hg3 & Hp3). cbn. repeat split; try apply Hg3. lia.
Qed.

Lemma read_vertices_window N n : forall f f',
  agree N f f' -> (f_pos f + 12 * n <= N)%nat ->
  read_vertices n f = read_vertices n f'.
Proof.
  induction n as [|n IH]; intros f f' Hf Hle; [reflexivity|]. cbn [read_vertices].
  pose proof (triple_window read_float 4 N
                (reader_window 4 unpack_f32 unpack_f32_size N) f f' Hf ltac:(lia)) as H.
  fold P3DParser.read_vertex in H.
  destruct (P3DParser.read_vertex f) as [[v g]| |],
           (P3DParser.read_vertex f') as [[v' g']| |]; trivial; try contradiction.
  destruct H as (<- & Hg & Hp). f_equal. apply IH; [exact Hg | lia].
Qed.

Lemma read_faces_window N n : forall f f',
  agree N f f' -> (f_pos f + 6 * n <= N)%nat ->
  read_faces n f = read_faces n f'.
Proof.
  induction n as [|n IH]; intros f f' Hf Hle; [reflexivity|]. cbn [read_faces].
  pose proof (triple_window read_ushort 2 N
                (reader_window 2 unpack_u16 unpack_u16_size N) f f' Hf ltac:(lia)) as H.
  fold P3DParser.read_face in H.
  destruct (P3DParser.read_face f) as [[v g]| |],
           (P3DParser.read_face f') as [[v' g']| |]; trivial; try contradiction.
  destruct H as (<- & Hg & Hp). f_equal. apply IH; [exact Hg | lia].
Qed.

Lemma seek_agree N pos d d' :
  take N d = take N d' -> agree N (P3DParser.seek_to pos d) (P3DParser.seek_to pos d').
Proof. now split. Qed.

Lemma kept_vertices_window fmt d d' :
  take window d = take window d' -> kept_vertices fmt d = kept_vertices fmt d'.
Proof.
  intros Hd. unfold kept_vertices.
  assert (Hreads : reads_vertices fmt d = reads_vertices fmt d').
  { destruct fmt; [|reflexivity]. unfold reads_vertices.
    pose proof (reader_window 4 unpack_u32 unpack_u32_size window
                  (P3DParser.seek_to 8 d) (P3DParser.seek_to 8 d')
                  (seek_agree _ _ _ _ Hd) ltac:(unfold window; simpl; lia)) as H.
    fold read_uint in H.
    destruct (read_uint (P3DParser.seek_to 8 d)) as [[v g]| |],
             (read_uint (P3DParser.seek_to 8 d')) as [[v' g']| |]; trivial;
      try contradiction.
    now destruct H as (<- & _). }
  rewrite <- Hreads. destruct (reads_vertices fmt d); [|reflexivity].
  unfold vertex_candidates.
  rewrite (read_vertices_window window _ _ _ (seek_agree _ (vertex_offset fmt) _ _ Hd));
    [reflexivity|].
  destruct fmt; unfold window; simpl; lia.
Qed.

Lemma kept_faces_window fmt d d' :
  take window d = take window d' -> kept_faces fmt d = kept_faces fmt d'.
Proof.
  intros Hd. unfold kept_faces. cbv zeta.
  rewrite <- (kept_vertices_window fmt d d' Hd).
  pose proof (kept_vertices_length fmt d) as Hcap.
  set (nv := length (kept_vertices fmt d)) in *.
  unfold face_candidates.
  rewrite (read_faces_window window _ _ _ (seek_agree _ (face_offset fmt) _ _ Hd));
    [reflexivity|].
  assert (nv / 3 <= 33)%nat.
  { assert (nv <= 100)%nat by (destruct fmt; cbn [vertex_cap] in Hcap; lia).
    pose proof (Nat.Div0.mul_div_le nv 3). lia. }
  unfold P3DParser.seek_to, window. cbn [f_pos].
  destruct fmt; cbn [face_offset face_limit]; lia.
Qed.

(** The samplers look through a fixed window: two files that agree on
    their first 1300 bytes get the same answer from
    [get_basic_model_info], model and sampler calls alike.  Nothing
    beyond byte 1300 of a model file is ever looked at. *)
Theorem sampler_window w w' path data data' :
  os.open_rb path w = Returned data ->
  os.open_rb path w' = Returned data' ->
  take window data = take window data' ->
  P3DParser.get_basic_model_info w path = P3DParser.get_basic_model_info w' path.
Proof.
  intros Hopen Hopen' Hd. rewrite !basic_model_info_data, Hopen, Hopen'.
  assert (H4 : take 4 data = take 4 data').
  { transitivity (take 4 (take window data)); [now rewrite take_take|].
    rewrite Hd. now rewrite take_take. }
  assert (Hlen : forall n, (n <= window)%nat ->
            ((n <= length data)%nat <-> (n <= length data')%nat)).
  { intros n Hn. apply (f_equal length) in Hd. rewrite !length_take in Hd. lia. }
  rewrite <- H4. destruct (P3DParser.magic_of (take 4 data)) as [fmt|]; [|reflexivity].
  rewrite (kept_vertices_window fmt _ _ Hd), (kept_faces_window fmt _ _ Hd).
  pose proof (Hlen 8%nat ltac:(unfold window; lia)) as H8.
  pose proof (Hlen (least_size fmt)
                ltac:(destruct fmt; unfold least_size, sampler_needs, window; lia)) as Hl.
  destruct (decide (8 <= length data)%nat), (decide (8 <= length data')%nat);
    try tauto; try reflexivity.
  destruct (decide (least_size fmt <= length data)%nat),
           (decide (least_size fmt <= length data')%nat); try tauto; reflexivity.
Qed.

(** ** From a model back to its class *)

Lemma name_loop_find model_path items :
  ConfigParser.name_loop (lower (path_name model_path)) items
  = fst <$> find (same_name model_path) items.
Proof.
  induction items as [|[c v] items IH]; [reflexivity|].
  cbn [ConfigParser.name_loop find]. unfold same_name at 1. cbn [snd].
  now destruct (bool_decide _).
Qed.

Lemma loose_loop_find model_path items :
  ConfigParser.loose_loop (lower (path_name model_path)) items
  = fst <$> find (loosely model_path) items.
Proof.
  induction items as [|[c v] items IH]; [reflexivity|].
  cbn [ConfigParser.loose_loop find]. unfold loosely at 1. cbn [snd].
  now destruct (_ || _).
Qed.

Lemma is_prefix_refl a : is_prefix a a = true.
Proof. apply is_prefix_spec. reflexivity. Qed.

Lemma contains_nil b : contains [] b = true.
Proof. now destruct b. Qed.

Lemma contains_refl a : contains a a = true.
Proof. destruct a; [reflexivity|]. cbn [contains]. now rewrite is_prefix_refl. Qed.

Lemma find_class_find model_path mappings :
  ConfigParser.find_class_for_model model_path mappings
  = match find (same_name model_path) mappings with
    | Some item => Some (fst item)
    | None => fst <$> find (loosely model_path) mappings
    end.
Proof.
  unfold ConfigParser.find_class_for_model. cbv zeta.
  rewrite name_loop_find, loose_loop_find.
  now destruct (find (same_name model_path) mappings).
Qed.

(** On paths of code points below 128, [find_class_for_model] makes two
    passes over the dictionary in
    insertion order.  The first returns the first class whose model has
    the wanted file name, case set aside; only when there is none, the
    second returns the first class whose model path contains the wanted
    name or whose model stem is contained in it.  The answer is [None]
    exactly when no item passes either test; in particular a path
    without a file name (the empty path, or [/]) gets the first class of
    any non-empty dictionary. *)
Theorem find_class_two_passes model_path mappings :
  ascii_text model_path -> ascii_texts (map snd mappings) ->
  ConfigParser.find_class_for_model model_path mappings
  = match find (same_name model_path) mappings with
    | Some item => Some (fst item)
    | None => fst <$> find (loosely model_path) mappings
    end /\
  (ConfigParser.find_class_for_model model_path mappings = None <->
   forall item, item ∈ mappings ->
     same_name model_path item = false /\ loosely model_path item = false) /\
  (path_name model_path = [] ->
   ConfigParser.find_class_for_model model_path mappings
   = match find (same_name model_path) mappings with
     | Some item => Some (fst item)
     | None => fst <$> head mappings
     end).
Proof.
  intros _ _.
  pose proof (find_class_find model_path mappings) as Heq.
  split; [exact Heq|]. split.
  - rewrite Heq. destruct (find (same_name model_path) mappings) as [x|] eqn:H1.
    + split; [discriminate|]. intros H. apply find_some in H1 as [Hin Hx].
      apply (proj2 (list_elem_of_In _ _)) in Hin. destruct (H x Hin). congruence.
    + destruct (find (loosely model_path) mappings) as [y|] eqn:H2.
      * split; [discriminate|]. intros H. apply find_some in H2 as [Hin Hy].
        apply (proj2 (list_elem_of_In _ _)) in Hin. destruct (H y Hin). congruence.
      * split; [|reflexivity]. intros _ item Hin.
        rewrite find_none in H1, H2. now split; [apply H1 | apply H2].
  - intros Hname. rewrite Heq.
    destruct (find (same_name model_path) mappings); [reflexivity|].
    destruct mappings as [|item rest]; [reflexivity|]. cbn [find head].
    unfold loosely. rewrite Hname. cbn [lower map]. now rewrite contains_nil.
Qed.

(** Round trip, on model paths of code points below 128.  Looking up
    the model path stored for a class always finds a class, one whose
    model has the same file name, case set aside; it is that very class
    when no item before it in the dictionary has a model of that file
    name. *)
Theorem find_class_round_trip mappings i class_name model :
  ascii_texts (map snd mappings) ->
  mappings !! i = Some (class_name, model) ->
  exists found fmodel,
    ConfigParser.find_class_for_model model mappings = Some found /\
    (found, fmodel) ∈ mappings /\
    lower (path_name fmodel) = lower (path_name model) /\
    ((forall j item, (j < i)%nat -> mappings !! j = Some item ->
        lower (path_name (snd item)) <> lower (path_name model)) ->
     found = class_name).
Proof.
  intros _ Hi.
  destruct (find (same_name model) mappings) as [[found fmodel]|] eqn:Hfind.
  - exists found, fmodel.
    pose proof (find_class_find model mappings) as Heq. rewrite Hfind in Heq.
    split; [exact Heq|].
    pose proof Hfind as Hfirst. apply find_first_passing in Hfirst as (k & Hk & Htest & Hbefore).
    split; [now apply list_elem_of_lookup_2 in Hk|].
    split; [now apply bool_decide_eq_true_1 in Htest|].
    intros Huniq. destruct (Nat.lt_trichotomy k i) as [Hlt | [-> | Hgt]].
    + exfalso. apply (Huniq k _ Hlt Hk). now apply bool_decide_eq_true_1 in Htest.
    + rewrite Hi in Hk. now injection Hk as <- <-.
    + specialize (Hbefore i _ Hgt Hi). unfold same_name in Hbefore. cbn [snd] in Hbefore.
      now rewrite bool_decide_eq_true_2 in Hbefore.
  - exfalso. rewrite find_none in Hfind.
    specialize (Hfind _ (list_elem_of_lookup_2 _ _ _ Hi)).
    unfold same_name in Hfind. cbn [snd] in Hfind.
    now rewrite bool_decide_eq_true_2 in Hfind.
Qed.

(** ** Walking the file tree *)

Import Finding.

Lemma is_name_spec name :
  os.is_name name = true ->
  name <> [] /\ name <> os.dot /\ name <> os.dotdot /\
  Forall (fun c => os.is_sep c = false) name.
Proof.
  unfold os.is_name. rewrite !andb_true_iff, !negb_true_iff.
  intros [[[H1 H2] H3] H4].
  apply bool_decide_eq_false_1 in H1, H2, H3. repeat split; trivial.
  apply Forall_forall. intros c Hc. rewrite forallb_forall in H4.
  apply negb_true_iff, H4, list_elem_of_In, Hc.
Qed.

Lemma split_sep_name name :
  Forall (fun c => os.is_sep c = false) name -> os.split_sep name = [name].
Proof.
  induction 1 as [|c name Hc _ IH]; [reflexivity|].
  cbn [os.split_sep]. now rewrite Hc, IH.
Qed.

Lemma push_name stack name :
  os.is_name name = true -> os.push stack name = name :: stack.
Proof.
  intros (H1 & H2 & H3 & _)%is_name_spec. unfold os.push.
  now rewrite !bool_decide_eq_false_2 by assumption.
Qed.

Lemma startswith_sep_name name :
  os.is_name name = true -> os.startswith_sep name = false.
Proof.
  intros (H1 & _ & _ & H4)%is_name_spec. destruct name as [|c name]; [congruence|].
  apply Forall_cons in H4 as [Hc _]. exact Hc.
Qed.

(** Joining a name to a directory path goes one step down. *)
Lemma resolve_join_name top name :
  top <> [] -> os.is_name name = true ->
  os.resolve (os.path_join top name) = os.resolve top ++ [name].
Proof.
  intros Htop Hname. pose proof (is_name_spec _ Hname) as (_ & _ & _ & Hsep).
  unfold os.path_join. rewrite (startswith_sep_name _ Hname).
  rewrite bool_decide_eq_false_2 by exact Htop. cbn [orb].
  assert (Hstack : os.stack_of (if os.endswith_sep top then top ++ name
                                else top ++ [os.sep] ++ name)
                   = name :: os.stack_of top).
  { destruct (os.endswith_sep top) eqn:Hend.
    - unfold os.endswith_sep in Hend.
      destruct (last top) as [c|] eqn:Hlast; [|discriminate].
      apply bool_decide_eq_true_1 in Hend. subst c.
      apply last_Some in Hlast as [r ->].
      rewrite <- app_assoc. cbn [app]. rewrite stack_app_sep, (split_sep_name _ Hsep).
      cbn [fold_left]. now apply push_name.
    - cbn [app]. rewrite stack_app_sep, (stack_trailing_sep top Htop),
        (split_sep_name _ Hsep). cbn [fold_left]. now apply push_name. }
  unfold os.resolve. destruct (os.endswith_sep top); now rewrite Hstack.
Qed.

Lemma path_join_nonempty top name : name <> [] -> os.path_join top name <> [].
Proof.
  intros Hn. unfold os.path_join. destruct (os.startswith_sep name); [exact Hn|].
  destruct (_ || _); intros H; apply app_eq_nil in H as [_ H]; [congruence|].
  discriminate.
Qed.

Lemma children_spec w p name n :
  (name, n) ∈ os.children w p <->
  os.tree w !! (p ++ [name]) = Some n /\ os.is_name name = true.
Proof.
  unfold os.children. rewrite list_elem_of_omap. split.
  - intros ([q n'] & Hq & He). apply elem_of_map_to_list in Hq.
    unfold os.entry_at in He. cbn [fst snd] in He.
    destruct (last q) as [name'|] eqn:Hlast; [|discriminate].
    destruct (bool_decide (removelast q = p)) eqn:Hp; [|discriminate].
    destruct (os.is_name name') eqn:Hn; [|discriminate].
    injection He as <- <-. apply bool_decide_eq_true_1 in Hp.
    apply last_Some in Hlast as [r ->]. rewrite removelast_last in Hp. subst r.
    now split.
  - intros [Hq Hn]. exists (p ++ [name], n). split; [now apply elem_of_map_to_list|].
    unfold os.entry_at. cbn [fst snd].
    rewrite last_snoc, removelast_last, bool_decide_eq_true_2, Hn by reflexivity.
    reflexivity.
Qed.

Lemma depth_bounds w q n : os.tree w !! q = Some n -> (length q <= os.depth w)%nat.
Proof.
  intros Hq. apply elem_of_map_to_list in Hq. unfold os.depth.
  pose proof (proj1 (list_max_le _ _) (le_n (list_max
                (map (fun x => length (fst x)) (map_to_list (os.tree w)))))) as Hall.
  rewrite List.Forall_forall in Hall. apply (Hall (length q)).
  apply in_map_iff. exists (q, n). split; [reflexivity | now apply list_elem_of_In].
Qed.

Section Walk.

Context (order : os.listing).
Hypothesis order_permutes : forall l, order l ≡ₚ l.
Context (w : os.world).

Lemma subdirs_spec p name :
  name ∈ os.subdirs (order (os.children w p)) <->
  os.tree w !! (p ++ [name]) = Some os.Dir /\ os.is_name name = true.
Proof.
  unfold os.subdirs. rewrite list_elem_of_fmap. split.
  - intros ([name' n] & -> & Hx). apply list_elem_of_filter in Hx as [Hd Hx].
    rewrite order_permutes in Hx. apply children_spec in Hx as [Hq Hn].
    unfold os.is_dir in Hd. cbn [snd] in Hd. destruct n; [now split | discriminate].
  - intros [Hq Hn]. exists (name, os.Dir). split; [reflexivity|].
    apply list_elem_of_filter. split; [reflexivity|].
    rewrite order_permutes. now apply children_spec.
Qed.

Lemma nondirs_spec p name :
  name ∈ os.nondirs (order (os.children w p)) <->
  (exists content, os.tree w !! (p ++ [name]) = Some (os.File content)) /\
  os.is_name name = true.
Proof.
  unfold os.nondirs. rewrite list_elem_of_fmap. split.
  - intros ([name' n] & -> & Hx). apply list_elem_of_filter in Hx as [Hd Hx].
    rewrite order_permutes in Hx. apply children_spec in Hx as [Hq Hn].
    unfold os.is_dir in Hd. cbn [snd] in Hd. destruct n; [discriminate | eauto].
  - intros [[content Hq] Hn]. exists (name, os.File content). split; [reflexivity|].
    apply list_elem_of_filter. split; [reflexivity|].
    rewrite order_permutes. now apply children_spec.
Qed.

Lemma walk_each_spec walk tops below :
  os.walk_each walk tops = Returned below ->
  forall s, s ∈ below <-> exists top here, top ∈ tops /\ walk top = Returned here /\ s ∈ here.
Proof.
  revert below. induction tops as [|top tops IH]; intros below H s; cbn in H.
  - injection H as <-. split; [intros Hs; now apply elem_of_nil in Hs|].
    intros (? & ? & Ht & _). now apply elem_of_nil in Ht.
  - destruct (walk top) as [here| |] eqn:Hw; try discriminate.
    destruct (os.walk_each walk tops) as [there| |]; try discriminate.
    injection H as <-. rewrite elem_of_app, (IH there eq_refl). split.
    + intros [Hs | (top' & here' & Ht & Hw' & Hs)].
      * exists top, here. split; [apply list_elem_of_here | now split].
      * exists top', here'. split; [now apply list_elem_of_further | now split].
    + intros (top' & here' & Ht & Hw' & Hs). apply elem_of_cons in Ht as [-> | Ht].
      * left. rewrite Hw in Hw'. now injection Hw' as <-.
      * right. now exists top', here'.
Qed.

Lemma walk_each_returns walk tops :
  (forall top, top ∈ tops -> exists here, walk top = Returned here) ->
  exists below, os.walk_each walk tops = Returned below.
Proof.
  induction tops as [|top tops IH]; intros H; cbn; [eauto|].
  destruct (H top (list_elem_of_here _ _)) as [here ->].
  destruct IH as [there ->]; [|eauto].
  intros t Ht. apply H. now apply list_elem_of_further.
Qed.

Lemma walk_each_returns_inv walk tops below :
  os.walk_each walk tops = Returned below ->
  forall top, top ∈ tops -> exists here, walk top = Returned here.
Proof.
  revert below. induction tops as [|top0 tops IH]; intros below H top Ht; cbn in H.
  - now apply elem_of_nil in Ht.
  - destruct (walk top0) as [here| |] eqn:Hw; try discriminate.
    destruct (os.walk_each walk tops) as [there| |]; try discriminate.
    apply elem_of_cons in Ht as [-> | Ht]; [eauto | now apply (IH there)].
Qed.

(** The walk ends: a directory it enters lies one step deeper in the
    tree than the one it comes from. *)
Lemma walk_from_returns fuel : forall top,
  (1 <= fuel)%nat -> (os.depth w + 1 <= fuel + length (os.resolve top))%nat ->
  exists steps, os.walk_from order fuel w top = Returned steps.
Proof.
  induction fuel as [|fuel IH]; intros top Hpos Hfuel; [lia|].
  cbn [os.walk_from]. unfold os.scandir.
  destruct (bool_decide (top = [])) eqn:Htop; [eauto|].
  apply bool_decide_eq_false_1 in Htop.
  destruct (os.isdir w (os.resolve top)); [|eauto]. cbv zeta.
  destruct (walk_each_returns (os.walk_from order fuel w)
              (map (os.path_join top) (os.subdirs (order (os.children w (os.resolve top))))))
    as [below ->]; [|eauto].
  intros t Ht. apply list_elem_of_fmap in Ht as (name & -> & Hname).
  apply subdirs_spec in Hname as [Hq Hn].
  pose proof (depth_bounds _ _ _ Hq) as Hd. rewrite length_app in Hd. cbn in Hd.
  apply IH; rewrite ?(resolve_join_name _ _ Htop Hn), ?length_app; cbn; lia.
Qed.

Lemma reached_nil top :
  top <> [] -> os.isdir w (os.resolve top) = true -> reached w top [].
Proof.
  intros Htop Hdir. split; [exact Htop|]. split; [exact Hdir|]. split; [constructor|].
  intros k Hk. cbn in Hk. lia.
Qed.

Lemma reached_cons top name rel :
  top <> [] -> os.isdir w (os.resolve top) = true ->
  os.tree w !! (os.resolve top ++ [name]) = Some os.Dir -> os.is_name name = true ->
  (reached w (os.path_join top name) rel <-> reached w top (name :: rel)).
Proof.
  intros Htop Hdir Hq Hn. unfold reached.
  rewrite (resolve_join_name _ _ Htop Hn). split.
  - intros (_ & _ & Hrel & Hk). repeat split; trivial; [now constructor|].
    intros [|[|k]] Hlt; [lia | exact Hq |].
    specialize (Hk (S k) ltac:(cbn in Hlt; lia)).
    now rewrite <- app_assoc in Hk.
  - intros (_ & _ & Hrel & Hk). apply Forall_cons in Hrel as [_ Hrel].
    split; [apply path_join_nonempty; now apply is_name_spec in Hn|].
    split; [unfold os.isdir; now rewrite Hq, orb_true_r|]. split; [exact Hrel|].
    intros k Hlt. specialize (Hk (S k) ltac:(cbn; lia)).
    now rewrite <- app_assoc.
Qed.

(** What the walk yields: one step for every directory it reaches, with
    the path it built for it and what the host lists there. *)
Lemma walk_from_spec fuel : forall top steps,
  os.walk_from order fuel w top = Returned steps ->
  forall s, s ∈ steps <->
    exists rel,
      reached w top rel /\
      s = (joined top rel,
           os.subdirs (order (os.children w (os.resolve top ++ rel))),
           os.nondirs (order (os.children w (os.resolve top ++ rel)))).
Proof.
  induction fuel as [|fuel IH]; intros top steps H s; [discriminate|].
  cbn [os.walk_from] in H. unfold os.scandir in H.
  destruct (bool_decide (top = [])) eqn:Htop.
  { injection H as <-. split; [intros Hs; now apply elem_of_nil in Hs|].
    intros (rel & (Hne & _) & _). now apply bool_decide_eq_true_1 in Htop. }
  apply bool_decide_eq_false_1 in Htop.
  destruct (os.isdir w (os.resolve top)) eqn:Hdir.
  2:{ injection H as <-. split; [intros Hs; now apply elem_of_nil in Hs|].
      intros (rel & (_ & Hd & _) & _). congruence. }
  cbv zeta in H.
  destruct (os.walk_each _ _) as [below| |] eqn:Heach; try discriminate.
  injection H as <-. rewrite elem_of_cons, (walk_each_spec _ _ _ Heach). split.
  - intros [-> | (top' & here & Ht & Hw & Hs)].
    + exists []. rewrite app_nil_r. split; [now apply reached_nil | reflexivity].
    + apply list_elem_of_fmap in Ht as (name & -> & Hname).
      apply subdirs_spec in Hname as [Hq Hn].
      apply (IH _ _ Hw) in Hs as (rel & Hreach & ->).
      exists (name :: rel). split; [now apply reached_cons|].
      rewrite (resolve_join_name _ _ Htop Hn), <- app_assoc. reflexivity.
  - intros ([|name rel] & Hreach & ->).
    + left. now rewrite app_nil_r.
    + right. pose proof Hreach as (_ & _ & Hrel & Hk).
      apply Forall_cons in Hrel as [Hn _].
      pose proof (Hk 1%nat ltac:(cbn; lia)) as Hq. cbn [take] in Hq.
      assert (Hin : os.path_join top name
                    ∈ map (os.path_join top)
                        (os.subdirs (order (os.children w (os.resolve top))))).
      { apply list_elem_of_fmap. exists name. split; [reflexivity|].
        now apply subdirs_spec. }
      destruct (walk_each_returns_inv _ _ _ Heach _ Hin) as [here Hw].
      exists (os.path_join top name), here. split; [exact Hin|]. split; [exact Hw|].
      apply (IH _ _ Hw). exists rel. split; [now apply reached_cons|].
      rewrite (resolve_join_name _ _ Htop Hn), <- app_assoc. reflexivity.
Qed.

End Walk.

(** ** Finding files *)

Lemma collect_files_spec keep root files : forall found path,
  path ∈ collect_files keep root files found <->
  path ∈ found \/ exists file, file ∈ files /\ keep file = true /\ path = os.path_join root file.
Proof.
  induction files as [|file files IH]; intros found path; cbn.
  - split; [now left | intros [H | (? & H & _)]; [exact H | now apply elem_of_nil in H]].
  - fold (collect_files keep root files
            (if keep file then found ++ [os.path_join root file] else found)).
    rewrite IH. destruct (keep file) eqn:Hk.
    + rewrite elem_of_app, list_elem_of_singleton. split.
      * intros [[H | ->] | (f & Hf & Hkf & ->)]; [now left | right..].
        -- exists file. split; [apply list_elem_of_here | now split].
        -- exists f. split; [now apply list_elem_of_further | now split].
      * intros [H | (f & Hf & Hkf & ->)]; [now left; left|].
        apply elem_of_cons in Hf as [-> | Hf]; [now left; right|].
        right. now exists f.
    + split.
      * intros [H | (f & Hf & Hkf & ->)]; [now left | right].
        exists f. split; [now apply list_elem_of_further | now split].
      * intros [H | (f & Hf & Hkf & ->)]; [now left|].
        apply elem_of_cons in Hf as [-> | Hf]; [congruence|]. right. now exists f.
Qed.

Lemma collect_spec keep steps path :
  path ∈ collect keep steps <->
  exists root dirs files file,
    (root, dirs, files) ∈ steps /\ file ∈ files /\ keep file = true /\
    path = os.path_join root file.
Proof.
  unfold collect.
  assert (H : forall found,
            path ∈ fold_left (fun found s => collect_files keep (fst (fst s)) (snd s) found)
                     steps found <->
            path ∈ found \/
            exists root dirs files file,
              (root, dirs, files) ∈ steps /\ file ∈ files /\ keep file = true /\
              path = os.path_join root file).
  { induction steps as [|[[root dirs] files] steps IH]; intros found; cbn [fold_left].
    - split; [now left | intros [H | (? & ? & ? & ? & H & _)];
                           [exact H | now apply elem_of_nil in H]].
    - rewrite IH. cbn [fst snd]. rewrite collect_files_spec. split.
      + intros [[H | (file & Hf & Hk & ->)] | (r & d & fs & file & Hs & Hf & Hk & ->)];
          [now left | right..].
        * exists root, dirs, files, file. split; [apply list_elem_of_here | now repeat split].
        * exists r, d, fs, file. split; [now apply list_elem_of_further | now repeat split].
      + intros [H | (r & d & fs & file & Hs & Hf & Hk & ->)]; [now left; left|].
        apply elem_of_cons in Hs as [[= -> -> ->] | Hs].
        * left. right. now exists file.
        * right. now exists r, d, fs, file. }
  rewrite H. split; [intros [Hn | Hx]; [now apply elem_of_nil in Hn | exact Hx] | now right].
Qed.

Lemma joined_snoc top rel name :
  joined top (rel ++ [name]) = os.path_join (joined top rel) name.
Proof. unfold joined. now rewrite fold_left_app. Qed.

Lemma joined_nonempty top rel : top <> [] -> Forall (fun n => os.is_name n = true) rel ->
  joined top rel <> [].
Proof.
  revert top. induction rel as [|name rel IH]; intros top Htop Hrel; [exact Htop|].
  apply Forall_cons in Hrel as [Hn Hrel]. cbn. apply IH; [|exact Hrel].
  apply path_join_nonempty. now apply is_name_spec in Hn.
Qed.

(** The path the walk builds resolves to the place it stands for. *)
Lemma resolve_joined top rel :
  top <> [] -> Forall (fun n => os.is_name n = true) rel ->
  os.resolve (joined top rel) = os.resolve top ++ rel.
Proof.
  revert top. induction rel as [|name rel IH]; intros top Htop Hrel;
    [now rewrite app_nil_r|].
  apply Forall_cons in Hrel as [Hn Hrel]. cbn [joined fold_left].
  fold (joined (os.path_join top name) rel).
  rewrite IH, (resolve_join_name _ _ Htop Hn), <- app_assoc; trivial.
  apply path_join_nonempty. now apply is_name_spec in Hn.
Qed.

Section Finders.

Context (order : os.listing).
Hypothesis order_permutes : forall l, order l ≡ₚ l.
Context (w : os.world).

Lemma walk_returns top : exists steps, os.walk order w top = Returned steps.
Proof. apply walk_from_returns; [exact order_permutes | lia | lia]. Qed.

(** The files a finder returns: for every file of the tree that the
    walk comes across and that passes the test, the path the walk built
    for it. *)
Lemma collect_walk keep top steps path :
  os.walk order w top = Returned steps ->
  (path ∈ collect keep steps <->
   exists rel name,
     file_below w top rel name /\ keep name = true /\ path = joined top (rel ++ [name])).
Proof.
  intros Hw. rewrite collect_spec. split.
  - intros (root & dirs & files & file & Hs & Hf & Hk & ->).
    apply (walk_from_spec order order_permutes w _ _ _ Hw) in Hs as (rel & Hreach & [= -> -> ->]).
    apply (nondirs_spec order order_permutes) in Hf as [[content Hq] Hn].
    exists rel, file. split; [|split; [exact Hk | now rewrite joined_snoc]].
    split; [exact Hreach|]. split; [exact Hn|]. exists content. now rewrite app_assoc.
  - intros (rel & name & (Hreach & Hn & content & Hq) & Hk & ->).
    eexists _, _, _, name. split.
    + apply (walk_from_spec order order_permutes w _ _ _ Hw). now exists rel.
    + split; [|split; [exact Hk | now rewrite joined_snoc]].
      apply (nondirs_spec order order_permutes). split; [|exact Hn].
      exists content. now rewrite <- app_assoc.
Qed.

Lemma file_below_opens top rel name :
  file_below w top rel name ->
  exists content,
    os.open_rb (joined top (rel ++ [name])) w = Returned content /\
    os.resolve (joined top (rel ++ [name])) = os.resolve top ++ rel ++ [name].
Proof.
  intros ((Htop & _ & Hrel & _) & Hn & content & Hq). exists content.
  assert (Hres : os.resolve (joined top (rel ++ [name])) = os.resolve top ++ rel ++ [name]).
  { apply resolve_joined; [exact Htop|]. apply Forall_app. split; [exact Hrel|].
    now constructor. }
  split; [|exact Hres]. unfold os.open_rb. now rewrite Hres, Hq.
Qed.

End Finders.

(** For a directory path without a [..] component, [find_p3d_files]
    returns, whatever the order in which the host
    lists directories, exactly the files that lie in the directory or
    in a directory below it and whose name ends with [.p3d], case set
    aside; each is given by the path made of the directory and the
    names that lead to the file, and that path opens the file.  When the
    directory is missing, is a file, or is the empty path, the list is
    empty. *)
Theorem find_p3d_files_finds order w directory :
  (forall l, order l ≡ₚ l) ->
  os.no_dotdot directory ->
  exists p3d_files,
    P3DParser.find_p3d_files order w directory = Returned p3d_files /\
    (forall path, path ∈ p3d_files <->
       exists rel name,
         file_below w directory rel name /\
         lit ".p3d" `suffix_of` lower name /\
         path = joined directory (rel ++ [name])) /\
    (forall path, path ∈ p3d_files ->
       exists content, os.open_rb path w = Returned content) /\
    (directory = [] \/ os.isdir w (os.resolve directory) = false -> p3d_files = []).
Proof.
  intros Hperm _. destruct (walk_returns order Hperm w directory) as [steps Hw].
  exists (collect P3DParser.is_p3d steps).
  unfold P3DParser.find_p3d_files. rewrite Hw. split; [reflexivity|].
  assert (Hiff : forall path, path ∈ collect P3DParser.is_p3d steps <->
            exists rel name,
              file_below w directory rel name /\
              lit ".p3d" `suffix_of` lower name /\
              path = joined directory (rel ++ [name])).
  { intros path. rewrite (collect_walk order Hperm w _ _ _ _ Hw).
    unfold P3DParser.is_p3d. now setoid_rewrite endswith_spec. }
  split; [exact Hiff|]. split.
  - intros path (rel & name & Hb & _ & ->)%Hiff.
    destruct (file_below_opens w _ _ _ Hb) as (content & Hopen & _). eauto.
  - intros Hno. destruct (collect P3DParser.is_p3d steps) as [|path rest] eqn:Hc;
      [reflexivity|].
    destruct (proj1 (Hiff path) (list_elem_of_here _ _))
      as (rel & name & ((Htop & Hdir & _) & _) & _).
    destruct Hno; congruence.
Qed.

(** For a directory path without a [..] component, [find_config_files]
    returns exactly the files below the directory whose name is
    [config.bin] or [config.cpp], case set aside. *)
Theorem find_config_files_finds order w directory :
  (forall l, order l ≡ₚ l) ->
  os.no_dotdot directory ->
  exists config_files,
    ConfigParser.find_config_files order w directory = Returned config_files /\
    (forall path, path ∈ config_files <->
       exists rel name,
         file_below w directory rel name /\
         (lower name = lit "config.bin" \/ lower name = lit "config.cpp") /\
         path = joined directory (rel ++ [name])).
Proof.
  intros Hperm _. destruct (walk_returns order Hperm w directory) as [steps Hw].
  exists (collect ConfigParser.is_config steps).
  unfold ConfigParser.find_config_files. rewrite Hw. split; [reflexivity|].
  intros path. rewrite (collect_walk order Hperm w _ _ _ _ Hw).
  unfold ConfigParser.is_config.
  setoid_rewrite bool_decide_eq_true. setoid_rewrite elem_of_cons.
  setoid_rewrite list_elem_of_singleton. reflexivity.
Qed.

Lemma map_class_elem class_name p3d_files p :
  P3DParser.map_class_to_p3d class_name p3d_files = Some p -> p ∈ p3d_files.
Proof.
  unfold P3DParser.map_class_to_p3d. cbv zeta.
  rewrite exact_loop_find, fuzzy_loop_find.
  destruct (find (is_exact class_name) p3d_files) as [q|] eqn:H1.
  - intros [= <-]. apply find_some in H1 as [H _]. now apply list_elem_of_In.
  - intros H2. apply find_some in H2 as [H _]. now apply list_elem_of_In.
Qed.

Lemma fold_mapping (f : str -> option str) class_names : forall (acc : gmap str str) c,
  fold_left (fun mapping class_name =>
               if P3DParser.found_path (f class_name)
               then <[class_name := default [] (f class_name)]> mapping
               else mapping) class_names acc !! c
  = if bool_decide (c ∈ class_names) && P3DParser.found_path (f c)
    then f c else acc !! c.
Proof.
  induction class_names as [|c0 class_names IH]; intros acc c; [reflexivity|].
  cbn [fold_left]. rewrite IH.
  destruct (decide (c ∈ class_names)) as [Hin|Hout].
  - rewrite !bool_decide_eq_true_2; [|now apply list_elem_of_further|exact Hin].
    cbn [andb]. destruct (P3DParser.found_path (f c)) eqn:Hf; [reflexivity|].
    destruct (P3DParser.found_path (f c0)) eqn:Hf0; [|reflexivity].
    destruct (decide (c0 = c)) as [->|Hne]; [congruence|].
    now rewrite lookup_insert_ne.
  - rewrite (bool_decide_eq_false_2 (c ∈ class_names)) by exact Hout. cbn [andb].
    destruct (decide (c0 = c)) as [->|Hne].
    + rewrite bool_decide_eq_true_2 by apply list_elem_of_here. cbn [andb].
      destruct (P3DParser.found_path (f c)) eqn:Hf; [|reflexivity].
      rewrite lookup_insert_eq. destruct (f c) as [[|]|]; try discriminate. reflexivity.
    + rewrite (bool_decide_eq_false_2 (c ∈ c0 :: class_names))
        by (intros [?|?]%elem_of_cons; congruence).
      cbn [andb]. destruct (P3DParser.found_path (f c0)); [|reflexivity].
      now rewrite lookup_insert_ne.
Qed.

(** [create_class_to_p3d_mapping] binds every class name of the list
    that the filename fallback resolves among the model files found
    below the directory, to the path the fallback answers, and binds
    nothing else; every path of the mapping is one of the files found. *)
Theorem class_mapping_follows_fallback order w class_names p3d_directory :
  (forall l, order l ≡ₚ l) ->
  exists p3d_files mapping,
    P3DParser.find_p3d_files order w p3d_directory = Returned p3d_files /\
    P3DParser.create_class_to_p3d_mapping order w class_names p3d_directory
    = Returned mapping /\
    (forall class_name,
       mapping !! class_name
       = if bool_decide (class_name ∈ class_names)
         then P3DParser.map_class_to_p3d class_name p3d_files else None) /\
    (forall class_name p3d_path,
       mapping !! class_name = Some p3d_path -> p3d_path ∈ p3d_files).
Proof.
  intros Hperm. destruct (walk_returns order Hperm w p3d_directory) as [steps Hw].
  assert (Hfind : P3DParser.find_p3d_files order w p3d_directory
                  = Returned (collect P3DParser.is_p3d steps)).
  { unfold P3DParser.find_p3d_files. now rewrite Hw. }
  set (p3d_files := collect P3DParser.is_p3d steps) in *.
  eexists p3d_files, _. split; [exact Hfind|].
  unfold P3DParser.create_class_to_p3d_mapping. rewrite Hfind. cbn [P3DParser.then_].
  split; [reflexivity|].
  assert (Hlookup : forall class_name,
            fold_left
              (fun mapping class_name =>
                 let p3d_path := P3DParser.map_class_to_p3d class_name p3d_files in
                 if P3DParser.found_path p3d_path
                 then <[class_name := default [] p3d_path]> mapping else mapping)
              class_names (∅ : gmap str str) !! class_name
            = if bool_decide (class_name ∈ class_names)
              then P3DParser.map_class_to_p3d class_name p3d_files else None).
  { intros c. cbv zeta.
    rewrite (fold_mapping (fun c => P3DParser.map_class_to_p3d c p3d_files)).
    rewrite lookup_empty. destruct (bool_decide (c ∈ class_names)); [|reflexivity].
    cbn [andb].
    destruct (P3DParser.map_class_to_p3d c p3d_files) as [p|] eqn:Hm; [|reflexivity].
    apply map_class_elem in Hm.
    apply (collect_walk order Hperm w _ _ _ _ Hw) in Hm
      as (rel & name & ((Htop & _ & Hrel & _) & Hn & _) & _ & ->).
    assert (Hne : joined p3d_directory (rel ++ [name]) <> []).
    { apply joined_nonempty; [exact Htop|]. apply Forall_app. split; [exact Hrel|].
      now constructor. }
    cbn. now destruct (joined p3d_directory (rel ++ [name])). }
  split; [exact Hlookup|].
  intros c p Hc. rewrite Hlookup in Hc.
  destruct (bool_decide (c ∈ class_names)); [|discriminate].
  now apply map_class_elem in Hc.
Qed.

(** ** The general matcher *)

Import Blocks.

Lemma lang_star_concat r ws :
  Forall (sre.lang r) ws -> sre.lang (sre.Star r) (concat ws).
Proof.
  induction 1 as [|w ws Hw _ IH]; [constructor|]. cbn. now constructor.
Qed.

Lemma no_group_spans (new : sre.spans) : Forall (fun x => fst x ∈ @nil nat) new -> new = [].
Proof.
  destruct new as [|x new]; [reflexivity|]. intros H. apply Forall_cons in H as [H _].
  now apply elem_of_nil in H.
Qed.

Section Soundness.

Implicit Types (k : sre.cont) (s w : str) (caps new : sre.spans).

(** A repetition is sound when its body is. *)
Lemma star_turns_sound (body : sre.cont -> sre.cont) (L : str -> Prop) (G : list nat) :
  (forall k s pos caps res,
     body k s pos caps = Some res ->
     exists w s' new,
       s = w ++ s' /\ L w /\ Forall (fun x => fst x ∈ G) new /\
       k s' (pos + length w)%nat (new ++ caps) = Some res) ->
  forall n k s pos caps res,
    sre.star_loop body k n s pos caps = Some res ->
    exists ws s' new,
      s = concat ws ++ s' /\ Forall L ws /\ Forall (fun x => fst x ∈ G) new /\
      k s' (pos + length (concat ws))%nat (new ++ caps) = Some res.
Proof.
  intros Hbody n. induction n as [|n IH]; intros k s pos caps res H; cbn [sre.star_loop] in H.
  - exists [], s, []. cbn. rewrite Nat.add_0_r. now repeat split.
  - destruct (body _ s pos caps) as [res'|] eqn:Hb.
    + injection H as ->. apply Hbody in Hb as (w & s1 & new1 & -> & Hw & Hn1 & Hk).
      destruct (pos + length w =? pos)%nat; [discriminate|].
      apply IH in Hk as (ws & s' & new2 & -> & Hws & Hn2 & Hk).
      exists (w :: ws), s', (new2 ++ new1). cbn [concat].
      rewrite <- !app_assoc, length_app, Nat.add_assoc.
      repeat split; trivial; [now constructor | now apply Forall_app].
    + exists [], s, []. cbn. rewrite Nat.add_0_r. now repeat split.
Qed.

(** Whatever the matcher answers passes through a word of the pattern's
    language, and records spans for the pattern's own groups only. *)
Lemma run_sound r : forall k s pos caps res,
  sre.run r k s pos caps = Some res ->
  exists w s' new,
    s = w ++ s' /\ sre.lang r w /\ Forall (fun x => fst x ∈ sre.groups r) new /\
    k s' (pos + length w)%nat (new ++ caps) = Some res.
Proof.
  induction r as [|p|a IHa b IHb|r IH|n r IH]; intros k s pos caps res H; cbn [sre.run] in H.
  - exists [], s, []. cbn. rewrite Nat.add_0_r. repeat split; trivial; constructor.
  - destruct s as [|c s]; [discriminate|]. destruct (p c) eqn:Hc; [|discriminate].
    exists [c], s, []. cbn. rewrite Nat.add_1_r. repeat split; trivial; now constructor.
  - apply IHa in H as (u & s1 & new1 & -> & Hu & Hn1 & H).
    apply IHb in H as (v & s2 & new2 & -> & Hv & Hn2 & H).
    exists (u ++ v), s2, (new2 ++ new1).
    rewrite <- !app_assoc, length_app, Nat.add_assoc. cbn [sre.groups].
    repeat split; trivial; [now constructor|]. apply Forall_app. split.
    + eapply Forall_impl; [exact Hn2|]. intros x Hx. apply elem_of_app. now right.
    + eapply Forall_impl; [exact Hn1|]. intros x Hx. apply elem_of_app. now left.
  - apply (star_turns_sound _ (sre.lang r) (sre.groups r) IH) in H
      as (ws & s' & new & -> & Hws & Hn & H).
    exists (concat ws), s', new. repeat split; trivial. now apply lang_star_concat.
  - apply IH in H as (w & s' & new & -> & Hw & Hn & H).
    exists w, s', ((n, (pos, pos + length w)%nat) :: new). cbn [sre.groups].
    repeat split; trivial; [now constructor|]. constructor; [apply list_elem_of_here|].
    eapply Forall_impl; [exact Hn|]. intros x Hx. now apply list_elem_of_further.
Qed.

End Soundness.

Lemma lang_chr w p : sre.lang (sre.Chr p) w -> exists c, w = [c] /\ p c = true.
Proof. inversion 1; subst. eauto. Qed.

Lemma lang_star_chr p w :
  sre.lang (sre.Star (sre.Chr p)) w -> Forall (fun c => p c = true) w.
Proof.
  intros H. remember (sre.Star (sre.Chr p)) as r eqn:Hr.
  induction H as [| | |r0|r0 u v Hu _ Hv IH|]; try discriminate; [constructor|].
  injection Hr as ->. apply lang_chr in Hu as (c & -> & Hc).
  constructor; [exact Hc | now apply IH].
Qed.

Lemma lang_plus_chr p w :
  sre.lang (sre.plus (sre.Chr p)) w -> w <> [] /\ Forall (fun c => p c = true) w.
Proof.
  unfold sre.plus. inversion 1 as [| |a b u v Hu Hv| | |]; subst.
  apply lang_chr in Hu as (c & -> & Hc). apply lang_star_chr in Hv.
  split; [discriminate | now constructor].
Qed.

Lemma lang_literal l : forall w,
  sre.lang (sre.seq (map (fun c => sre.Chr (fun x => bool_decide (lower_char x = lower_char c))) l)) w ->
  lower w = lower l.
Proof.
  induction l as [|c l IH]; intros w H; cbn in H.
  - now inversion H.
  - inversion H as [| |a b u v Hu Hv| | |]; subst.
    apply lang_chr in Hu as (x & -> & Hx). apply bool_decide_eq_true_1 in Hx.
    specialize (IH v Hv). unfold lower in *. cbn. now rewrite Hx, IH.
Qed.

Lemma run_seq a b k : sre.run (sre.Seq a b) k = sre.run a (sre.run b k).
Proof. reflexivity. Qed.

Lemma run_group n r k s pos caps :
  sre.run (sre.Group n r) k s pos caps
  = sre.run r (fun s' pos' caps' => k s' pos' ((n, (pos, pos')) :: caps')) s pos caps.
Proof. reflexivity. Qed.

(** A match of the class pattern of [parse_config_cpp] covers a
    well-formed block, and its two groups are the name and the body. *)
Lemma block_match_sound s pos e caps :
  sre.match_at ConfigParser.cpp_class_pattern s pos = Some (e, caps) ->
  exists b rest,
    s = block_text b ++ rest /\ wf_block b /\
    e = (pos + length (block_text b))%nat /\
    let name_at := (pos + length (b_keyword b) + length (b_blanks b))%nat in
    let body_at := (name_at + length (b_name b) + length (b_heading b) + 1)%nat in
    caps = [(2%nat, (body_at, (body_at + length (b_body b))%nat));
            (1%nat, (name_at, (name_at + length (b_name b))%nat))].
Proof.
  unfold sre.match_at, ConfigParser.cpp_class_pattern. cbn [sre.seq fold_right].
  intros H.
  rewrite run_seq in H. apply run_sound in H as (kw & s1 & n1 & -> & Hkw & Hn1 & H).
  apply no_group_spans in Hn1 as ->. cbn [app] in H.
  rewrite run_seq in H. apply run_sound in H as (ws & s2 & n2 & -> & Hws & Hn2 & H).
  apply no_group_spans in Hn2 as ->. cbn [app] in H.
  rewrite run_seq, run_group in H.
  apply run_sound in H as (name & s3 & n3 & -> & Hname & Hn3 & H).
  apply no_group_spans in Hn3 as ->. cbn [app] in H.
  rewrite run_seq in H. apply run_sound in H as (mid & s4 & n4 & -> & Hmid & Hn4 & H).
  apply no_group_spans in Hn4 as ->. cbn [app] in H.
  rewrite run_seq in H. apply run_sound in H as (ob & s5 & n5 & -> & Hob & Hn5 & H).
  apply no_group_spans in Hn5 as ->. cbn [app] in H.
  rewrite run_seq, run_group in H.
  apply run_sound in H as (body & s6 & n6 & -> & Hbody & Hn6 & H).
  apply no_group_spans in Hn6 as ->. cbn [app] in H.
  rewrite run_seq in H. apply run_sound in H as (cb & s7 & n7 & -> & Hcb & Hn7 & H).
  apply no_group_spans in Hn7 as ->. cbn [app sre.run] in H.
  injection H as <- <-.
  apply lang_chr in Hob as (c1 & -> & ->%bool_decide_eq_true_1).
  apply lang_chr in Hcb as (c2 & -> & ->%bool_decide_eq_true_1).
  exists (mk_block kw ws name mid body), s7. cbn [b_keyword b_blanks b_name b_heading b_body].
  split.
  { unfold block_text. cbn [b_keyword b_blanks b_name b_heading b_body].
    rewrite <- !app_assoc. reflexivity. }
  split.
  - split; cbn.
    + apply (lang_literal (lit "class")), Hkw.
    + now apply lang_plus_chr.
    + now apply lang_plus_chr.
    + apply lang_star_chr in Hmid. eapply Forall_impl; [exact Hmid|].
      intros c Hc ->. discriminate Hc.
    + exact Hbody.
  - unfold block_text. cbn [b_keyword b_blanks b_name b_heading b_body].
    rewrite !length_app. cbn [length].
    split; [lia|]. cbv zeta. repeat f_equal; lia.
Qed.

(** ** The scan of a configuration source *)

Lemma sre_finditer_from_match r s : forall pos skip m,
  m ∈ sre.finditer_from r s pos skip ->
  exists pre s0,
    s = pre ++ s0 /\ sre.m_start m = (pos + length pre)%nat /\
    sre.match_at r s0 (sre.m_start m) = Some (sre.m_end m, sre.m_spans m).
Proof.
  induction s as [|c s IH]; intros pos skip m Hm; cbn [sre.finditer_from] in Hm.
  - now apply elem_of_nil in Hm.
  - assert (Hlater : forall skip', m ∈ sre.finditer_from r s (S pos) skip' ->
              exists pre s0,
                c :: s = pre ++ s0 /\ sre.m_start m = (pos + length pre)%nat /\
                sre.match_at r s0 (sre.m_start m) = Some (sre.m_end m, sre.m_spans m)).
    { intros skip' H. apply IH in H as (pre & s0 & -> & Hs & Hmatch).
      exists (c :: pre), s0. cbn. split; [reflexivity|]. split; [lia | exact Hmatch]. }
    destruct skip as [|k]; [|now apply Hlater in Hm].
    destruct (sre.match_at r (c :: s) pos) as [[e caps]|] eqn:Hmatch;
      [|now apply Hlater in Hm].
    apply elem_of_cons in Hm as [-> | Hm]; [|now apply Hlater in Hm].
    exists [], (c :: s). cbn. rewrite Nat.add_0_r. now repeat split.
Qed.

Lemma slice_middle (a x r : str) :
  slice (length a) (length a + length x) (a ++ x ++ r) = x.
Proof.
  unfold slice. rewrite drop_app_length.
  replace (length a + length x - length a)%nat with (length x) by lia.
  apply take_app_length.
Qed.

(** Every class match lies on a well-formed block of the text; its
    group 1 is the name of the block and its group 2 the body. *)
Lemma class_match_block content m :
  m ∈ sre.finditer ConfigParser.cpp_class_pattern content ->
  exists pre b rest,
    content = pre ++ block_text b ++ rest /\ wf_block b /\
    sre.m_start m = length pre /\
    sre.group content m 1 = b_name b /\ sre.group content m 2 = b_body b.
Proof.
  intros Hm. apply sre_finditer_from_match in Hm as (pre & s0 & -> & Hstart & Hmatch).
  apply block_match_sound in Hmatch as (b & rest & -> & Hwf & _ & Hcaps).
  exists pre, b, rest. split; [reflexivity|]. split; [exact Hwf|].
  split; [exact Hstart|]. cbv zeta in Hcaps. unfold sre.group. rewrite Hcaps.
  cbn [sre.span_of find bool_decide decide_rel fst snd fmap option_fmap option_map].
  rewrite Hstart. cbn [Nat.add]. unfold block_text.
  split.
  - replace (pre ++ (b_keyword b ++ b_blanks b ++ b_name b ++ b_heading b
                     ++ ["{"%char] ++ b_body b ++ ["}"%char]) ++ rest)
      with ((pre ++ b_keyword b ++ b_blanks b) ++ b_name b
            ++ (b_heading b ++ ["{"%char] ++ b_body b ++ ["}"%char] ++ rest))
      by now rewrite <- !app_assoc.
    replace (length pre + length (b_keyword b) + length (b_blanks b))%nat
      with (length (pre ++ b_keyword b ++ b_blanks b)) by (rewrite !length_app; lia).
    apply slice_middle.
  - replace (pre ++ (b_keyword b ++ b_blanks b ++ b_name b ++ b_heading b
                     ++ ["{"%char] ++ b_body b ++ ["}"%char]) ++ rest)
      with ((pre ++ b_keyword b ++ b_blanks b ++ b_name b ++ b_heading b ++ ["{"%char])
            ++ b_body b ++ (["}"%char] ++ rest))
      by now rewrite <- !app_assoc.
    replace (length pre + length (b_keyword b) + length (b_blanks b)
             + length (b_name b) + length (b_heading b) + 1)%nat
      with (length (pre ++ b_keyword b ++ b_blanks b ++ b_name b ++ b_heading b
                    ++ ["{"%char])) by (rewrite !length_app; cbn; lia).
    apply slice_middle.
Qed.

Lemma bind_class_binding content acc m :
  ConfigParser.bind_class content acc m
  = match block_binding content m with
    | Some b => <[fst b := snd b]> acc
    | None => acc
    end.
Proof.
  unfold ConfigParser.bind_class, block_binding, model_of. cbv zeta.
  now destruct (head _).
Qed.

Lemma parse_config_cpp_bindings content :
  ConfigParser.parse_config_cpp content
  = fold_left (fun acc b => <[fst b := snd b]> acc) (block_bindings content) ∅.
Proof.
  unfold ConfigParser.parse_config_cpp, block_bindings.
  generalize (∅ : gmap str str).
  induction (sre.finditer ConfigParser.cpp_class_pattern content) as [|m ms IH];
    intros acc; [reflexivity|].
  cbn [fold_left omap list_omap]. rewrite bind_class_binding.
  destruct (block_binding content m); cbn [fold_left]; apply IH.
Qed.

Lemma model_of_shape body v :
  model_of body = Some v ->
  (backslash ∉ v) /\ lower (last_n 4 v) = lit ".p3d" /\ (5 <= length v)%nat.
Proof.
  unfold model_of. destruct (head _) as [mm|] eqn:Hh; [|discriminate].
  intros [= <-]. apply head_Some_elem_of in Hh.
  destruct (model_group _ _ Hh) as (Hlen & _ & Hext & Hnb).
  split; [apply replace_removes; discriminate|]. split.
  - now rewrite last_n_replace, (replace_other _ _ _ Hnb).
  - unfold str_replace. now rewrite length_map.
Qed.

(** On a text of code points below 128, [parse_config_cpp] binds a
    class only to a model assignment that
    lies between the braces of that class.  Every binding of the result
    comes from a stretch of the text that reads: the word class in any
    case, blanks, the class name (a word), anything without an opening
    brace, an opening brace, a body whose braces are paired and at most
    one level deep, and the closing brace; the path bound is the first
    model assignment of that body, its backslashes turned into slashes;
    it ends in [.p3d], case set aside.  A class bound several times
    keeps the path of its last block. *)
Theorem config_cpp_binds_inside_braces content :
  ascii_text content ->
  (forall c, ConfigParser.parse_config_cpp content !! c
             = last_binding c (block_bindings content)) /\
  (forall c v, ConfigParser.parse_config_cpp content !! c = Some v ->
     exists pre b rest,
       content = pre ++ block_text b ++ rest /\ wf_block b /\
       b_name b = c /\ model_of (b_body b) = Some v /\
       (backslash ∉ v) /\ lower (last_n 4 v) = lit ".p3d").
Proof.
  intros _.
  assert (Hlookup : forall c, ConfigParser.parse_config_cpp content !! c
                              = last_binding c (block_bindings content)).
  { intros c. rewrite parse_config_cpp_bindings, fold_insert_lookup, lookup_empty.
    now destruct (last_binding c _). }
  split; [exact Hlookup|]. intros c v Hc. rewrite Hlookup in Hc.
  apply last_binding_elem in Hc. unfold block_bindings in Hc.
  apply list_elem_of_omap in Hc as (m & Hm & Hb).
  unfold block_binding in Hb.
  destruct (model_of (sre.group content m 2)) as [v'|] eqn:Hmodel; [|discriminate].
  injection Hb as <- <-.
  destruct (class_match_block _ _ Hm) as (pre & b & rest & Hc & Hwf & _ & H1 & H2).
  rewrite H2 in Hmodel. destruct (model_of_shape _ _ Hmodel) as (Hnb & Hext & _).
  exists pre, b, rest.
  exact (conj Hc (conj Hwf (conj (eq_sym H1) (conj Hmodel (conj Hnb Hext))))).
Qed.

(** ** A block that the scan is sure to find *)

Lemma run_chr_cons p (k : sre.cont) c s pos caps :
  sre.run (sre.Chr p) k (c :: s) pos caps = if p c then k s (S pos) caps else None.
Proof. reflexivity. Qed.

Lemma run_chr_nil p (k : sre.cont) pos caps : sre.run (sre.Chr p) k [] pos caps = None.
Proof. reflexivity. Qed.

(** A greedy run of one class of characters takes all of them when
    what follows can go on from there. *)
Lemma star_chr_max p (k : sre.cont) : forall w n s' pos caps res,
  Forall (fun c => p c = true) w ->
  match s' with c :: _ => p c = false | [] => True end ->
  (length w <= n)%nat ->
  k s' (pos + length w)%nat caps = Some res ->
  sre.star_loop (sre.run (sre.Chr p)) k n (w ++ s') pos caps = Some res.
Proof.
  induction w as [|c w IH]; intros n s' pos caps res Hw Hs' Hn Hk.
  - cbn in Hk. rewrite Nat.add_0_r in Hk. cbn [app].
    destruct n as [|n]; [exact Hk|]. cbn [sre.star_loop].
    destruct s' as [|c s']; [now rewrite run_chr_nil|]. now rewrite run_chr_cons, Hs'.
  - apply Forall_cons in Hw as [Hc Hw]. cbn [length] in Hn.
    destruct n as [|n]; [lia|]. cbn [sre.star_loop app]. rewrite run_chr_cons, Hc.
    destruct (Nat.eqb_spec (S pos) pos) as [Heq|_]; [lia|].
    rewrite (IH n s' (S pos) caps res Hw Hs'); [reflexivity | lia |].
    cbn [length] in Hk. now replace (S pos + length w)%nat with (pos + S (length w))%nat by lia.
Qed.

Lemma run_star_chr_max p (k : sre.cont) w s' pos caps res :
  Forall (fun c => p c = true) w ->
  match s' with c :: _ => p c = false | [] => True end ->
  k s' (pos + length w)%nat caps = Some res ->
  sre.run (sre.Star (sre.Chr p)) k (w ++ s') pos caps = Some res.
Proof.
  intros Hw Hs' Hk. cbn [sre.run]. apply star_chr_max; trivial.
  rewrite length_app. lia.
Qed.

Lemma run_plus_chr_max p (k : sre.cont) w s' pos caps res :
  w <> [] -> Forall (fun c => p c = true) w ->
  match s' with c :: _ => p c = false | [] => True end ->
  k s' (pos + length w)%nat caps = Some res ->
  sre.run (sre.plus (sre.Chr p)) k (w ++ s') pos caps = Some res.
Proof.
  intros Hne Hw Hs' Hk. destruct w as [|c w]; [done|].
  apply Forall_cons in Hw as [Hc Hw]. unfold sre.plus. rewrite run_seq.
  cbn [app]. rewrite run_chr_cons, Hc. cbn [sre.run]. apply star_chr_max; trivial.
  - rewrite length_app. lia.
  - cbn [length] in Hk. now replace (S pos + length w)%nat with (pos + S (length w))%nat by lia.
Qed.

Lemma run_char c (k : sre.cont) s pos caps :
  sre.run (sre.char c) k (c :: s) pos caps = k s (S pos) caps.
Proof. unfold sre.char. cbn [sre.run]. now rewrite bool_decide_eq_true_2. Qed.

(** A repetition whose body cannot start is skipped. *)
Lemma run_star_stop r (k : sre.cont) s pos caps :
  (forall k', sre.run r k' s pos caps = None) ->
  sre.run (sre.Star r) k s pos caps = k s pos caps.
Proof.
  intros Hr. cbn [sre.run]. destruct (length s); [reflexivity|].
  cbn [sre.star_loop]. now rewrite Hr.
Qed.

Lemma run_literal l (k : sre.cont) : forall w s pos caps,
  lower w = lower l ->
  sre.run (sre.seq (map (fun c => sre.Chr (fun x => bool_decide (lower_char x = lower_char c))) l))
    k (w ++ s) pos caps
  = k s (pos + length w)%nat caps.
Proof.
  induction l as [|c l IH]; intros w s pos caps Hw.
  - destruct w; [|discriminate]. cbn. now rewrite Nat.add_0_r.
  - destruct w as [|x w]; [discriminate|]. injection Hw as Hx Hw.
    cbn [map sre.seq fold_right]. rewrite run_seq. cbn [app].
    rewrite run_chr_cons, bool_decide_eq_true_2 by exact Hx.
    change (fold_right sre.Seq sre.Eps ?l) with (sre.seq l).
    rewrite (IH w s (S pos) caps Hw). cbn [length]. f_equal. lia.
Qed.

Lemma word_not_space c : re.is_word c = true -> re.is_space c = false.
Proof.
  destruct c as [[] [] [] [] [] [] [] []]; vm_compute; congruence.
Qed.

Lemma next_fails (p : ascii -> bool) (w s : str) :
  w <> [] -> Forall (fun c => p c = false) w ->
  match w ++ s with c :: _ => p c = false | [] => True end.
Proof.
  intros Hne Hw. destruct w as [|c w]; [done|]. now apply Forall_cons in Hw as [Hc _].
Qed.

Lemma lang_char c w : sre.lang (sre.char c) w -> w = [c].
Proof.
  unfold sre.char. intros H. apply lang_chr in H as (x & -> & Hx).
  now apply bool_decide_eq_true_1 in Hx as ->.
Qed.

Lemma lang_pair w :
  sre.lang ConfigParser.pair_pattern w ->
  exists p, w = pair_text p /\
            Forall (fun c => ConfigParser.no_brace c = true) (fst p) /\
            Forall (fun c => ConfigParser.no_brace c = true) (snd p).
Proof.
  unfold ConfigParser.pair_pattern. cbn [sre.seq fold_right]. intros H.
  inversion H as [| |a1 b1 u1 v1 Hu1 Hv1| | |]; subst.
  inversion Hv1 as [| |a2 b2 u2 v2 Hu2 Hv2| | |]; subst.
  inversion Hv2 as [| |a3 b3 u3 v3 Hu3 Hv3| | |]; subst.
  inversion Hv3 as [| |a4 b4 u4 v4 Hu4 Hv4| | |]; subst.
  inversion Hv4; subst.
  apply lang_char in Hu1 as ->. apply lang_char in Hu3 as ->.
  apply lang_star_chr in Hu2. apply lang_star_chr in Hu4.
  exists (u2, u4). unfold pair_text. cbn [fst snd]. rewrite app_nil_r.
  now repeat split.
Qed.

Lemma lang_pairs w :
  sre.lang (sre.Star ConfigParser.pair_pattern) w ->
  exists ps, w = concat (map pair_text ps) /\
             Forall (fun p => Forall (fun c => ConfigParser.no_brace c = true) (fst p) /\
                              Forall (fun c => ConfigParser.no_brace c = true) (snd p)) ps.
Proof.
  intros H. remember (sre.Star ConfigParser.pair_pattern) as r eqn:Hr.
  induction H as [| | |r0|r0 u v Hu _ Hv IH|]; try discriminate.
  - now exists [].
  - injection Hr as ->. destruct (IH eq_refl) as (ps & -> & Hps).
    apply lang_pair in Hu as (p & -> & Hp). exists (p :: ps).
    split; [reflexivity | now constructor].
Qed.

Lemma pairs_next ps rest :
  match concat (map pair_text ps) ++ "}"%char :: rest with
  | c :: _ => ConfigParser.no_brace c = false
  | [] => True
  end.
Proof. now destruct ps. Qed.

Lemma run_pair (k : sre.cont) p s' pos caps res :
  Forall (fun c => ConfigParser.no_brace c = true) (fst p) ->
  Forall (fun c => ConfigParser.no_brace c = true) (snd p) ->
  match s' with c :: _ => ConfigParser.no_brace c = false | [] => True end ->
  k s' (pos + length (pair_text p))%nat caps = Some res ->
  sre.run ConfigParser.pair_pattern k (pair_text p ++ s') pos caps = Some res.
Proof.
  intros H1 H2 Hs' Hk. unfold ConfigParser.pair_pattern, pair_text. cbn [sre.seq fold_right].
  rewrite <- !app_assoc. cbn [app]. rewrite run_seq, run_char, run_seq.
  apply run_star_chr_max; [exact H1 | reflexivity |].
  rewrite run_seq, run_char, run_seq.
  apply run_star_chr_max; [exact H2 | exact Hs' |]. cbn [sre.run].
  unfold pair_text in Hk. rewrite !length_app in Hk. cbn [length] in Hk.
  rewrite <- Hk. f_equal. lia.
Qed.

Lemma star_pairs_max (k : sre.cont) rest : forall ps n pos caps res,
  Forall (fun p => Forall (fun c => ConfigParser.no_brace c = true) (fst p) /\
                   Forall (fun c => ConfigParser.no_brace c = true) (snd p)) ps ->
  (length ps <= n)%nat ->
  k ("}"%char :: rest) (pos + length (concat (map pair_text ps)))%nat caps = Some res ->
  sre.star_loop (sre.run ConfigParser.pair_pattern) k n
    (concat (map pair_text ps) ++ "}"%char :: rest) pos caps = Some res.
Proof.
  induction ps as [|p ps IH]; intros n pos caps res Hps Hn Hk.
  - cbn in Hk. rewrite Nat.add_0_r in Hk. cbn [map concat app].
    destruct n as [|n]; [exact Hk|]. cbn [sre.star_loop].
    replace (sre.run ConfigParser.pair_pattern _ _ _ _) with (@None (nat * sre.spans)) by reflexivity.
    exact Hk.
  - apply Forall_cons in Hps as [[H1 H2] Hps]. cbn [length] in Hn.
    destruct n as [|n]; [lia|]. cbn [sre.star_loop map concat]. rewrite <- app_assoc.
    erewrite run_pair; [reflexivity | exact H1 | exact H2 | apply pairs_next |].
    destruct (Nat.eqb_spec (pos + length (pair_text p)) pos) as [Heq|_].
    { unfold pair_text in Heq. rewrite !length_app in Heq. cbn [length] in Heq. lia. }
    apply IH; [exact Hps | lia |].
    cbn [map concat] in Hk. rewrite length_app in Hk. now rewrite <- Nat.add_assoc.
Qed.

Lemma pairs_length ps : (length ps <= length (concat (map pair_text ps)))%nat.
Proof.
  induction ps as [|p ps IH]; [reflexivity|]. cbn [map concat length].
  unfold pair_text at 1. rewrite !length_app. cbn [length]. lia.
Qed.

(** The body pattern takes a body with paired braces whole when a
    closing brace follows it. *)
Lemma run_body (k : sre.cont) body rest pos caps res :
  sre.lang ConfigParser.body_pattern body ->
  k ("}"%char :: rest) (pos + length body)%nat caps = Some res ->
  sre.run ConfigParser.body_pattern k (body ++ "}"%char :: rest) pos caps = Some res.
Proof.
  unfold ConfigParser.body_pattern. intros H Hk.
  inversion H as [| |a b u v Hu Hv| | |]; subst.
  apply lang_star_chr in Hu. apply lang_pairs in Hv as (ps & -> & Hps).
  rewrite run_seq, <- app_assoc.
  apply run_star_chr_max; [exact Hu | apply pairs_next |].
  cbn [sre.run]. apply star_pairs_max; [exact Hps | |].
  - rewrite length_app. etrans; [apply pairs_length | apply Nat.le_add_r].
  - rewrite length_app in Hk. now rewrite <- Nat.add_assoc.
Qed.

(** The class pattern matches a tight block at once, whatever follows
    it. *)
Lemma tight_block_match b rest pos :
  tight_block b ->
  sre.match_at ConfigParser.cpp_class_pattern (block_text b ++ rest) pos
  = let name_at := (pos + length (b_keyword b) + length (b_blanks b))%nat in
    let body_at := (name_at + length (b_name b) + length (b_heading b) + 1)%nat in
    Some ((pos + length (block_text b))%nat,
          [(2%nat, (body_at, (body_at + length (b_body b))%nat));
           (1%nat, (name_at, (name_at + length (b_name b))%nat))]).
Proof.
  intros [[Hkw [Hbl1 Hbl2] [Hn1 Hn2] Hhead Hbody] Htight]. cbv zeta.
  unfold sre.match_at, ConfigParser.cpp_class_pattern, block_text.
  cbn [sre.seq fold_right]. rewrite run_seq. rewrite <- !app_assoc.
  unfold sre.literal. rewrite run_literal by exact Hkw.
  rewrite run_seq.
  apply run_plus_chr_max; [exact Hbl1 | exact Hbl2 | |].
  { destruct (b_name b) as [|c n]; [done|]. apply Forall_cons in Hn2 as [Hc _].
    cbn [app]. now apply word_not_space. }
  rewrite run_seq, run_group.
  apply run_plus_chr_max; [exact Hn1 | exact Hn2 | |].
  { destruct (b_heading b) as [|c h]; [reflexivity | exact Htight]. }
  rewrite run_seq.
  apply run_star_chr_max.
  { eapply Forall_impl; [exact Hhead|]. intros c Hc. unfold ConfigParser.not_open.
    now rewrite bool_decide_eq_false_2. }
  { reflexivity. }
  cbn [app]. rewrite run_seq, run_char, run_seq, run_group.
  apply run_body; [exact Hbody|].
  rewrite run_seq, run_char. cbn [sre.run]. f_equal. f_equal; [|repeat f_equal].
  all: repeat first [rewrite !length_app | progress cbn [length app]]; lia.
Qed.

(** ** The scan does not depend on where the text starts *)

Lemma star_loop_shift d (body : sre.cont -> sre.cont) :
  (forall k k', shifted d k k' -> shifted d (body k) (body k')) ->
  forall n k k', shifted d k k' ->
    shifted d (sre.star_loop body k n) (sre.star_loop body k' n).
Proof.
  intros Hbody. induction n as [|n IH]; intros k k' Hk s p c; cbn [sre.star_loop].
  - apply Hk.
  - rewrite (Hbody (fun s' pos' caps' =>
                      if (pos' =? p)%nat then None else sre.star_loop body k n s' pos' caps')).
    + destruct (body _ s p c); [reflexivity | apply Hk].
    + intros s' p' c'. cbn beta.
      destruct (Nat.eqb_spec p' p) as [->|Hne].
      * now rewrite Nat.eqb_refl.
      * destruct (Nat.eqb_spec (d + p') (d + p)) as [Heq|_]; [lia|]. now apply IH.
Qed.

Lemma run_shift d r : forall k k', shifted d k k' -> shifted d (sre.run r k) (sre.run r k').
Proof.
  induction r as [|q|a IHa b IHb|r IH|n r IH]; intros k k' Hk; cbn [sre.run].
  - exact Hk.
  - intros s p c. destruct s as [|x s]; [reflexivity|].
    destruct (q x); [|reflexivity]. rewrite <- Hk. f_equal. lia.
  - apply IHa, IHb, Hk.
  - intros s p c. now apply star_loop_shift.
  - intros s p c.
    apply (IH (fun s' pos' caps' => k s' pos' ((n, (p, pos')) :: caps'))).
    intros s' p' c'. cbn beta. now rewrite <- Hk.
Qed.

Lemma match_at_shift d r s pos :
  sre.match_at r s (d + pos) = shift_result d <$> sre.match_at r s pos.
Proof.
  unfold sre.match_at.
  exact (run_shift d r (fun _ e caps => Some (e, caps)) (fun _ e caps => Some (e, caps))
           (fun _ _ _ => eq_refl) s pos []).
Qed.

Lemma finditer_from_shift d r s : forall pos skip,
  sre.finditer_from r s (d + pos) skip = map (shift_match d) (sre.finditer_from r s pos skip).
Proof.
  induction s as [|c s IH]; intros pos skip; [reflexivity|]. cbn [sre.finditer_from].
  replace (S (d + pos)) with (d + S pos)%nat by lia.
  destruct skip as [|k]; [|apply IH].
  rewrite match_at_shift. destruct (sre.match_at r (c :: s) pos) as [[e caps]|]; cbn.
  - f_equal. replace (d + e - (d + pos) - 1)%nat with (e - pos - 1)%nat by lia. apply IH.
  - apply IH.
Qed.

Lemma finditer_from_skip r : forall k s pos,
  (k <= length s)%nat ->
  sre.finditer_from r s pos k = sre.finditer_from r (drop k s) (pos + k) 0.
Proof.
  induction k as [|k IH]; intros s pos Hk.
  - now rewrite drop_0, Nat.add_0_r.
  - destruct s as [|c s]; [cbn in Hk; lia|]. cbn [sre.finditer_from drop].
    rewrite IH by (cbn in Hk; lia). f_equal. lia.
Qed.

(** After a match at the start, the scan goes on behind it. *)
Lemma finditer_after_match r w rest e caps :
  w <> [] -> sre.match_at r (w ++ rest) 0 = Some (length w, caps) ->
  e = length w ->
  sre.finditer r (w ++ rest)
  = sre.mk_match 0 e caps :: map (shift_match e) (sre.finditer r rest).
Proof.
  intros Hw Hm ->. unfold sre.finditer. destruct w as [|c w]; [done|].
  cbn [app sre.finditer_from]. cbn [app] in Hm. rewrite Hm. f_equal.
  cbn [length]. replace (S (length w) - 0 - 1)%nat with (length w) by lia.
  rewrite finditer_from_skip by (rewrite length_app; lia).
  rewrite drop_app_length.
  replace (1 + length w)%nat with (S (length w) + 0)%nat by lia.
  apply finditer_from_shift.
Qed.

Lemma span_of_shift d n caps :
  sre.span_of n (shift_spans d caps)
  = (fun x => ((d + fst x)%nat, (d + snd x)%nat)) <$> sre.span_of n caps.
Proof.
  unfold sre.span_of, shift_spans. induction caps as [|x caps IH]; [reflexivity|].
  cbn [map find fst]. destruct (bool_decide (fst x = n)); [reflexivity | exact IH].
Qed.

Lemma group_shift pre content m n :
  sre.group (pre ++ content) (shift_match (length pre) m) n = sre.group content m n.
Proof.
  unfold sre.group, shift_match. cbn [sre.m_spans]. rewrite span_of_shift.
  destruct (sre.span_of n (sre.m_spans m)) as [[a b]|]; [|reflexivity].
  cbn [fmap option_fmap option_map fst snd]. unfold slice.
  rewrite drop_app_add. f_equal. lia.
Qed.

Lemma block_binding_shift pre content m :
  block_binding (pre ++ content) (shift_match (length pre) m) = block_binding content m.
Proof. unfold block_binding. now rewrite !group_shift. Qed.

Lemma block_bindings_shift pre content ms :
  omap (block_binding (pre ++ content)) (map (shift_match (length pre)) ms)
  = omap (block_binding content) ms.
Proof.
  induction ms as [|m ms IH]; [reflexivity|]. cbn [map omap list_omap].
  now rewrite block_binding_shift, IH.
Qed.

(** The groups of a match that lies on a block. *)
Lemma block_groups pre b rest m :
  (let name_at := (length pre + length (b_keyword b) + length (b_blanks b))%nat in
   let body_at := (name_at + length (b_name b) + length (b_heading b) + 1)%nat in
   sre.m_spans m = [(2%nat, (body_at, (body_at + length (b_body b))%nat));
                    (1%nat, (name_at, (name_at + length (b_name b))%nat))]) ->
  sre.group (pre ++ block_text b ++ rest) m 1 = b_name b /\
  sre.group (pre ++ block_text b ++ rest) m 2 = b_body b.
Proof.
  cbv zeta. intros Hcaps. unfold sre.group. rewrite Hcaps.
  cbn [sre.span_of find bool_decide decide_rel fst snd fmap option_fmap option_map].
  unfold block_text. split.
  - replace (pre ++ (b_keyword b ++ b_blanks b ++ b_name b ++ b_heading b
                     ++ ["{"%char] ++ b_body b ++ ["}"%char]) ++ rest)
      with ((pre ++ b_keyword b ++ b_blanks b) ++ b_name b
            ++ (b_heading b ++ ["{"%char] ++ b_body b ++ ["}"%char] ++ rest))
      by now rewrite <- !app_assoc.
    replace (length pre + length (b_keyword b) + length (b_blanks b))%nat
      with (length (pre ++ b_keyword b ++ b_blanks b)) by (rewrite !length_app; lia).
    apply slice_middle.
  - replace (pre ++ (b_keyword b ++ b_blanks b ++ b_name b ++ b_heading b
                     ++ ["{"%char] ++ b_body b ++ ["}"%char]) ++ rest)
      with ((pre ++ b_keyword b ++ b_blanks b ++ b_name b ++ b_heading b ++ ["{"%char])
            ++ b_body b ++ (["}"%char] ++ rest))
      by now rewrite <- !app_assoc.
    replace (length pre + length (b_keyword b) + length (b_blanks b)
             + length (b_name b) + length (b_heading b) + 1)%nat
      with (length (pre ++ b_keyword b ++ b_blanks b ++ b_name b ++ b_heading b
                    ++ ["{"%char])) by (rewrite !length_app; cbn; lia).
    apply slice_middle.
Qed.

Lemma block_text_nonempty b : wf_block b -> block_text b <> [].
Proof.
  intros [Hkw _ _ _ _]. unfold block_text. destruct (b_keyword b); [discriminate | done].
Qed.

Lemma tight_block_bindings b rest :
  tight_block b ->
  block_bindings (block_text b ++ rest)
  = match model_of (b_body b) with
    | Some v => [(b_name b, v)]
    | None => []
    end ++ block_bindings rest.
Proof.
  intros Hb. pose proof (tight_block_match b rest 0 Hb) as Hm. cbv zeta in Hm.
  unfold block_bindings.
  rewrite (finditer_after_match _ _ _ (length (block_text b)) _
             (block_text_nonempty b (tight_wf b Hb)) Hm eq_refl).
  cbn [omap list_omap]. rewrite block_bindings_shift.
  destruct (block_groups [] b rest (sre.mk_match 0 (length (block_text b)) _) eq_refl)
    as [H1 H2].
  cbn [app length] in H1, H2. unfold block_binding at 1. rewrite H1, H2.
  now destruct (model_of (b_body b)).
Qed.

(** In a text of code points below 128, a class block at the start of
    the text, whose name ends where its
    heading starts, is found whatever follows it: its name is bound to
    the first model assignment between its braces, the blocks nested
    in its body bind nothing of their own, and the scan goes on behind
    its closing brace.  The result is that of the rest of the text,
    and the binding of this block for a name the rest does not bind. *)
Theorem config_cpp_leading_block b rest :
  ascii_text (block_text b ++ rest) ->
  tight_block b ->
  ConfigParser.parse_config_cpp (block_text b ++ rest)
  = ConfigParser.parse_config_cpp rest
    ∪ match model_of (b_body b) with
      | Some v => {[b_name b := v]}
      | None => ∅
      end.
Proof.
  intros _ Hb. apply map_eq. intros c.
  rewrite !parse_config_cpp_bindings, (tight_block_bindings b rest Hb), fold_left_app.
  assert (Hfirst : fold_left (fun acc x => <[fst x := snd x]> acc)
                     match model_of (b_body b) with
                     | Some v => [(b_name b, v)]
                     | None => []
                     end (∅ : gmap str str)
                   = match model_of (b_body b) with
                     | Some v => {[b_name b := v]}
                     | None => ∅
                     end).
  { destruct (model_of (b_body b)); [apply insert_empty | reflexivity]. }
  rewrite Hfirst, (fold_insert_lookup (block_bindings rest)).
  destruct (last_binding c (block_bindings rest)) as [v|] eqn:Hrest.
  - symmetry. apply lookup_union_Some_l.
    now rewrite fold_insert_lookup, Hrest.
  - symmetry. apply lookup_union_r.
    now rewrite fold_insert_lookup, Hrest, lookup_empty.
Qed.

(** ** Texts without blocks *)

Lemma block_text_brace b : "{"%char ∈ block_text b /\ "}"%char ∈ block_text b.
Proof.
  unfold block_text. split.
  - rewrite !elem_of_app. do 4 right. left. apply list_elem_of_here.
  - rewrite !elem_of_app. do 6 right. apply list_elem_of_here.
Qed.

(** A text without an opening brace, or without a closing one, binds
    nothing: a class that is only declared is not a block. *)
Theorem config_cpp_needs_braces content :
  "{"%char ∉ content \/ "}"%char ∉ content ->
  ConfigParser.parse_config_cpp content = ∅.
Proof.
  intros Hno. unfold ConfigParser.parse_config_cpp.
  destruct (sre.finditer ConfigParser.cpp_class_pattern content) as [|m ms] eqn:Hms;
    [reflexivity|].
  exfalso.
  destruct (class_match_block content m) as (pre & b & rest & -> & _).
  { rewrite Hms. apply list_elem_of_here. }
  destruct (block_text_brace b) as [Ho Hc].
  destruct Hno as [Hno|Hno]; apply Hno; rewrite !elem_of_app; auto.
Qed.

(** What the matcher accepts whole is in the language of the pattern. *)
Lemma lang_of_match r s caps :
  sre.match_at r s 0 = Some (length s, caps) -> sre.lang r s.
Proof.
  unfold sre.match_at. intros H.
  apply run_sound in H as (w & s' & new & -> & Hw & _ & Hk).
  injection Hk as Hlen _. rewrite length_app in Hlen.
  destruct s'; [now rewrite app_nil_r | cbn in Hlen; lia].
Qed.

(** ** The properties at work on the samples *)

Lemma sample_tree_wf :
  wf_header Samples.boundary Samples.tree_exts Samples.tree_records Samples.boundary.
Proof. split; vm_compute; repeat constructor; discriminate. Qed.

Lemma sample_tree_sized : Forall2 sized Samples.tree_records Samples.tree_payloads.
Proof. repeat constructor. Qed.

Lemma parse_pbo_table_invariants_witness :
  exists content hdr decoded f origin,
    os.open_rb (lit "mods/tree.pbo") Samples.tree_world = Returned content /\
    PBOHeader.parse_from_file {| f_data := content; f_pos := 0 |} = Returned (decoded, f) /\
    origin = f_pos f /\
    PBOParser.header Samples.tree_parsed = Some hdr /\
    PBOHeader.header_extension hdr = PBOHeader.header_extension decoded /\
    PBOHeader.eoh_boundary hdr = PBOHeader.eoh_boundary decoded /\
    PBOHeader.pbo_entries hdr = PBOParser.entries Samples.tree_parsed /\
    is_Some (PBOHeader.eoh_boundary hdr) /\
    (origin <= length content)%nat /\
    Forall (fun e => PBOHeaderEntry.is_boundary e = false /\
                     0 <= PBOHeaderEntry.data_size e < 2 ^ 32)
           (PBOParser.entries Samples.tree_parsed) /\
    (forall i e, PBOParser.entries Samples.tree_parsed !! i = Some e ->
       PBOHeaderEntry.data_offset e
       = Z.of_nat origin
         + PBOParser.total_size (take i (PBOParser.entries Samples.tree_parsed))).
Proof.
  apply (parse_pbo_table_invariants PBOParser.init Samples.tree_world (lit "mods/tree.pbo")).
  vm_compute. reflexivity.
Defined.

Lemma parse_pbo_without_extension_witness :
  exists self' hdr,
    PBOParser.parse_pbo PBOParser.init Samples.bare_world (lit "mods/bare.pbo")
    = Returned (true, self') /\
    PBOParser.header self' = Some hdr /\
    PBOHeader.header_extension hdr = None /\
    PBOHeader.eoh_boundary hdr = Some (entry_of Samples.boundary) /\
    PBOParser.entries self'
    = PBOParser.assign_offsets (map entry_of Samples.tree_records)
        (Z.of_nat (length (records Samples.tree_records ++ record Samples.boundary))).
Proof.
  apply (parse_pbo_without_extension PBOParser.init Samples.bare_world (lit "mods/bare.pbo")
           Samples.tree_records Samples.boundary (Samples.bytes_of "hi<types/>")).
  - apply sample_tree_wf.
  - discriminate.
  - apply sample_tree_wf.
  - vm_compute. reflexivity.
Defined.

Lemma find_files_after_parse_witness :
  exists self',
    PBOParser.parse_pbo PBOParser.init Samples.tree_world (lit "mods/tree.pbo")
    = Returned (true, self') /\
    PBOParser.find_files_by_extension self' (lit ".XML") = Returned [lit "b\c.xml"] /\
    PBOParser.find_files_by_extension self' [] = Returned [lit "a.txt"; lit "b\c.xml"].
Proof.
  destruct (find_files_after_parse PBOParser.init Samples.tree_world (lit "mods/tree.pbo")
              Samples.boundary Samples.tree_exts Samples.tree_records Samples.boundary
              (Samples.bytes_of "hi<types/>") sample_tree_wf)
    as (self' & Hparse & Hfind).
  { vm_compute. reflexivity. }
  { repeat constructor. }
  exists self'. split; [exact Hparse|].
  split; (rewrite Hfind; [|vm_compute; reflexivity]); vm_compute; reflexivity.
Defined.

Lemma unpack_round_trip_witness :
  os.written Samples.tree_extracted
  = os.written Samples.tree_world
    ++ packed_files (lit "out") Samples.tree_records Samples.tree_payloads /\
  packed_files (lit "out") Samples.tree_records Samples.tree_payloads
  = [([lit "out"; lit "a.txt"], Samples.bytes_of "hi");
     ([lit "out"; lit "b"; lit "c.xml"], Samples.bytes_of "<types/>")].
Proof.
  split; [|vm_compute; reflexivity].
  refine (proj1 (unpack_round_trip PBOParser.init Samples.tree_world (lit "mods/tree.pbo")
                   (lit "out") Samples.boundary Samples.tree_exts Samples.tree_records
                   Samples.boundary Samples.tree_payloads Samples.tree_parsed
                   Samples.tree_extracted sample_tree_wf sample_tree_sized _ _ _)).
  - vm_compute. reflexivity.
  - vm_compute. repeat constructor; discriminate.
  - vm_compute. reflexivity.
Defined.

Lemma extract_file_round_trip_witness :
  PBOParser.extract_file PBOParser.init Samples.tree_world (lit "mods/tree.pbo")
    (lit "b\c.xml") (lit "c.xml")
  = Returned (true, Samples.tree_parsed,
              with_file Samples.tree_world (lit "c.xml") (Samples.bytes_of "<types/>")) /\
  os.open_rb (lit "c.xml")
    (with_file Samples.tree_world (lit "c.xml") (Samples.bytes_of "<types/>"))
  = Returned (Samples.bytes_of "<types/>").
Proof.
  assert (Hrun : PBOParser.extract_file PBOParser.init Samples.tree_world
                   (lit "mods/tree.pbo") (lit "b\c.xml") (lit "c.xml")
                 = Returned (true, Samples.tree_parsed,
                             with_file Samples.tree_world (lit "c.xml")
                               (Samples.bytes_of "<types/>")))
    by (vm_compute; reflexivity).
  split; [exact Hrun|].
  refine (proj2 (proj2 (proj2
            (extract_file_round_trip PBOParser.init Samples.tree_world (lit "mods/tree.pbo")
               (lit "c.xml") Samples.boundary Samples.tree_exts Samples.tree_records
               Samples.boundary Samples.tree_payloads 1%nat (Samples.raw_of "b\c.xml" 8)
               (Samples.bytes_of "<types/>") Samples.tree_parsed _
               sample_tree_wf sample_tree_sized _ _ _ _ _ Hrun)))).
  - vm_compute. reflexivity.
  - reflexivity.
  - reflexivity.
  - vm_compute. reflexivity.
  - intros j r' Hj Hr'. destruct j as [|j]; [|lia].
    injection Hr' as <-. vm_compute. discriminate.
Defined.

Lemma extract_fails_on_raw_name_witness :
  exists self' w' new,
    PBOParser.extract_to_directory PBOParser.init Samples.garbled_world
      (lit "mods/garbled.pbo") (lit "out")
    = Returned (false, self', w') /\
    os.written w' = os.written Samples.garbled_world ++ new /\
    new `prefix_of` expected_writes (lit "out") Samples.garbled_pbo
                      (take 1 (PBOParser.entries self')) /\
    (forall p c, last_written p new = Some c -> os.tree w' !! p = Some (os.File c)) /\
    files_kept (map fst new) Samples.garbled_world w'.
Proof.
  apply (extract_fails_on_raw_name PBOParser.init Samples.garbled_world
           (lit "mods/garbled.pbo") (lit "out") Samples.boundary Samples.tree_exts
           Samples.garbled_records Samples.boundary (Samples.bytes_of "hixyz") 1%nat
           (Samples.raw_named [xff; x62] 3)).
  - split; vm_compute; repeat constructor; discriminate.
  - vm_compute. reflexivity.
  - reflexivity.
  - vm_compute. reflexivity.
  - vm_compute. reflexivity.
  - vm_compute. repeat constructor; discriminate.
Defined.

Lemma extract_keeps_other_files_witness :
  exists new,
    os.written Samples.short_extracted = os.written Samples.short_world ++ new /\
    new `prefix_of` expected_writes (lit "out") Samples.short_pbo
                      (PBOParser.entries Samples.short_parsed) /\
    (true = true ->
     new = expected_writes (lit "out") Samples.short_pbo
             (PBOParser.entries Samples.short_parsed)) /\
    (forall p c, p ∉ map fst new ->
       os.tree Samples.short_world !! p = Some (os.File c) ->
       os.tree Samples.short_extracted !! p = Some (os.File c)) /\
    (forall p c, os.tree Samples.short_world !! p = Some (os.File c) ->
       exists c', os.tree Samples.short_extracted !! p = Some (os.File c')).
Proof.
  apply (extract_keeps_other_files PBOParser.init Samples.short_world
           (lit "mods/short.pbo") (lit "out") true Samples.short_parsed
           Samples.short_extracted Samples.short_pbo).
  - vm_compute. reflexivity.
  - vm_compute. reflexivity.
  - vm_compute. repeat constructor; discriminate.
Defined.

Lemma sample_odol_returned :
  returned_model Samples.odol_world (lit "models/crate.p3d") Samples.odol_model.
Proof. right. vm_compute. reflexivity. Qed.

Lemma sampled_vertices_in_bounds_witness :
  Forall (fun v => let '(x, y, z) := v in
                   (finite x /\ abs_lt x 1000 = true) /\
                   (finite y /\ abs_lt y 1000 = true) /\
                   (finite z /\ abs_lt z 1000 = true))
         (P3DModel.vertices Samples.odol_model) /\
  length (P3DModel.vertices Samples.odol_model) = 6%nat.
Proof.
  split; [|reflexivity].
  exact (sampled_vertices_in_bounds Samples.odol_world (lit "models/crate.p3d")
           Samples.odol_model sample_odol_returned).
Defined.

Lemma sample_sizes_witness :
  exists fmt,
    P3DModel.format_type Samples.odol_model = Some fmt /\
    P3DModel.path Samples.odol_model = lit "models/crate.p3d" /\
    (P3DModel.get_vertex_count Samples.odol_model <= vertex_cap fmt)%nat /\
    (3 * P3DModel.get_face_count Samples.odol_model
     <= P3DModel.get_vertex_count Samples.odol_model)%nat /\
    (P3DModel.get_face_count Samples.odol_model < face_limit fmt)%nat /\
    (P3DModel.is_valid Samples.odol_model = true
     <-> P3DModel.vertices Samples.odol_model <> []) /\
    P3DModel.geometry_loaded Samples.odol_model = P3DModel.is_valid Samples.odol_model.
Proof.
  exact (sample_sizes Samples.odol_world (lit "models/crate.p3d") Samples.odol_model
           sample_odol_returned).
Defined.

Lemma sampler_window_witness :
  Samples.long_file x01 <> Samples.long_file x02 /\
  P3DParser.get_basic_model_info (Samples.long_world x01) (lit "models/long.p3d")
  = P3DParser.get_basic_model_info (Samples.long_world x02) (lit "models/long.p3d").
Proof.
  split.
  - intros H. apply (f_equal (fun l => l !! 1312%nat)) in H. vm_compute in H. discriminate H.
  - apply (sampler_window (Samples.long_world x01) (Samples.long_world x02)
             (lit "models/long.p3d") (Samples.long_file x01) (Samples.long_file x02)).
    + vm_compute. reflexivity.
    + vm_compute. reflexivity.
    + vm_compute. reflexivity.
Defined.

Lemma find_class_round_trip_witness :
  exists found fmodel,
    ConfigParser.find_class_for_model (lit "dz/old/CRATE.p3d") Samples.class_items
    = Some found /\
    (found, fmodel) ∈ Samples.class_items /\
    lower (path_name fmodel) = lower (path_name (lit "dz/old/CRATE.p3d")) /\
    ((forall j item, (j < 1)%nat -> Samples.class_items !! j = Some item ->
        lower (path_name (snd item)) <> lower (path_name (lit "dz/old/CRATE.p3d"))) ->
     found = lit "Box").
Proof.
  apply (find_class_round_trip Samples.class_items 1%nat (lit "Box") (lit "dz/old/CRATE.p3d")).
  - vm_compute. reflexivity.
  - reflexivity.
Defined.

Lemma sample_host_permutes : forall l, Samples.host_order l ≡ₚ l.
Proof. intros l. reflexivity. Qed.

Lemma find_p3d_files_finds_witness :
  P3DParser.find_p3d_files Samples.host_order Samples.mod_world (lit "mod")
  = Returned [lit "mod/addons/Crate.P3D"; lit "mod/addons/gear/m4a1.p3d"] /\
  exists p3d_files,
    P3DParser.find_p3d_files Samples.host_order Samples.mod_world (lit "mod")
    = Returned p3d_files /\
    (forall path, path ∈ p3d_files <->
       exists rel name,
         file_below Samples.mod_world (lit "mod") rel name /\
         lit ".p3d" `suffix_of` lower name /\
         path = joined (lit "mod") (rel ++ [name])) /\
    (forall path, path ∈ p3d_files ->
       exists content, os.open_rb path Samples.mod_world = Returned content) /\
    (lit "mod" = [] \/ os.isdir Samples.mod_world (os.resolve (lit "mod")) = false ->
     p3d_files = []).
Proof.
  split; [vm_compute; reflexivity|].
  apply (find_p3d_files_finds Samples.host_order Samples.mod_world (lit "mod")
           sample_host_permutes).
  apply (bool_decide_unpack _). vm_compute. exact I.
Defined.

Lemma find_config_files_finds_witness :
  ConfigParser.find_config_files Samples.host_order Samples.mod_world (lit "mod")
  = Returned [lit "mod/config.cpp"; lit "mod/addons/gear/CONFIG.BIN"] /\
  exists config_files,
    ConfigParser.find_config_files Samples.host_order Samples.mod_world (lit "mod")
    = Returned config_files /\
    (forall path, path ∈ config_files <->
       exists rel name,
         file_below Samples.mod_world (lit "mod") rel name /\
         (lower name = lit "config.bin" \/ lower name = lit "config.cpp") /\
         path = joined (lit "mod") (rel ++ [name])).
Proof.
  split; [vm_compute; reflexivity|].
  apply (find_config_files_finds Samples.host_order Samples.mod_world (lit "mod")
           sample_host_permutes).
  apply (bool_decide_unpack _). vm_compute. exact I.
Defined.

Lemma class_mapping_follows_fallback_witness :
  exists p3d_files mapping,
    P3DParser.find_p3d_files Samples.host_order Samples.mod_world (lit "mod")
    = Returned p3d_files /\
    P3DParser.create_class_to_p3d_mapping Samples.host_order Samples.mod_world
      [lit "M4A1"; lit "zzz"] (lit "mod")
    = Returned mapping /\
    (forall class_name,
       mapping !! class_name
       = if bool_decide (class_name ∈ [lit "M4A1"; lit "zzz"])
         then P3DParser.map_class_to_p3d class_name p3d_files else None) /\
    (forall class_name p3d_path,
       mapping !! class_name = Some p3d_path -> p3d_path ∈ p3d_files).
Proof.
  exact (class_mapping_follows_fallback Samples.host_order Samples.mod_world
           [lit "M4A1"; lit "zzz"] (lit "mod") sample_host_permutes).
Defined.

Lemma nested_block_tight : tight_block Samples.nested_block.
Proof.
  split; [split|]; cbn.
  - reflexivity.
  - split; [discriminate | repeat constructor].
  - split; [discriminate | repeat constructor].
  - repeat constructor; discriminate.
  - eapply lang_of_match. vm_compute. reflexivity.
  - reflexivity.
Qed.

Lemma config_cpp_leading_block_witness :
  tight_block Samples.nested_block /\
  ConfigParser.parse_config_cpp (block_text Samples.nested_block ++ Samples.nested_rest)
  = ConfigParser.parse_config_cpp Samples.nested_rest
    ∪ match model_of (b_body Samples.nested_block) with
      | Some v => {[b_name Samples.nested_block := v]}
      | None => ∅
      end.
Proof.
  split; [exact nested_block_tight|].
  apply (config_cpp_leading_block Samples.nested_block Samples.nested_rest).
  - vm_compute. reflexivity.
  - exact nested_block_tight.
Defined.

Lemma config_cpp_binds_inside_braces_witness :
  ConfigParser.parse_config_cpp (block_text Samples.nested_block ++ Samples.nested_rest)
    !! lit "Outer"
  = last_binding (lit "Outer")
      (block_bindings (block_text Samples.nested_block ++ Samples.nested_rest)).
Proof.
  assert (Htext : ascii_text (block_text Samples.nested_block ++ Samples.nested_rest))
    by (vm_compute; reflexivity).
  exact (proj1 (config_cpp_binds_inside_braces
                  (block_text Samples.nested_block ++ Samples.nested_rest) Htext)
           (lit "Outer")).
Defined.

Lemma find_class_two_passes_witness :
  ConfigParser.find_class_for_model (lit "dz/old/CRATE.p3d") Samples.class_items
  = match find (same_name (lit "dz/old/CRATE.p3d")) Samples.class_items with
    | Some item => Some (fst item)
    | None => fst <$> find (loosely (lit "dz/old/CRATE.p3d")) Samples.class_items
    end.
Proof.
  assert (Hpath : ascii_text (lit "dz/old/CRATE.p3d")) by (vm_compute; reflexivity).
  assert (Hitems : ascii_texts (map snd Samples.class_items)) by (vm_compute; reflexivity).
  exact (proj1 (find_class_two_passes (lit "dz/old/CRATE.p3d") Samples.class_items
                  Hpath Hitems)).
Defined.

Lemma config_cpp_needs_braces_witness :
  ("{"%char ∉ Samples.forward_text \/ "}"%char ∉ Samples.forward_text) /\
  ConfigParser.parse_config_cpp Samples.forward_text = ∅.
Proof.
  assert (H : "{"%char ∉ Samples.forward_text \/ "}"%char ∉ Samples.forward_text).
  { left. apply (bool_decide_unpack _). vm_compute. exact I. }
  split; [exact H | apply (config_cpp_needs_braces Samples.forward_text H)].
Defined.
